(** * route_planner: recurring-definition merge, pattern derivation,
      assignment clean-up and export of [app.py]

    The program is a Flask application ([src/app.py]).  Each request handler
    loads whole JSON documents, transforms them in memory and writes whole
    documents back.  This development embeds those transformations:

    - Python values and their [==] (weights come straight from pandas / JSON);
    - the recurring and specific appointment definitions;
    - the CSV validation loops of the three upload handlers;
    - the pattern computation that every recurring write path repeats;
    - the merge loop of [upload_recurring_merge];
    - the two delete handlers with their assignment clean-up;
    - the two download handlers;
    - the upload, merge, add, edit, page and save requests as transitions
      of one user's documents and cached entry;
    - the date range of [configure].

    Flask, pandas, sqlite and [uuid] are collaborators: their results are
    inputs of the model (a parsed CSV row, a parsed document, a drawn
    identifier). *)

From Stdlib Require Import ZArith Floats String Ascii List Sorted.
From stdpp Require Import gmap strings list fin_maps sorting.

Local Open Scope string_scope.
Local Open Scope list_scope.

(* ===================================================================== *)
(** * Python values *)
(* ===================================================================== *)

Module Py.

(** The values a weight cell can hold.  [row['Minimum Weight']] out of
    [DataFrame.iterrows] is a Python [int], a [float] ([nan] for a blank
    cell) or a [str]; the JSON edit route stores whatever scalar the client
    sent ([null], [true], a number, a string).  [json.dumps] writes [nan] as
    [NaN] and [json.loads] reads it back as [nan]. *)
Inductive val : Type :=
| None_
| Bool (b : bool)
| Int (z : Z)
| Float (f : float)
| Str (s : string).

(** Python compares an [int] with a [float] by value, exactly. *)
Definition float_eq_int (f : float) (z : Z) : bool :=
  match Prim2SF f with
  | S754_zero _ => (z =? 0)%Z
  | S754_finite s m e =>
      let v := if s then Z.neg m else Z.pos m in
      if (0 <=? e)%Z then (z =? v * 2 ^ e)%Z else (z * 2 ^ (- e) =? v)%Z
  | S754_infinity _ | S754_nan => false
  end.

(** The numeric tower: [bool] is a subclass of [int]. *)
Inductive num : Type := NInt (z : Z) | NFloat (f : float).

Definition as_num (v : val) : option num :=
  match v with
  | Bool b => Some (NInt (if b then 1 else 0)%Z)
  | Int z => Some (NInt z)
  | Float f => Some (NFloat f)
  | None_ | Str _ => None
  end.

Definition num_eq (a b : num) : bool :=
  match a, b with
  | NInt x, NInt y => (x =? y)%Z
  | NFloat x, NFloat y => PrimFloat.eqb x y
  | NInt x, NFloat y => float_eq_int y x
  | NFloat x, NInt y => float_eq_int x y
  end.

(** [a == b].  IEEE equality on floats: [nan == nan] is [False]. *)
Definition eq (a b : val) : bool :=
  match a, b with
  | None_, None_ => true
  | Str s, Str t => String.eqb s t
  | _, _ =>
      match as_num a, as_num b with
      | Some x, Some y => num_eq x y
      | _, _ => false
      end
  end.

(** [int] to [float], rounded to nearest even as CPython does; beyond the
    binary64 range the result is an infinity (CPython raises
    [OverflowError] there, see [float_overflows]). *)
Definition float_of_int (z : Z) : float :=
  SF2Prim (binary_normalize prec emax z 0 false).

Definition float_overflows (z : Z) : bool :=
  match Prim2SF (float_of_int z) with
  | S754_infinity _ => true
  | _ => false
  end.

(** [h + m/60.0], the expression every handler uses for a derived hour. *)
Definition hour_float (h m : Z) : float :=
  PrimFloat.add (float_of_int h)
                (PrimFloat.div (float_of_int m) (float_of_int 60)).

End Py.

(* ===================================================================== *)
(** * Data model *)
(* ===================================================================== *)

(** ['%02d' % n] for the two fields of [strftime('%H:%M')]. *)
Definition digit (n : nat) : ascii := ascii_of_nat (48 + n mod 10).

Definition two_digits (n : nat) : string :=
  String (digit (n / 10)) (String (digit n) EmptyString).

Definition strftime_HM (h m : nat) : string :=
  two_digits h ++ ":" ++ two_digits m.

Definition weekdays : list string :=
  ["Monday"; "Tuesday"; "Wednesday"; "Thursday"; "Friday"; "Saturday"; "Sunday"].

Definition ordinals : list string :=
  ["First"; "Second"; "Third"; "Fourth"; "Fifth"].

Module Recurring.

(** A validated CSV row of [upload_recurring_merge] before it gets its
    ['id'] key: the dictionary appended to [new_rows]. *)
Record row : Type := {
  agency_number : string;
  account_name : string;
  area : string;
  min_weight : Py.val;
  max_weight : Py.val;
  day : string;
  frequency : string;
  start_hour : float;
  end_hour : float;
  start_time_str : string;
  end_time_str : string
}.

(** A stored recurring definition: the same dictionary with ['id']. *)
Record appt : Type := { id : string; fields : row }.

(** All non-identifier fields compare equal under Python's [==]. *)
Definition fields_equal (a b : row) : bool :=
  String.eqb (agency_number a) (agency_number b)
  && String.eqb (account_name a) (account_name b)
  && String.eqb (area a) (area b)
  && Py.eq (min_weight a) (min_weight b)
  && Py.eq (max_weight a) (max_weight b)
  && String.eqb (day a) (day b)
  && String.eqb (frequency a) (frequency b)
  && PrimFloat.eqb (start_hour a) (start_hour b)
  && PrimFloat.eqb (end_hour a) (end_hour b)
  && String.eqb (start_time_str a) (start_time_str b)
  && String.eqb (end_time_str a) (end_time_str b).

End Recurring.

Module Specific.

(** A stored specific-date definition. *)
Record appt : Type := {
  id : string;
  agency_number : string;
  account_name : string;
  area : string;
  min_weight : Py.val;
  max_weight : Py.val;
  start_time : string;
  end_time : string;
  start_hour : float
}.

End Specific.

(* ===================================================================== *)
(** * Collaborators *)
(* ===================================================================== *)

(** What the handlers ask of Python's standard library and pandas.
    [uuid4 n] is the result of the n-th call of [uuid.uuid4()]; [py_int] and
    [py_float] are [int(s)] and [float(s)] ([None] when they raise
    [ValueError]); [strptime_HM] is [pd.to_datetime(s, format='%H:%M')],
    giving the hour and minute of the timestamp. *)
Record collaborators : Type := {
  uuid4 : nat -> string;
  py_int : string -> option Z;
  py_float : string -> option float;
  strptime_HM : string -> option (nat * nat)
}.

(** The two facts about the parsers that the proofs use: both read the text
    that [strftime('%H:%M')] writes. *)
Record parsers_read_HM (E : collaborators) : Prop := {
  py_int_two_digits : forall n, n < 100 -> py_int E (two_digits n) = Some (Z.of_nat n);
  strptime_strftime : forall h m, h < 24 -> m < 60 ->
    strptime_HM E (strftime_HM h m) = Some (h, m)
}.

(** [pd.to_datetime(cell)] on a CSV cell: a timestamp (only its hour and
    minute are read), [NaT] for a blank cell, or an exception. *)
Inductive to_datetime : Type :=
| Timestamp (hour minute : nat) (in_range : Nat.ltb hour 24 && Nat.ltb minute 60 = true)
| NaT
| Raises.

(** [dt.hour + dt.minute/60.0]; the fields of [NaT] are [nan]. *)
Definition dt_hour_float (d : to_datetime) : option float :=
  match d with
  | Timestamp h m _ => Some (Py.hour_float (Z.of_nat h) (Z.of_nat m))
  | NaT => Some nan
  | Raises => None
  end.

(** [dt.strftime('%H:%M')]; [NaT] raises. *)
Definition dt_strftime (d : to_datetime) : option string :=
  match d with
  | Timestamp h m _ => Some (strftime_HM h m)
  | NaT | Raises => None
  end.

(** [s.split(c)] *)
Fixpoint split_on (c : ascii) (s : string) : list string :=
  match s with
  | EmptyString => [EmptyString]
  | String a rest =>
      if Ascii.eqb a c then EmptyString :: split_on c rest
      else match split_on c rest with
           | p :: ps => String a p :: ps
           | [] => [String a EmptyString]
           end
  end.

(** [s.rsplit(c, 1)] when it has two parts. *)
Fixpoint rsplit_last (c : ascii) (s : string) : option (string * string) :=
  match s with
  | EmptyString => None
  | String a rest =>
      match rsplit_last c rest with
      | Some (l, r) => Some (String a l, r)
      | None => if Ascii.eqb a c then Some (EmptyString, rest) else None
      end
  end.

(* ===================================================================== *)
(** * Definition validator: the CSV loops and the two single-record routes *)
(* ===================================================================== *)

Module Validate.
Import Recurring.

(** A row of the recurring CSV as the loops read it: the text cells after
    [str(...)] (and [.strip()] for Day and Frequency), the weight cells as
    they are, the time cells through [pd.to_datetime]. *)
Record csv_row : Type := {
  Agency_Number : string;
  Account_Name : string;
  Area : string;
  Minimum_Weight : Py.val;
  Maximum_Weight : Py.val;
  Day : string;
  Frequency : string;
  Start_Time : to_datetime;
  End_Time : to_datetime
}.

(** The flashed message of [recurring_upload], with its [Row {idx+2}]. *)
Inductive row_error : Type :=
| InvalidDay (rownum : nat) (d : string)
| InvalidFrequency (rownum : nat) (f : string)
| CannotParseTime (rownum : nat)
| EndNotAfterStart (rownum : nat).

(** The body of the [try] blocks of lines 1361-1367. *)
Definition parse_times (c : csv_row) : option (float * float * string * string) :=
  match dt_hour_float (Start_Time c), dt_hour_float (End_Time c),
        dt_strftime (Start_Time c), dt_strftime (End_Time c) with
  | Some sh, Some eh, Some st, Some et => Some (sh, eh, st, et)
  | _, _, _, _ => None
  end.

(** One iteration of the loop of [recurring_upload] (lines 1341-1387),
    without the identifier. *)
Definition check_row (idx : nat) (c : csv_row) : row_error + row :=
  if bool_decide (Day c ∉ weekdays) then inl (InvalidDay (idx + 2) (Day c))
  else if bool_decide (Frequency c ∉ ordinals) then
    inl (InvalidFrequency (idx + 2) (Frequency c))
  else match parse_times c with
       | None => inl (CannotParseTime (idx + 2))
       | Some (sh, eh, st, et) =>
           if negb (PrimFloat.ltb sh eh) then inl (EndNotAfterStart (idx + 2))
           else inr {| agency_number := Agency_Number c;
                       account_name := Account_Name c;
                       area := Area c;
                       min_weight := Minimum_Weight c;
                       max_weight := Maximum_Weight c;
                       day := Day c; frequency := Frequency c;
                       start_hour := sh; end_hour := eh;
                       start_time_str := st; end_time_str := et |}
       end.

(** [for idx, row in df.iterrows()] of [recurring_upload]: the first
    failing row flashes its message and returns. *)
Fixpoint recurring_upload_rows (E : collaborators) (n idx : nat)
    (rows : list csv_row) : row_error + list appt :=
  match rows with
  | [] => inr []
  | c :: rest =>
      match check_row idx c with
      | inl e => inl e
      | inr r =>
          match recurring_upload_rows E (S n) (S idx) rest with
          | inl e => inl e
          | inr defs => inr ({| id := uuid4 E n; fields := r |} :: defs)
          end
      end
  end.

(** One iteration of the loop of [upload_recurring_merge] (lines
    1489-1516): every failure inside the [try] raises. *)
Definition merge_check_row (c : csv_row) : option row :=
  if bool_decide (Day c ∉ weekdays) || bool_decide (Frequency c ∉ ordinals) then None
  else match dt_hour_float (Start_Time c), dt_hour_float (End_Time c) with
       | Some sh, Some eh =>
           if negb (PrimFloat.ltb sh eh) then None
           else match dt_strftime (Start_Time c), dt_strftime (End_Time c) with
                | Some st, Some et =>
                    Some {| agency_number := Agency_Number c;
                            account_name := Account_Name c;
                            area := Area c;
                            min_weight := Minimum_Weight c;
                            max_weight := Maximum_Weight c;
                            day := Day c; frequency := Frequency c;
                            start_hour := sh; end_hour := eh;
                            start_time_str := st; end_time_str := et |}
                | _, _ => None
                end
       | _, _ => None
       end.

(** The flashed ["Row {idx+2} invalid"]. *)
Inductive merge_error : Type := RowInvalid (rownum : nat).

Fixpoint merge_new_rows (idx : nat) (rows : list csv_row) : merge_error + list row :=
  match rows with
  | [] => inr []
  | c :: rest =>
      match merge_check_row c with
      | None => inl (RowInvalid (idx + 2))
      | Some r =>
          match merge_new_rows (S idx) rest with
          | inl e => inl e
          | inr rs => inr (r :: rs)
          end
      end
  end.

(** The form of [add_recurring_appointment], each field after [.strip()]. *)
Record form : Type := {
  f_agency_number : string;
  f_account_name : string;
  f_area : string;
  f_min_weight : string;
  f_max_weight : string;
  f_day : string;
  f_frequency : string;
  f_start_time : string;
  f_end_time : string
}.

Inductive form_error : Type :=
| AgencyRequired | AccountRequired | AreaRequired
| MinWeightNotNumber | MaxWeightNotNumber
| DayNotWeekday | FrequencyNotOrdinal
| StartTimeBad | EndTimeBad | EndNotAfter.

(** [float(raw) if raw else 0.0] *)
Definition weight_of (E : collaborators) (raw : string) : option float :=
  if String.eqb raw "" then Some 0%float else py_float E raw.

(** [h, m = map(int, raw.split(':'))] and [h + m/60.0]; any exception
    (empty text, not two parts, [int] failing, overflow) is caught. *)
Definition hour_of_text (E : collaborators) (raw : string) : option float :=
  if String.eqb raw "" then None
  else match split_on ":" raw with
       | [a; b] =>
           match py_int E a, py_int E b with
           | Some h, Some m =>
               if Py.float_overflows h || Py.float_overflows m then None
               else Some (Py.hour_float h m)
           | _, _ => None
           end
       | _ => None
       end.

Definition when (b : bool) (e : form_error) : list form_error :=
  if b then [e] else [].

(** The validation of [add_recurring_appointment] (lines 401-442): every
    check appends to [errors]. *)
Definition add_errors (E : collaborators) (f : form) : list form_error :=
  when (String.eqb (f_agency_number f) "") AgencyRequired
  ++ when (String.eqb (f_account_name f) "") AccountRequired
  ++ when (String.eqb (f_area f) "") AreaRequired
  ++ when (negb (bool_decide (is_Some (weight_of E (f_min_weight f))))) MinWeightNotNumber
  ++ when (negb (bool_decide (is_Some (weight_of E (f_max_weight f))))) MaxWeightNotNumber
  ++ when (bool_decide (f_day f ∉ weekdays)) DayNotWeekday
  ++ when (bool_decide (f_frequency f ∉ ordinals)) FrequencyNotOrdinal
  ++ when (negb (bool_decide (is_Some (hour_of_text E (f_start_time f))))) StartTimeBad
  ++ when (negb (bool_decide (is_Some (hour_of_text E (f_end_time f))))) EndTimeBad
  ++ match hour_of_text E (f_start_time f), hour_of_text E (f_end_time f) with
     | Some sh, Some eh => when (PrimFloat.leb eh sh) EndNotAfter
     | _, _ => []
     end.

(** [new_appt] of [add_recurring_appointment]. *)
Definition add_recurring (E : collaborators) (n : nat) (f : form)
    : list form_error + appt :=
  match add_errors E f,
        weight_of E (f_min_weight f), weight_of E (f_max_weight f),
        hour_of_text E (f_start_time f), hour_of_text E (f_end_time f) with
  | [], Some mn, Some mx, Some sh, Some eh =>
      inr {| id := uuid4 E n;
             fields := {| agency_number := f_agency_number f;
                          account_name := f_account_name f;
                          area := f_area f;
                          min_weight := Py.Float mn; max_weight := Py.Float mx;
                          day := f_day f; frequency := f_frequency f;
                          start_hour := sh; end_hour := eh;
                          start_time_str := f_start_time f;
                          end_time_str := f_end_time f |} |}
  | errs, _, _, _, _ => inl errs
  end.

(** The JSON body of [edit_recurring_appointment]: the text fields after
    [str(...).strip()], the weights as sent ([None_] when absent). *)
Record payload : Type := {
  p_id : string;
  p_agency_number : string;
  p_account_name : string;
  p_area : string;
  p_min_weight : Py.val;
  p_max_weight : Py.val;
  p_day : string;
  p_frequency : string;
  p_start_time_str : string;
  p_end_time_str : string
}.

Definition is_none (v : Py.val) : bool :=
  match v with Py.None_ => true | _ => false end.

(** The checks of lines 692-714; [None] is a 400 response. *)
Definition edit_fields (E : collaborators) (p : payload) : option row :=
  if String.eqb (p_agency_number p) "" || String.eqb (p_account_name p) ""
     || String.eqb (p_area p) ""
     || is_none (p_min_weight p) || is_none (p_max_weight p)
     || bool_decide (p_day p ∉ weekdays) || bool_decide (p_frequency p ∉ ordinals)
     || String.eqb (p_start_time_str p) "" || String.eqb (p_end_time_str p) ""
  then None
  else match strptime_HM E (p_start_time_str p), strptime_HM E (p_end_time_str p) with
       | Some (h, m), Some (h2, m2) =>
           let sh := Py.hour_float (Z.of_nat h) (Z.of_nat m) in
           let eh := Py.hour_float (Z.of_nat h2) (Z.of_nat m2) in
           if negb (PrimFloat.ltb sh eh) then None
           else Some {| agency_number := p_agency_number p;
                        account_name := p_account_name p;
                        area := p_area p;
                        min_weight := p_min_weight p;
                        max_weight := p_max_weight p;
                        day := p_day p; frequency := p_frequency p;
                        start_hour := sh; end_hour := eh;
                        start_time_str := p_start_time_str p;
                        end_time_str := p_end_time_str p |}
       | _, _ => None
       end.

(** [for appt in appointments_rec: if appt.get('id') == appt_id: ...
    appt.update({...}); break]: the first definition with the identifier
    is updated in place.  [None] when no definition has it (404). *)
Fixpoint update_first (appt_id : string) (r : row) (defs : list appt)
    : option (list appt) :=
  match defs with
  | [] => None
  | a :: rest =>
      if String.eqb (id a) appt_id then Some ({| id := id a; fields := r |} :: rest)
      else option_map (cons a) (update_first appt_id r rest)
  end.

(** A time cell of the specific-date CSV, read with [parse_dates]: null,
    a value on which [pd.to_datetime] raises, or a timestamp with its
    [isoformat()] text and its hour and minute. *)
Inductive time_cell : Type :=
| Null
| Unparsable
| Time (iso : string) (hour minute : nat).

Record specific_csv_row : Type := {
  sc_Agency_Number : string;
  sc_Account_Name : string;
  sc_Area : string;
  sc_Minimum_Weight : Py.val;
  sc_Maximum_Weight : Py.val;
  sc_Start_Time : time_cell;
  sc_End_Time : time_cell
}.

(** The loop of [upload_specific] (lines 936-958): a row with a null or
    unreadable time is skipped with [continue]; nothing is flashed. *)
Fixpoint upload_specific_rows (E : collaborators) (n : nat)
    (rows : list specific_csv_row) : list Specific.appt :=
  match rows with
  | [] => []
  | c :: rest =>
      match sc_Start_Time c, sc_End_Time c with
      | Time start_iso h m, Time end_iso _ _ =>
          {| Specific.id := uuid4 E n;
             Specific.agency_number := sc_Agency_Number c;
             Specific.account_name := sc_Account_Name c;
             Specific.area := sc_Area c;
             Specific.min_weight := sc_Minimum_Weight c;
             Specific.max_weight := sc_Maximum_Weight c;
             Specific.start_time := start_iso;
             Specific.end_time := end_iso;
             Specific.start_hour := Py.hour_float (Z.of_nat h) (Z.of_nat m) |}
          :: upload_specific_rows E (S n) rest
      | _, _ => upload_specific_rows E n rest
      end
  end.

(** A row of the specific CSV gives a definition exactly when both time
    cells are timestamps. *)
Definition has_times (c : specific_csv_row) : bool :=
  match sc_Start_Time c, sc_End_Time c with
  | Time _ _ _, Time _ _ _ => true
  | _, _ => false
  end.

End Validate.

(* ===================================================================== *)
(** * Merge reconciler: [upload_recurring_merge], lines 1518-1553 *)
(* ===================================================================== *)

Module Merge.
Import Recurring.

Definition key : Type :=
  string * string * string * string * string * string * string.

(** [_key(a)] *)
Definition _key (a : row) : key :=
  (agency_number a, account_name a, area a,
   day a, frequency a, start_time_str a, end_time_str a).

(** [existing_map = {_key(a): a for a in existing}]: a later definition
    with the same key overwrites an earlier one. *)
Definition existing_map (existing : list appt) : gmap key appt :=
  foldl (fun m a => <[_key (fields a) := a]> m) ∅ existing.

(** The loop state.  [next_uuid] counts the calls of [uuid.uuid4()]: the
    n-th call returns [uuid4 n], for a sequence [uuid4] given from outside. *)
Record state : Type := {
  processed_keys : gset key;
  replaced_ids : list string;
  merged : list appt;
  next_uuid : nat
}.

(** [identical = (ex.get('min_weight') == row['min_weight'] and
    ex.get('max_weight') == row['max_weight'])] *)
Definition identical (ex : appt) (r : row) : bool :=
  Py.eq (min_weight (fields ex)) (min_weight r)
  && Py.eq (max_weight (fields ex)) (max_weight r).

Definition init (n0 : nat) : state :=
  {| processed_keys := ∅; replaced_ids := []; merged := []; next_uuid := n0 |}.

(** One iteration of [for row in new_rows].  [if ex:] tests a dictionary,
    which is true for every stored definition (none is empty). *)
Definition merge_row (uuid4 : nat -> string) (emap : gmap key appt)
    (st : state) (r : row) : state :=
  let k := _key r in
  match emap !! k with
  | Some ex =>
      if identical ex r then
        {| processed_keys := {[k]} ∪ processed_keys st;
           replaced_ids := replaced_ids st;
           merged := merged st ++ [{| id := id ex; fields := r |}];
           next_uuid := next_uuid st |}
      else
        {| processed_keys := {[k]} ∪ processed_keys st;
           replaced_ids := replaced_ids st ++ [id ex];
           merged := merged st ++ [{| id := uuid4 (next_uuid st); fields := r |}];
           next_uuid := S (next_uuid st) |}
  | None =>
      {| processed_keys := processed_keys st;
         replaced_ids := replaced_ids st;
         merged := merged st ++ [{| id := uuid4 (next_uuid st); fields := r |}];
         next_uuid := S (next_uuid st) |}
  end.

(** The second loop: [for ex in existing: if _key(ex) not in processed_keys]. *)
Definition keep_unprocessed (processed : gset key) (existing : list appt) : list appt :=
  filter (fun ex => _key (fields ex) ∉ processed) existing.

(** Both loops. *)
Definition merge (uuid4 : nat -> string) (n0 : nat)
    (existing : list appt) (new_rows : list row) : state :=
  let st := foldl (merge_row uuid4 (existing_map existing)) (init n0) new_rows in
  {| processed_keys := processed_keys st;
     replaced_ids := replaced_ids st;
     merged := merged st ++ keep_unprocessed (processed_keys st) existing;
     next_uuid := next_uuid st |}.

(** [i] was drawn from [uuid4] between the states [st] and [st']. *)
Definition fresh_in (uuid4 : nat -> string) (st st' : state) (i : string) : Prop :=
  exists j, next_uuid st <= j < next_uuid st' /\ i = uuid4 j.

(** The natural keys and the identifiers of a list of definitions. *)
Definition keys_of (existing : list appt) : list key :=
  (fun a => _key (fields a)) <$> existing.

Definition ids_of (existing : list appt) : list string := id <$> existing.

End Merge.

(* ===================================================================== *)
(** * Pattern deriver: lines 1566-1575 (and its copies in every recurring
      write path) *)
(* ===================================================================== *)

Module Pattern.

(** [{'label': ..., 'frequency': ..., 'day': ...}] *)
Record t : Type := { label : string; frequency : string; day : string }.

Definition weekdays_order : list string := weekdays.
Definition ordinals_order : list string := ordinals.

(** [f"{appt['frequency']} {appt['day']}"] *)
Definition label_of (freq d : string) : string := freq ++ " " ++ d.

(** One iteration of [for appt in merged], on [(seen, patterns)]. *)
Definition see (st : gset string * list t) (a : Recurring.appt) : gset string * list t :=
  let freq := Recurring.frequency (Recurring.fields a) in
  let d := Recurring.day (Recurring.fields a) in
  let lbl := label_of freq d in
  if bool_decide (lbl ∈ st.1) then st
  else ({[lbl]} ∪ st.1, st.2 ++ [{| label := lbl; frequency := freq; day := d |}]).

Definition collect (defs : list Recurring.appt) : list t :=
  (foldl see (∅, []) defs).2.

(** [l.index(x)]; [None] stands for [ValueError]. *)
Fixpoint index (x : string) (l : list string) : option nat :=
  match l with
  | [] => None
  | y :: l' => if String.eqb y x then Some 0 else option_map S (index x l')
  end.

(** The sort key [(ordinals_order.index(p['frequency']),
    weekdays_order.index(p['day']))]. *)
Definition sort_key (p : t) : option (nat * nat) :=
  match index (frequency p) ordinals_order, index (day p) weekdays_order with
  | Some i, Some j => Some (i, j)
  | _, _ => None
  end.

(** Tuple comparison [a <= b]. *)
Definition key_le (a b : nat * nat) : bool :=
  Nat.ltb a.1 b.1 || (Nat.eqb a.1 b.1 && Nat.leb a.2 b.2).

(** [list.sort(key=...)] is stable: any stable sort computes the same
    list, here insertion from the right. *)
Fixpoint insert_sorted (x : (nat * nat) * t) (l : list ((nat * nat) * t))
    : list ((nat * nat) * t) :=
  match l with
  | [] => [x]
  | y :: l' => if key_le x.1 y.1 then x :: y :: l' else y :: insert_sorted x l'
  end.

Definition stable_sort (l : list ((nat * nat) * t)) : list ((nat * nat) * t) :=
  foldr insert_sorted [] l.

(** [patterns.sort(key=...)]: the keys are computed first, and a key that
    raises leaves no result. *)
Definition sort_patterns (l : list t) : option (list t) :=
  match mapM sort_key l with
  | Some keys => Some (stable_sort (zip keys l)).*2
  | None => None
  end.

Definition derive (defs : list Recurring.appt) : option (list t) :=
  sort_patterns (collect defs).

(** The pattern of a definition. *)
Definition pat_of (a : Recurring.appt) : t :=
  {| label := label_of (Recurring.frequency (Recurring.fields a))
                       (Recurring.day (Recurring.fields a));
     frequency := Recurring.frequency (Recurring.fields a);
     day := Recurring.day (Recurring.fields a) |}.

(** Day and frequency are members of the two enumerations. *)
Definition valid (a : Recurring.appt) : Prop :=
  Recurring.day (Recurring.fields a) ∈ weekdays
  /\ Recurring.frequency (Recurring.fields a) ∈ ordinals.

(** A pattern as the loop builds it from a valid definition. *)
Definition built (p : t) : Prop :=
  label p = label_of (frequency p) (day p)
  /\ frequency p ∈ ordinals /\ day p ∈ weekdays.

(** The state of the loop after the definitions [seen_defs]. *)
Definition collected (seen_defs : list Recurring.appt) (st : gset string * list t) : Prop :=
  (forall l, l ∈ st.1 <-> l ∈ label <$> st.2)
  /\ NoDup (label <$> st.2)
  /\ (forall p, p ∈ st.2 -> exists a, a ∈ seen_defs /\ p = pat_of a)
  /\ (forall a, a ∈ seen_defs -> label (pat_of a) ∈ label <$> st.2).

(** The order the sort works with, on (key, pattern) pairs. *)
Definition pair_le (x y : (nat * nat) * t) : Prop := key_le x.1 y.1 = true.

(** [p] comes no later than [q] in the order of the sort keys. *)
Definition key_order (p q : t) : Prop :=
  match sort_key p, sort_key q with
  | Some a, Some b => key_le a b = true
  | _, _ => False
  end.

End Pattern.

(* ===================================================================== *)
(** * Documents, the assignment map and the per-user state *)
(* ===================================================================== *)

(** [{date or pattern label: {slot key: [id, ...]}}], in the order of the
    JSON object. *)
Definition slots : Type := list (string * list string).
Definition assignments : Type := list (string * slots).

(** What a [load_*_from_db] followed by [json.loads] gives: no text (no row,
    or the empty text), a text on which the handler's code raises, or the
    parsed value. *)
Inductive doc (A : Type) : Type :=
| Absent
| Malformed
| Parsed (x : A).
Arguments Absent {A}.
Arguments Malformed {A}.
Arguments Parsed {A} x.

Inductive table : Type :=
| specific_definitions | recurring_definitions
| specific_schedules | recurring_schedules.

(** [data_store[user_id]['recurring']] *)
Record recurring_cache : Type := {
  rc_appointments : list Recurring.appt;
  rc_patterns : list Pattern.t
}.

(** [data_store[user_id]], without ['config']. *)
Record user_store : Type := {
  us_appointments : option (list Specific.appt);
  us_recurring : option recurring_cache
}.

(** One user's four documents, the log of the [save_*_to_db] calls, and the
    user's entry in [data_store]. *)
Record state : Type := {
  specific_defs : doc (list Specific.appt);
  recurring_defs : doc (list Recurring.appt);
  specific_schedule : doc assignments;
  recurring_schedule : doc assignments;
  writes : list table;
  data_store : option user_store
}.

Inductive response : Type :=
| Success
| Error (status : nat) (message : string).

(* ===================================================================== *)
(** * Assignment store cleaner and the delete handlers *)
(* ===================================================================== *)

Module Cleaner.

(** [for slotKey, id_list in slots.items()]: a list that holds the
    identifier is rewritten in place and sets [modified]. *)
Fixpoint clean_slots (appt_id : string) (sl : slots) (modified : bool) : slots * bool :=
  match sl with
  | [] => ([], modified)
  | (slotKey, id_list) :: rest =>
      if bool_decide (appt_id ∈ id_list) then
        let '(rest', m) := clean_slots appt_id rest true in
        ((slotKey, filter (fun i => i ≠ appt_id) id_list) :: rest', m)
      else
        let '(rest', m) := clean_slots appt_id rest modified in
        ((slotKey, id_list) :: rest', m)
  end.

(** [for date_str, slots in assignments.items()] *)
Fixpoint clean (appt_id : string) (a : assignments) (modified : bool) : assignments * bool :=
  match a with
  | [] => ([], modified)
  | (date_str, sl) :: rest =>
      let '(sl', m) := clean_slots appt_id sl modified in
      let '(rest', m') := clean appt_id rest m in
      ((date_str, sl') :: rest', m')
  end.

Definition save_specific_schedule (a : assignments) (s : state) : state :=
  {| specific_defs := specific_defs s; recurring_defs := recurring_defs s;
     specific_schedule := Parsed a; recurring_schedule := recurring_schedule s;
     writes := writes s ++ [specific_schedules]; data_store := data_store s |}.

Definition save_recurring_schedule (a : assignments) (s : state) : state :=
  {| specific_defs := specific_defs s; recurring_defs := recurring_defs s;
     specific_schedule := specific_schedule s; recurring_schedule := Parsed a;
     writes := writes s ++ [recurring_schedules]; data_store := data_store s |}.

Definition save_specific_definitions (l : list Specific.appt) (s : state) : state :=
  {| specific_defs := Parsed l; recurring_defs := recurring_defs s;
     specific_schedule := specific_schedule s; recurring_schedule := recurring_schedule s;
     writes := writes s ++ [specific_definitions]; data_store := data_store s |}.

Definition save_recurring_definitions (l : list Recurring.appt) (s : state) : state :=
  {| specific_defs := specific_defs s; recurring_defs := Parsed l;
     specific_schedule := specific_schedule s; recurring_schedule := recurring_schedule s;
     writes := writes s ++ [recurring_definitions]; data_store := data_store s |}.

Definition set_data_store (d : option user_store) (s : state) : state :=
  {| specific_defs := specific_defs s; recurring_defs := recurring_defs s;
     specific_schedule := specific_schedule s; recurring_schedule := recurring_schedule s;
     writes := writes s; data_store := d |}.

(** Lines 636-650: the clean-up of the saved specific schedule. *)
Definition cleanup_specific (appt_id : string) (s : state) : state :=
  match specific_schedule s with
  | Parsed a =>
      let '(a', modified) := clean appt_id a false in
      if modified then save_specific_schedule a' s else s
  | Absent | Malformed => s
  end.

(** Lines 810-824. *)
Definition cleanup_recurring (appt_id : string) (s : state) : state :=
  match recurring_schedule s with
  | Parsed a =>
      let '(a', modified) := clean appt_id a false in
      if modified then save_recurring_schedule a' s else s
  | Absent | Malformed => s
  end.

(** [delete_specific_appointment], from line 613. *)
Definition delete_specific_appointment (appt_id : string) (s : state) : response * state :=
  match specific_defs s with
  | Absent => (Error 400 "No definitions found", s)
  | Malformed => (Error 500 "Failed to parse definitions", s)
  | Parsed appointments =>
      let new_apps := filter (fun a => Specific.id a ≠ appt_id) appointments in
      if Nat.eqb (length new_apps) (length appointments) then
        (Error 404 "Appointment ID not found", s)
      else
        let s1 := save_specific_definitions new_apps s in
        let s2 :=
          match data_store s1 with
          | Some {| us_appointments := Some cached; us_recurring := r |} =>
              set_data_store
                (Some {| us_appointments :=
                           Some (filter (fun a => Specific.id a ≠ appt_id) cached);
                         us_recurring := r |}) s1
          | _ => s1
          end in
        (Success, cleanup_specific appt_id s2)
  end.

(** [delete_recurring_appointment], from line 776.  The patterns of the
    cached entry are recomputed between the write of the definitions and
    the clean-up; when that computation raises, the request ends there. *)
Definition delete_recurring_appointment (appt_id : string) (s : state) : response * state :=
  match recurring_defs s with
  | Absent => (Error 400 "No definitions found", s)
  | Malformed => (Error 500 "Failed to parse definitions", s)
  | Parsed appointments_rec =>
      let new_apps := filter (fun a => Recurring.id a ≠ appt_id) appointments_rec in
      if Nat.eqb (length new_apps) (length appointments_rec) then
        (Error 404 "Appointment ID not found", s)
      else
        let s1 := save_recurring_definitions new_apps s in
        match data_store s1 with
        | Some {| us_appointments := a; us_recurring := Some rc |} =>
            match Pattern.derive new_apps with
            | Some patterns_new =>
                let s2 := set_data_store
                  (Some {| us_appointments := a;
                           us_recurring := Some {| rc_appointments := new_apps;
                                                   rc_patterns := patterns_new |} |}) s1 in
                (Success, cleanup_recurring appt_id s2)
            | None =>
                (Error 500 "Internal Server Error",
                 set_data_store
                   (Some {| us_appointments := a;
                            us_recurring := Some {| rc_appointments := new_apps;
                                                    rc_patterns := rc_patterns rc |} |}) s1)
            end
        | _ => (Success, cleanup_recurring appt_id s1)
        end
  end.

(** Every identifier of every slot sequence, in reading order. *)
Definition ids_of (a : assignments) : list string :=
  flat_map (fun d => flat_map snd d.2) a.

(** The cleaner as the specification words it: the same dates (or pattern
    labels) and slot keys, each sequence without the identifier and
    otherwise in its order. *)
Definition purge_slots (appt_id : string) (sl : slots) : slots :=
  (fun kv => (kv.1, filter (fun i => i ≠ appt_id) kv.2)) <$> sl.

Definition purge (appt_id : string) (a : assignments) : assignments :=
  (fun d => (d.1, purge_slots appt_id d.2)) <$> a.

(** What the clean-up leaves in a schedule document, and what the request
    wrote after the definitions. *)
Definition cleaned (appt_id : string) (before after : doc assignments)
    (written : list table) (schedule_table : table) : Prop :=
  match before with
  | Parsed a =>
      after = Parsed (purge appt_id a)
      /\ (appt_id ∉ ids_of (purge appt_id a))
      /\ written = if bool_decide (appt_id ∈ ids_of a) then [schedule_table] else []
  | _ => after = before /\ written = []
  end.

End Cleaner.

(* ===================================================================== *)
(** * Export: [download_schedule] and [download_recurring_schedule] *)
(* ===================================================================== *)

Module Download.

(** [parts = slot_key.rsplit('_', 1)] and the branch on [len(parts)]. *)
Definition truck_and_slot (slot_key : string) : string * string :=
  match rsplit_last "_" slot_key with
  | Some (truck_name, slot_label) => (truck_name, slot_label)
  | None => (slot_key, "")
  end.

(** A row of [scheduled_routes.csv]. *)
Record specific_row : Type := {
  s_Date : string;
  s_Truck_Name : string;
  s_Slot : string;
  s_Agency_Number : string;
  s_Account_Name : string;
  s_Area : string;
  s_Minimum_Weight : Py.val;
  s_Maximum_Weight : Py.val;
  s_Start_Time : string;
  s_End_Time : string
}.

(** A row of [recurring_schedule.csv]. *)
Record recurring_row : Type := {
  r_Pattern : string;
  r_Frequency : string;
  r_Day : string;
  r_Truck_Name : string;
  r_Slot : string;
  r_Agency_Number : string;
  r_Account_Name : string;
  r_Area : string;
  r_Minimum_Weight : Py.val;
  r_Maximum_Weight : Py.val;
  r_Start_Time : string;
  r_End_Time : string
}.

(** A download ends in a flashed message and a redirect, or in the file. *)
Inductive download (R : Type) : Type :=
| Redirect (flashed : string)
| Csv (rows : list R).
Arguments Redirect {R} flashed.
Arguments Csv {R} rows.

(** [appt_lookup = {appt['id']: appt for appt in appointments}] *)
Definition specific_lookup (l : list Specific.appt) : gmap string Specific.appt :=
  foldl (fun m a => <[Specific.id a := a]> m) ∅ l.

Definition recurring_lookup (l : list Recurring.appt) : gmap string Recurring.appt :=
  foldl (fun m a => <[Recurring.id a := a]> m) ∅ l.

(** [pattern_map = {p['label']: p for p in patterns}] *)
Definition pattern_map (l : list Pattern.t) : gmap string Pattern.t :=
  foldl (fun m p => <[Pattern.label p := p]> m) ∅ l.

Definition specific_out (date_str slot_key : string) (a : Specific.appt) : specific_row :=
  {| s_Date := date_str;
     s_Truck_Name := (truck_and_slot slot_key).1;
     s_Slot := (truck_and_slot slot_key).2;
     s_Agency_Number := Specific.agency_number a;
     s_Account_Name := Specific.account_name a;
     s_Area := Specific.area a;
     s_Minimum_Weight := Specific.min_weight a;
     s_Maximum_Weight := Specific.max_weight a;
     s_Start_Time := Specific.start_time a;
     s_End_Time := Specific.end_time a |}.

Definition recurring_out (pat : Pattern.t) (pattern_label slot_key : string)
    (a : Recurring.appt) : recurring_row :=
  {| r_Pattern := pattern_label;
     r_Frequency := Pattern.frequency pat;
     r_Day := Pattern.day pat;
     r_Truck_Name := (truck_and_slot slot_key).1;
     r_Slot := (truck_and_slot slot_key).2;
     r_Agency_Number := Recurring.agency_number (Recurring.fields a);
     r_Account_Name := Recurring.account_name (Recurring.fields a);
     r_Area := Recurring.area (Recurring.fields a);
     r_Minimum_Weight := Recurring.min_weight (Recurring.fields a);
     r_Maximum_Weight := Recurring.max_weight (Recurring.fields a);
     r_Start_Time := Recurring.start_time_str (Recurring.fields a);
     r_End_Time := Recurring.end_time_str (Recurring.fields a) |}.

(** The three nested loops of [download_schedule] (lines 1252-1280), each
    appending to [out_rows]. *)
Definition specific_ids_loop (lookup : gmap string Specific.appt)
    (date_str slot_key : string) (out_rows : list specific_row) (appt_ids : list string)
    : list specific_row :=
  foldl (fun out aid =>
           match lookup !! aid with
           | Some a => out ++ [specific_out date_str slot_key a]
           | None => out
           end) out_rows appt_ids.

Definition specific_slots_loop (lookup : gmap string Specific.appt)
    (date_str : string) (out_rows : list specific_row) (slots_dict : slots)
    : list specific_row :=
  foldl (fun out kv => specific_ids_loop lookup date_str kv.1 out kv.2)
        out_rows slots_dict.

Definition specific_rows (lookup : gmap string Specific.appt) (a : assignments)
    : list specific_row :=
  foldl (fun out kv => specific_slots_loop lookup kv.1 out kv.2) [] a.

(** [download_schedule] *)
Definition download_schedule (s : state) : download specific_row :=
  match specific_defs s with
  | Absent => Redirect "No appointment definitions found. Please upload first."
  | Malformed => Redirect "Failed to load appointment definitions."
  | Parsed appointments =>
      match specific_schedule s with
      | Absent => Redirect "No saved schedule found. Please arrange and click Save first."
      | Malformed => Redirect "Failed to load saved schedule."
      | Parsed a =>
          match specific_rows (specific_lookup appointments) a with
          | [] => Redirect "No appointments scheduled to download."
          | out_rows => Csv out_rows
          end
      end
  end.

(** The loops of [download_recurring_schedule] (lines 1726-1761). *)
Definition recurring_ids_loop (lookup : gmap string Recurring.appt) (pat : Pattern.t)
    (pattern_label slot_key : string) (out_rows : list recurring_row)
    (appt_ids : list string) : list recurring_row :=
  foldl (fun out aid =>
           match lookup !! aid with
           | Some a => out ++ [recurring_out pat pattern_label slot_key a]
           | None => out
           end) out_rows appt_ids.

Definition recurring_slots_loop (lookup : gmap string Recurring.appt) (pat : Pattern.t)
    (pattern_label : string) (out_rows : list recurring_row) (slots_dict : slots)
    : list recurring_row :=
  foldl (fun out kv => recurring_ids_loop lookup pat pattern_label kv.1 out kv.2)
        out_rows slots_dict.

Definition recurring_rows (lookup : gmap string Recurring.appt)
    (pmap : gmap string Pattern.t) (a : assignments) : list recurring_row :=
  foldl (fun out kv =>
           match pmap !! kv.1 with
           | Some pat => recurring_slots_loop lookup pat kv.1 out kv.2
           | None => out
           end) [] a.

(** [download_recurring_schedule]; [None] is the uncaught [ValueError] of
    the pattern sort. *)
Definition download_recurring_schedule (s : state) : option (download recurring_row) :=
  match recurring_defs s with
  | Absent => Some (Redirect "No recurring definitions found; please upload first.")
  | Malformed => Some (Redirect "Failed to load recurring definitions.")
  | Parsed appointments_rec =>
      match Pattern.derive appointments_rec with
      | None => None
      | Some patterns =>
          match recurring_schedule s with
          | Absent =>
              Some (Redirect "No saved recurring schedule found. Please assign and Save first.")
          | Malformed => Some (Redirect "Failed to load saved recurring schedule.")
          | Parsed a =>
              match recurring_rows (recurring_lookup appointments_rec)
                                   (pattern_map patterns) a with
              | [] => Some (Redirect "No recurring assignments to download.")
              | out_rows => Some (Csv out_rows)
              end
          end
      end
  end.

(** The (group, slot, id) occurrences of an assignment map, in reading
    order. *)
Definition pairs (a : assignments) : list (string * string * string) :=
  flat_map (fun d => flat_map (fun sl => map (fun aid => (d.1, sl.1, aid)) sl.2) d.2) a.

(** The row of one occurrence, when its identifier is that of a stored
    definition (and, for the recurring file, its group label that of a
    derived pattern). *)
Definition resolve_specific (lookup : gmap string Specific.appt)
    (p : string * string * string) : option specific_row :=
  specific_out p.1.1 p.1.2 <$> lookup !! p.2.

Definition resolve_recurring (lookup : gmap string Recurring.appt)
    (pmap : gmap string Pattern.t) (p : string * string * string)
    : option recurring_row :=
  match pmap !! p.1.1, lookup !! p.2 with
  | Some pat, Some a => Some (recurring_out pat p.1.1 p.1.2 a)
  | _, _ => None
  end.

End Download.

(* ===================================================================== *)
(** * The stored recurring definitions a user can reach *)
(* ===================================================================== *)

Module Reach.
Import Recurring.

(** The content of the recurring-definitions document after any sequence
    of requests.  It starts empty; [recurring_upload] overwrites it,
    [add_recurring_appointment] appends, [edit_recurring_appointment]
    updates one definition, [delete_recurring_appointment] filters, and
    [upload_recurring_merge] stores the merged list.  No other code writes
    the document. *)
Inductive reachable (E : collaborators) : list appt -> Prop :=
| reach_empty : reachable E []
| reach_upload n rows defs :
    Validate.recurring_upload_rows E n 0 rows = inr defs ->
    reachable E defs
| reach_add l n f a :
    reachable E l ->
    Validate.add_recurring E n f = inr a ->
    reachable E (l ++ [a])
| reach_edit l p r l' :
    reachable E l ->
    Validate.edit_fields E p = Some r ->
    Validate.update_first (Validate.p_id p) r l = Some l' ->
    reachable E l'
| reach_delete l appt_id :
    reachable E l ->
    reachable E (filter (fun a => id a ≠ appt_id) l)
| reach_merge l n rows new_rows :
    reachable E l ->
    Validate.merge_new_rows 0 rows = inr new_rows ->
    reachable E (Merge.merged (Merge.merge (uuid4 E) n l new_rows)).

(** A definition's derived hours are those of its time texts: whenever a
    time text is what [strftime('%H:%M')] writes for [h:m], the hour field
    is [h + m/60.0]. *)
Definition hours_derived (r : row) : Prop :=
  (forall h m, h < 24 -> m < 60 ->
     start_time_str r = strftime_HM h m ->
     start_hour r = Py.hour_float (Z.of_nat h) (Z.of_nat m))
  /\ (forall h m, h < 24 -> m < 60 ->
     end_time_str r = strftime_HM h m ->
     end_hour r = Py.hour_float (Z.of_nat h) (Z.of_nat m)).

(** A row as the CSV loops build it: both time texts are written by
    [strftime] from the timestamps the hours are computed from. *)
Definition canonical (r : row) : Prop :=
  exists h m h2 m2,
    h < 24 /\ m < 60 /\ h2 < 24 /\ m2 < 60 /\
    start_time_str r = strftime_HM h m /\
    start_hour r = Py.hour_float (Z.of_nat h) (Z.of_nat m) /\
    end_time_str r = strftime_HM h2 m2 /\
    end_hour r = Py.hour_float (Z.of_nat h2) (Z.of_nat m2).

(** The rows [upload_recurring_merge] builds from a CSV. *)
Definition validated (new_rows : list row) : Prop :=
  exists rows, Validate.merge_new_rows 0 rows = inr new_rows.

End Reach.

Module Examples.
Import Recurring.

(** A sequence of distinct identifiers standing for [uuid.uuid4()]. *)
Fixpoint xs (n : nat) : string :=
  match n with
  | O => EmptyString
  | S n => String "x" (xs n)
  end.

Definition uuids (n : nat) : string := "uuid-" ++ xs n.

(** Decimal digits, read as [int] reads them. *)
Fixpoint digits_value (acc : Z) (s : string) : option Z :=
  match s with
  | EmptyString => Some acc
  | String c rest =>
      let n := nat_of_ascii c in
      if Nat.leb 48 n && Nat.leb n 57
      then digits_value (10 * acc + Z.of_nat (n - 48)) rest
      else None
  end.

Definition int_of_digits (s : string) : option Z :=
  match s with
  | EmptyString => None
  | _ => digits_value 0 s
  end.

Definition time_of_text (s : string) : option (nat * nat) :=
  match split_on ":" s with
  | [a; b] =>
      match int_of_digits a, int_of_digits b with
      | Some h, Some m =>
          if (h <? 24)%Z && (m <? 60)%Z then Some (Z.to_nat h, Z.to_nat m) else None
      | _, _ => None
      end
  | _ => None
  end.

(** Collaborators that read plain decimal text. *)
Definition plain : collaborators :=
  {| uuid4 := uuids;
     py_int := int_of_digits;
     py_float := fun s => Py.float_of_int <$> int_of_digits s;
     strptime_HM := time_of_text |}.

Definition at_9_00 : to_datetime := Timestamp 9 0 eq_refl.
Definition at_10_30 : to_datetime := Timestamp 10 30 eq_refl.
Definition at_11_00 : to_datetime := Timestamp 11 0 eq_refl.
Definition at_12_15 : to_datetime := Timestamp 12 15 eq_refl.

(** Three CSV rows; the first takes its maximum weight as a parameter. *)
Definition csvA (w : Py.val) : Validate.csv_row :=
  {| Validate.Agency_Number := "A1"; Validate.Account_Name := "Acme";
     Validate.Area := "North";
     Validate.Minimum_Weight := Py.Int 10; Validate.Maximum_Weight := w;
     Validate.Day := "Monday"; Validate.Frequency := "First";
     Validate.Start_Time := at_9_00; Validate.End_Time := at_10_30 |}.

Definition csvB : Validate.csv_row :=
  {| Validate.Agency_Number := "B2"; Validate.Account_Name := "Bolt";
     Validate.Area := "South";
     Validate.Minimum_Weight := Py.Int 5; Validate.Maximum_Weight := Py.Int 50;
     Validate.Day := "Tuesday"; Validate.Frequency := "Second";
     Validate.Start_Time := at_11_00; Validate.End_Time := at_12_15 |}.

Definition csvC : Validate.csv_row :=
  {| Validate.Agency_Number := "C3"; Validate.Account_Name := "Crate";
     Validate.Area := "East";
     Validate.Minimum_Weight := Py.Int 1; Validate.Maximum_Weight := Py.Int 20;
     Validate.Day := "Friday"; Validate.Frequency := "Third";
     Validate.Start_Time := at_9_00; Validate.End_Time := at_11_00 |}.

(** The rows the loops build from them. *)
Definition rowA (w : Py.val) : row :=
  {| agency_number := "A1"; account_name := "Acme"; area := "North";
     min_weight := Py.Int 10; max_weight := w;
     day := "Monday"; frequency := "First";
     start_hour := Py.hour_float 9 0; end_hour := Py.hour_float 10 30;
     start_time_str := strftime_HM 9 0; end_time_str := strftime_HM 10 30 |}.

Definition rowB : row :=
  {| agency_number := "B2"; account_name := "Bolt"; area := "South";
     min_weight := Py.Int 5; max_weight := Py.Int 50;
     day := "Tuesday"; frequency := "Second";
     start_hour := Py.hour_float 11 0; end_hour := Py.hour_float 12 15;
     start_time_str := strftime_HM 11 0; end_time_str := strftime_HM 12 15 |}.

Definition rowC : row :=
  {| agency_number := "C3"; account_name := "Crate"; area := "East";
     min_weight := Py.Int 1; max_weight := Py.Int 20;
     day := "Friday"; frequency := "Third";
     start_hour := Py.hour_float 9 0; end_hour := Py.hour_float 11 0;
     start_time_str := strftime_HM 9 0; end_time_str := strftime_HM 11 0 |}.

(** The document after [recurring_upload] of the rows A (maximum weight
    100) and B. *)
Definition stored : list appt :=
  [ {| id := uuids 0; fields := rowA (Py.Int 100) |};
    {| id := uuids 1; fields := rowB |} ].

(** The document after [recurring_upload] of the row A with a blank
    maximum weight. *)
Definition stored_blank : list appt :=
  [ {| id := uuids 0; fields := rowA (Py.Float nan) |} ].

Definition with_pattern (freq d : string) (i : string) : appt :=
  {| id := i;
     fields := {| agency_number := "A1"; account_name := "Acme"; area := "North";
                  min_weight := Py.Int 10; max_weight := Py.Int 100;
                  day := d; frequency := freq;
                  start_hour := Py.hour_float 9 0; end_hour := Py.hour_float 10 30;
                  start_time_str := strftime_HM 9 0;
                  end_time_str := strftime_HM 10 30 |} |}.

(** Definitions with the labels "Third Friday", "First Monday",
    "First Monday", "Second Monday", in this order. *)
Definition four_defs : list appt :=
  [ with_pattern "Third" "Friday" "d1"; with_pattern "First" "Monday" "d2";
    with_pattern "First" "Monday" "d3"; with_pattern "Second" "Monday" "d4" ].

(** Two rows that each fail a check of [recurring_upload]. *)
Definition bad_day : Validate.csv_row :=
  {| Validate.Agency_Number := "A1"; Validate.Account_Name := "Acme";
     Validate.Area := "North";
     Validate.Minimum_Weight := Py.Int 10; Validate.Maximum_Weight := Py.Int 100;
     Validate.Day := "Funday"; Validate.Frequency := "First";
     Validate.Start_Time := at_9_00; Validate.End_Time := at_10_30 |}.

Definition bad_frequency : Validate.csv_row :=
  {| Validate.Agency_Number := "B2"; Validate.Account_Name := "Bolt";
     Validate.Area := "South";
     Validate.Minimum_Weight := Py.Int 5; Validate.Maximum_Weight := Py.Int 50;
     Validate.Day := "Tuesday"; Validate.Frequency := "Sixth";
     Validate.Start_Time := at_11_00; Validate.End_Time := at_12_15 |}.

Definition specific_csv (st et : Validate.time_cell) : Validate.specific_csv_row :=
  {| Validate.sc_Agency_Number := "A1"; Validate.sc_Account_Name := "Acme";
     Validate.sc_Area := "North";
     Validate.sc_Minimum_Weight := Py.Int 10; Validate.sc_Maximum_Weight := Py.Int 100;
     Validate.sc_Start_Time := st; Validate.sc_End_Time := et |}.

Definition one_specific : Specific.appt :=
  {| Specific.id := "s1"; Specific.agency_number := "A1";
     Specific.account_name := "Acme"; Specific.area := "North";
     Specific.min_weight := Py.Int 10; Specific.max_weight := Py.Int 100;
     Specific.start_time := "2024-01-01T09:00:00";
     Specific.end_time := "2024-01-01T10:30:00";
     Specific.start_hour := Py.hour_float 9 0 |}.

(** A state with one specific and two recurring definitions, whose saved
    assignments name them and an identifier [ghost] that no definition
    has. *)
Definition busy : state :=
  {| specific_defs := Parsed [one_specific];
     recurring_defs := Parsed stored;
     specific_schedule :=
       Parsed [ ("2024-01-01", [ ("Trailer 1_A", ["s1"; "ghost"; "s1"]);
                                 ("Trailer 2_B", ["ghost"]) ]);
                ("2024-01-02", [ ("Straight 1_A", []) ]) ];
     recurring_schedule :=
       Parsed [ ("First Monday", [ ("Trailer 1_A", [uuids 1; uuids 0; "ghost"]) ]);
                ("Fifth Sunday", [ ("Trailer 1_B", [uuids 0]) ]) ];
     writes := [];
     data_store := Some {| us_appointments := Some [one_specific];
                           us_recurring := None |} |}.

(** A state whose saved specific schedule names only the identifier
    [ghost]. *)
Definition stale : state :=
  {| specific_defs := Parsed [one_specific];
     recurring_defs := Absent;
     specific_schedule := Parsed [ ("2024-01-01", [ ("Trailer 1_A", ["ghost"]) ]) ];
     recurring_schedule := Absent;
     writes := [];
     data_store := None |}.

End Examples.

(* ===================================================================== *)
(** * Whole requests: uploads, single-record routes, pages and saves *)
(* ===================================================================== *)

Module Requests.
Import Recurring.

(** The text of a flashed message; the two bulk loops put the row number
    (and the offending cell) into theirs. *)
Inductive message : Type :=
| Text (s : string)
| RowMessage (e : Validate.row_error)
| MergeRowMessage (e : Validate.merge_error).

(** How a form request ends: [flash(msg, category)] and
    [redirect(url_for(endpoint))], or an exception nothing catches (a 500
    response). *)
Inductive outcome : Type :=
| Flash (category : string) (msg : message) (endpoint : string)
| Raised.

(** [data_store[user_id] = {'recurring': {'appointments': ..., 'patterns':
    ...}}]: the entry is replaced, so it has no ['appointments'] key. *)
Definition recurring_only (defs : list appt) (patterns : list Pattern.t)
    : option user_store :=
  Some {| us_appointments := None;
          us_recurring := Some {| rc_appointments := defs; rc_patterns := patterns |} |}.

(** [data_store[user_id] = {'appointments': ..., 'config': {}}] *)
Definition specific_only (appointments : list Specific.appt) : option user_store :=
  Some {| us_appointments := Some appointments; us_recurring := None |}.

(** [store is None or 'appointments' not in store], negated. *)
Definition has_appointments (d : option user_store) : bool :=
  match d with
  | Some {| us_appointments := Some _ |} => true
  | _ => false
  end.

(** [store is None or 'recurring' not in store], negated. *)
Definition has_recurring (d : option user_store) : bool :=
  match d with
  | Some {| us_recurring := Some _ |} => true
  | _ => false
  end.

(** [recurring_upload], POST with a readable CSV that has the required
    columns (lines 1338-1415). *)
Definition recurring_upload (E : collaborators) (n0 : nat)
    (rows : list Validate.csv_row) (s : state) : outcome * state :=
  match Validate.recurring_upload_rows E n0 0 rows with
  | inl e => (Flash "error" (RowMessage e) "recurring_upload", s)
  | inr [] =>
      (Flash "error" (Text "No valid recurring definitions found in CSV.")
             "recurring_upload", s)
  | inr appointments_rec =>
      let s1 := Cleaner.save_recurring_definitions appointments_rec s in
      match Pattern.derive appointments_rec with
      | None => (Raised, s1)
      | Some patterns =>
          (Flash "info"
             (Text "Recurring upload successful; definitions saved. Now assign patterns.")
             "recurring_schedule",
           Cleaner.set_data_store (recurring_only appointments_rec patterns) s1)
      end
  end.

(** [use_existing_recurring] *)
Definition use_existing_recurring (s : state) : outcome * state :=
  match recurring_defs s with
  | Absent =>
      (Flash "error" (Text "No existing recurring upload found. Please upload a file.")
             "recurring_upload", s)
  | Malformed =>
      (Flash "error" (Text "Failed to load existing definitions; please upload again.")
             "recurring_upload", s)
  | Parsed appointments_rec =>
      match Pattern.derive appointments_rec with
      | None => (Raised, s)
      | Some patterns =>
          (Flash "info"
             (Text "Loaded existing recurring definitions. You can continue assigning.")
             "recurring_schedule",
           Cleaner.set_data_store (recurring_only appointments_rec patterns) s)
      end
  end.

(** [use_existing_specific], lines 984-999: its message and its redirect
    are those of the recurring flow. *)
Definition use_existing_specific (s : state) : outcome * state :=
  match specific_defs s with
  | Absent =>
      (Flash "error" (Text "No existing upload found. Please upload a file.")
             "upload_specific", s)
  | Malformed =>
      (Flash "error" (Text "Failed to load existing definitions; please upload again.")
             "upload_specific", s)
  | Parsed appointments =>
      (Flash "info"
         (Text "Loaded existing recurring definitions. You can continue assigning.")
         "recurring_schedule",
       Cleaner.set_data_store (specific_only appointments) s)
  end.

(** [upload_specific], POST with a readable CSV that has the required
    columns (lines 935-973). *)
Definition upload_specific (E : collaborators) (n0 : nat)
    (rows : list Validate.specific_csv_row) (s : state) : outcome * state :=
  match Validate.upload_specific_rows E n0 rows with
  | [] => (Flash "error" (Text "No valid appointments found in CSV.") "upload_specific", s)
  | appointments =>
      (Flash "info" (Text "Upload successful; definitions saved. Now choose date range.")
             "configure",
       Cleaner.set_data_store (specific_only appointments)
         (Cleaner.save_specific_definitions appointments s))
  end.

(** Lines 1591-1596: [new_list = [i for i in id_list if i not in
    replaced_ids]], stored back (and [changed] set) when it is shorter. *)
Fixpoint remove_replaced_slots (replaced_ids : list string) (sl : slots)
    (changed : bool) : slots * bool :=
  match sl with
  | [] => ([], changed)
  | (slot, id_list) :: rest =>
      let new_list := filter (fun i => i ∉ replaced_ids) id_list in
      if negb (Nat.eqb (length new_list) (length id_list)) then
        let '(rest', c) := remove_replaced_slots replaced_ids rest true in
        ((slot, new_list) :: rest', c)
      else
        let '(rest', c) := remove_replaced_slots replaced_ids rest changed in
        ((slot, id_list) :: rest', c)
  end.

Fixpoint remove_replaced (replaced_ids : list string) (a : assignments)
    (changed : bool) : assignments * bool :=
  match a with
  | [] => ([], changed)
  | (pat, sl) :: rest =>
      let '(sl', c) := remove_replaced_slots replaced_ids sl changed in
      let '(rest', c') := remove_replaced replaced_ids rest c in
      ((pat, sl') :: rest', c')
  end.

(** Lines 1585-1600. *)
Definition cleanup_replaced (replaced_ids : list string) (s : state) : state :=
  match replaced_ids with
  | [] => s
  | _ :: _ =>
      match recurring_schedule s with
      | Parsed a =>
          let '(a', changed) := remove_replaced replaced_ids a false in
          if changed then Cleaner.save_recurring_schedule a' s else s
      | Absent | Malformed => s
      end
  end.

(** [upload_recurring_merge] with a readable CSV that has the required
    columns (lines 1486-1603).  [json.loads(existing_json)] is outside any
    [try]. *)
Definition upload_recurring_merge (E : collaborators) (n0 : nat)
    (rows : list Validate.csv_row) (s : state) : outcome * state :=
  match Validate.merge_new_rows 0 rows with
  | inl e => (Flash "error" (MergeRowMessage e) "recurring_upload", s)
  | inr new_rows =>
      match recurring_defs s with
      | Malformed => (Raised, s)
      | existing_doc =>
          let existing := match existing_doc with Parsed l => l | _ => [] end in
          let m := Merge.merge (uuid4 E) n0 existing new_rows in
          match Merge.merged m with
          | [] =>
              (Flash "error" (Text "No valid recurring definitions found in CSV.")
                     "recurring_upload", s)
          | merged =>
              let s1 := Cleaner.save_recurring_definitions merged s in
              match Pattern.derive merged with
              | None => (Raised, s1)
              | Some patterns =>
                  let s2 := Cleaner.set_data_store (recurring_only merged patterns) s1 in
                  (Flash "info"
                     (Text "Recurring upload merged; new appointments added to Unassigned.")
                     "recurring_schedule",
                   cleanup_replaced (Merge.replaced_ids m) s2)
              end
          end
      end
  end.

(** The reply of [add_recurring_appointment]: the collected messages (a
    400 with the joined text for a JSON request, one flash per message
    otherwise), the new definition, or an exception of the pattern sort. *)
Inductive add_reply : Type :=
| Rejected (errors : list Validate.form_error)
| Added (new_appt : appt)
| AddRaised.

(** [add_recurring_appointment], lines 401-507. *)
Definition add_recurring_appointment (E : collaborators) (n0 : nat)
    (f : Validate.form) (s : state) : add_reply * state :=
  match Validate.add_recurring E n0 f with
  | inl errors => (Rejected errors, s)
  | inr new_appt =>
      let appts :=
        match recurring_defs s with
        | Parsed l => l
        | Absent | Malformed => []
        end ++ [new_appt] in
      let s1 := Cleaner.save_recurring_definitions appts s in
      match Pattern.derive appts with
      | None => (AddRaised, s1)
      | Some patterns =>
          (Added new_appt,
           match data_store s1 with
           | Some st =>
               Cleaner.set_data_store
                 (Some {| us_appointments := us_appointments st;
                          us_recurring := Some {| rc_appointments := appts;
                                                  rc_patterns := patterns |} |}) s1
           | None => s1
           end)
      end
  end.

(** What the loop of [edit_recurring_appointment] (lines 690-730) finds:
    no definition with the identifier, a payload that fails the checks of
    the first such definition, or that definition updated in place. *)
Inductive edit_scan : Type :=
| NotFound
| Invalid
| Found (updated_appt : appt) (appointments_rec : list appt).

Fixpoint edit_loop (E : collaborators) (p : Validate.payload) (defs : list appt)
    : edit_scan :=
  match defs with
  | [] => NotFound
  | a :: rest =>
      if String.eqb (id a) (Validate.p_id p) then
        match Validate.edit_fields E p with
        | None => Invalid
        | Some r =>
            Found {| id := id a; fields := r |} ({| id := id a; fields := r |} :: rest)
        end
      else
        match edit_loop E p rest with
        | Found u l => Found u (a :: l)
        | other => other
        end
  end.

(** [for i,a in enumerate(apps): if a.get('id') == appt_id:
    apps[i] = updated_appt; break] *)
Fixpoint replace_first (appt_id : string) (updated_appt : appt) (apps : list appt)
    : list appt :=
  match apps with
  | [] => []
  | a :: rest =>
      if String.eqb (id a) appt_id then updated_appt :: rest
      else a :: replace_first appt_id updated_appt rest
  end.

(** The reply of [edit_recurring_appointment]: the updated definition or
    the status of the error. *)
Inductive edit_reply : Type :=
| Updated (updated_appt : appt)
| EditFailed (status : nat).

(** [edit_recurring_appointment] for a JSON object with an ['id'], from
    line 679. *)
Definition edit_recurring_appointment (E : collaborators) (p : Validate.payload)
    (s : state) : edit_reply * state :=
  match recurring_defs s with
  | Absent => (EditFailed 400, s)
  | Malformed => (EditFailed 500, s)
  | Parsed appointments_rec =>
      match edit_loop E p appointments_rec with
      | NotFound => (EditFailed 404, s)
      | Invalid => (EditFailed 400, s)
      | Found updated_appt appointments_rec' =>
          let s1 := Cleaner.save_recurring_definitions appointments_rec' s in
          match data_store s1 with
          | Some {| us_appointments := a; us_recurring := Some rc |} =>
              let apps := replace_first (Validate.p_id p) updated_appt (rc_appointments rc) in
              match Pattern.derive apps with
              | Some patterns_new =>
                  (Updated updated_appt,
                   Cleaner.set_data_store
                     (Some {| us_appointments := a;
                              us_recurring := Some {| rc_appointments := apps;
                                                      rc_patterns := patterns_new |} |}) s1)
              | None =>
                  (EditFailed 500,
                   Cleaner.set_data_store
                     (Some {| us_appointments := a;
                              us_recurring := Some {| rc_appointments := apps;
                                                      rc_patterns := rc_patterns rc |} |}) s1)
              end
          | _ => (Updated updated_appt, s1)
          end
      end
  end.

(** What the page handler [recurring_schedule] answers: the rendered
    template with its arguments, an error flash with a redirect, or an
    exception of the pattern sort. *)
Inductive view : Type :=
| Rendered (appointments : list appt) (patterns : list Pattern.t)
           (saved_assignments : option assignments)
| Bounced (msg : string) (endpoint : string)
| ViewRaised.

(** The auto-load of lines 1616-1639: a stored text that does not parse
    counts as no definitions. *)
Definition autoload_recurring (s : state) : option state :=
  if negb (has_recurring (data_store s)) then
    match recurring_defs s with
    | Absent => Some s
    | doc =>
        let appointments_rec := match doc with Parsed l => l | _ => [] end in
        match Pattern.derive appointments_rec with
        | None => None
        | Some patterns =>
            Some (Cleaner.set_data_store (recurring_only appointments_rec patterns) s)
        end
    end
  else Some s.

(** The handler [recurring_schedule] (lines 1612-1668); the name
    [recurring_schedule] is the saved document of the state. *)
Definition recurring_schedule_page (s : state) : view * state :=
  match autoload_recurring s with
  | None => (ViewRaised, s)
  | Some s1 =>
      match data_store s1 with
      | Some {| us_recurring := Some rc |} =>
          match rc_patterns rc with
          | [] =>
              (Bounced "No recurrence patterns detected. Ensure CSV has valid Day/Frequency."
                       "recurring_upload", s1)
          | patterns =>
              (Rendered (rc_appointments rc) patterns
                 match recurring_schedule s1 with
                 | Parsed a => Some a
                 | Absent | Malformed => None
                 end, s1)
          end
      | _ => (Bounced "No recurring definitions found. Please upload first."
                      "recurring_upload", s1)
      end
  end.

(** The value of [request.get_json()]: an object that maps dates (or
    pattern labels) to slots, or any other value. *)
Inductive body : Type :=
| NotAnObject
| Object (a : assignments).

(** [save_schedule], lines 1185-1215. *)
Definition save_schedule (data : body) (s : state) : response * state :=
  let s1 :=
    if negb (has_appointments (data_store s)) then
      match specific_defs s with
      | Absent => s
      | Malformed => Cleaner.set_data_store (specific_only []) s
      | Parsed appointments => Cleaner.set_data_store (specific_only appointments) s
      end
    else s in
  if negb (has_appointments (data_store s1)) then
    (Error 400 "No appointment definitions found", s1)
  else
    match data with
    | NotAnObject => (Error 400 "Invalid JSON", s1)
    | Object a => (Success, Cleaner.save_specific_schedule a s1)
    end.

(** [save_recurring_schedule], lines 1673-1685. *)
Definition save_recurring_schedule (data : body) (s : state) : response * state :=
  match data with
  | NotAnObject => (Error 400 "Invalid JSON format", s)
  | Object a => (Success, Cleaner.save_recurring_schedule a s)
  end.

(** One request of the user, among the handlers above and the two delete
    handlers. *)
Inductive step (E : collaborators) : state -> state -> Prop :=
| step_recurring_upload n rows s : step E s (recurring_upload E n rows s).2
| step_use_existing_recurring s : step E s (use_existing_recurring s).2
| step_upload_recurring_merge n rows s : step E s (upload_recurring_merge E n rows s).2
| step_add_recurring n f s : step E s (add_recurring_appointment E n f s).2
| step_edit_recurring p s : step E s (edit_recurring_appointment E p s).2
| step_delete_recurring appt_id s :
    step E s (Cleaner.delete_recurring_appointment appt_id s).2
| step_recurring_schedule_page s : step E s (recurring_schedule_page s).2
| step_save_recurring_schedule data s : step E s (save_recurring_schedule data s).2
| step_upload_specific n rows s : step E s (upload_specific E n rows s).2
| step_use_existing_specific s : step E s (use_existing_specific s).2
| step_delete_specific appt_id s :
    step E s (Cleaner.delete_specific_appointment appt_id s).2
| step_save_schedule data s : step E s (save_schedule data s).2.

(** The stored recurring definitions parse and have a weekday and an
    ordinal each, and the cached recurring entry, when there is one, holds
    the stored definitions with their pattern list. *)
Definition coherent (s : state) : Prop :=
  match recurring_defs s with
  | Malformed => False
  | Absent => True
  | Parsed l => Forall Pattern.valid l
  end
  /\ match data_store s with
     | Some {| us_recurring := Some rc |} =>
         recurring_defs s = Parsed (rc_appointments rc)
         /\ Pattern.derive (rc_appointments rc) = Some (rc_patterns rc)
     | _ => True
     end.

(** The stored recurring definitions parse and are a document that the
    write paths can produce. *)
Definition document_reachable (E : collaborators) (s : state) : Prop :=
  match recurring_defs s with
  | Malformed => False
  | Absent => True
  | Parsed l => Reach.reachable E l
  end.

(** The slot sequences without the replaced identifiers, in their order. *)
Definition expunge_slots (replaced_ids : list string) (sl : slots) : slots :=
  (fun kv => (kv.1, filter (fun i => i ∉ replaced_ids) kv.2)) <$> sl.

Definition expunge (replaced_ids : list string) (a : assignments) : assignments :=
  (fun d => (d.1, expunge_slots replaced_ids d.2)) <$> a.

(** [c in s] for a character. *)
Fixpoint has_char (c : ascii) (s : string) : bool :=
  match s with
  | EmptyString => false
  | String a rest => Ascii.eqb a c || has_char c rest
  end.

(** [FIXED_TRUCKS] and the labels of [SLOT_DEFINITIONS]. *)
Definition FIXED_TRUCKS : list string :=
  ["Trailer 1"; "Trailer 2"; "Trailer 3"; "Trailer 4";
   "Straight 1"; "Straight 2"; "Straight 3"; "Straight 4"].

Definition SLOT_LABELS : list string := ["A"; "B"].

End Requests.

(* ===================================================================== *)
(** * The date range of [configure] *)
(* ===================================================================== *)

Module Calendar.

(** A [datetime.date] is its proleptic Gregorian ordinal (dates compare
    as their ordinals do, and [+ timedelta(days=1)] adds one).
    [fromisoformat s] is [datetime.fromisoformat(s).date()], [None] when it
    raises; [isoformat] is [date.isoformat()]. *)
Record calendar : Type := {
  fromisoformat : string -> option Z;
  isoformat : Z -> string
}.

(** [date.max.toordinal()], the ordinal of 9999-12-31: adding a day to it
    raises [OverflowError]. *)
Definition date_max : Z := 3652059.

(** [store['config']] *)
Record config : Type := {
  date_start : string;
  date_end : string;
  dates : list string
}.

Inductive loop_result : Type :=
| OutOfFuel
| Overflow
| Dates (l : list string).

(** [while cur <= dt_end: dates.append(cur.isoformat());
    cur = cur + timedelta(days=1)], one iteration per unit of [fuel]. *)
Fixpoint dates_loop (C : calendar) (fuel : nat) (cur dt_end : Z) (dates : list string)
    : loop_result :=
  if (cur <=? dt_end)%Z then
    match fuel with
    | O => OutOfFuel
    | S fuel' =>
        if (cur <? date_max)%Z
        then dates_loop C fuel' (cur + 1)%Z dt_end (dates ++ [isoformat C cur])
        else Overflow
    end
  else Dates dates.

(** The replies of [configure] to a POST: the four flashed errors ("No
    uploaded appointments. Please upload CSV first.", "Please fill both
    start date and end date.", "Invalid date format: ...", "End date must
    be on or after start date."), the uncaught [OverflowError], or the
    configuration stored under ['config'] before the redirect to the
    schedule. *)
Inductive reply : Type :=
| NoUploadedAppointments
| FillBothDates
| InvalidDateFormat
| EndBeforeStart
| OverflowRaised
| Configured (c : config).

(** [configure], POST (lines 1085-1117); an absent form field reads as
    the empty text.  The loop runs at most [dt_end - dt_start + 1] times. *)
Definition configure (C : calendar) (form_date_start form_date_end : string)
    (s : state) : reply :=
  if negb (Requests.has_appointments (data_store s)) then NoUploadedAppointments
  else if String.eqb form_date_start "" || String.eqb form_date_end ""
  then FillBothDates
  else match fromisoformat C form_date_start, fromisoformat C form_date_end with
       | Some dt_start, Some dt_end =>
           if (dt_end <? dt_start)%Z then EndBeforeStart
           else match dates_loop C (Z.to_nat (dt_end + 1 - dt_start)) dt_start dt_end [] with
                | Dates l =>
                    Configured {| date_start := isoformat C dt_start;
                                  date_end := isoformat C dt_end;
                                  dates := l |}
                | Overflow | OutOfFuel => OverflowRaised
                end
       | _, _ => InvalidDateFormat
       end.

(** The ordinals from [a] to [b], both included. *)
Definition days (a b : Z) : list Z :=
  (fun i => (a + Z.of_nat i)%Z) <$> seq 0 (Z.to_nat (b + 1 - a)).

End Calendar.

Module Samples.
Import Recurring Examples.

(** A calendar that writes a date as its ordinal in unary and reads it
    back. *)
Definition unary : Calendar.calendar :=
  {| Calendar.fromisoformat := fun s => Some (Z.of_nat (String.length s));
     Calendar.isoformat := fun d => xs (Z.to_nat d) |}.

(** The form of a new definition for the third Friday. *)
Definition third_friday : Validate.form :=
  {| Validate.f_agency_number := "C3"; Validate.f_account_name := "Crate";
     Validate.f_area := "East";
     Validate.f_min_weight := "1"; Validate.f_max_weight := "20";
     Validate.f_day := "Friday"; Validate.f_frequency := "Third";
     Validate.f_start_time := "09:00"; Validate.f_end_time := "11:00" |}.

(** An edit of a definition's weights and pattern. *)
Definition to_second_tuesday (i : string) : Validate.payload :=
  {| Validate.p_id := i;
     Validate.p_agency_number := "A1"; Validate.p_account_name := "Acme";
     Validate.p_area := "North";
     Validate.p_min_weight := Py.Int 10; Validate.p_max_weight := Py.Int 120;
     Validate.p_day := "Tuesday"; Validate.p_frequency := "Second";
     Validate.p_start_time_str := "09:00"; Validate.p_end_time_str := "10:30" |}.

(** The fields that edit asks for. *)
Definition second_tuesday_row : row :=
  {| agency_number := "A1"; account_name := "Acme"; area := "North";
     min_weight := Py.Int 10; max_weight := Py.Int 120;
     day := "Tuesday"; frequency := "Second";
     start_hour := Py.hour_float 9 0; end_hour := Py.hour_float 10 30;
     start_time_str := "09:00"; end_time_str := "10:30" |}.

(** An edit whose end time is before its start time. *)
Definition ends_before_start (i : string) : Validate.payload :=
  {| Validate.p_id := i;
     Validate.p_agency_number := "A1"; Validate.p_account_name := "Acme";
     Validate.p_area := "North";
     Validate.p_min_weight := Py.Int 10; Validate.p_max_weight := Py.Int 120;
     Validate.p_day := "Tuesday"; Validate.p_frequency := "Second";
     Validate.p_start_time_str := "10:30"; Validate.p_end_time_str := "09:00" |}.

(** The definition that [third_friday] gives, with the identifier of the
    third draw. *)
Definition third_friday_appt : appt :=
  {| id := uuids 2;
     fields := {| agency_number := "C3"; account_name := "Crate"; area := "East";
                  min_weight := Py.Float (Py.float_of_int 1);
                  max_weight := Py.Float (Py.float_of_int 20);
                  day := "Friday"; frequency := "Third";
                  start_hour := Py.hour_float 9 0; end_hour := Py.hour_float 11 0;
                  start_time_str := "09:00"; end_time_str := "11:00" |} |}.

(** Saved recurring assignments that name the two stored definitions. *)
Definition uploaded_schedule : assignments :=
  [ ("First Monday", [ ("Trailer 1_A", [uuids 0; uuids 1]);
                       ("Trailer 2_B", [uuids 1]) ]);
    ("Second Tuesday", [ ("Trailer 1_A", [uuids 1; uuids 0]) ]) ].

(** The state after [recurring_upload] of the rows A and B and a save of
    these assignments, in a session that has nothing cached. *)
Definition uploaded : state :=
  {| specific_defs := Absent;
     recurring_defs := Parsed stored;
     specific_schedule := Absent;
     recurring_schedule := Parsed uploaded_schedule;
     writes := [];
     data_store := None |}.

(** A user who has not uploaded anything. *)
Definition fresh : state :=
  {| specific_defs := Absent; recurring_defs := Absent;
     specific_schedule := Absent; recurring_schedule := Absent;
     writes := []; data_store := None |}.

End Samples.

(* ===================================================================== *)
(** * Dictionaries built by a comprehension *)
(* ===================================================================== *)

(** [{f(a): a for a in l}], as a left fold of insertions. *)
Section DictFacts.
Context {K A : Type} `{Countable K} (f : A -> K).

Abbreviation inserted m l := (foldl (fun (acc : gmap K A) a => <[f a := a]> acc) m l).

Lemma foldl_insert_lookup (l : list A) (m : gmap K A) k x :
  inserted m l !! k = Some x -> m !! k = Some x \/ (x ∈ l /\ f x = k).
Proof.
  revert m. induction l as [|a l IH]; intros m Hx; simpl in Hx.
  - by left.
  - apply IH in Hx as [Hx | [H1 H2]].
    + destruct (decide (f a = k)) as [Heq | Hne].
      * rewrite Heq in Hx. rewrite lookup_insert_eq in Hx.
        injection Hx as <-. right. split; [left | done].
      * rewrite lookup_insert_ne in Hx by done. by left.
    + right. split; [by right | done].
Qed.

Lemma foldl_insert_is_Some (l : list A) (m : gmap K A) k :
  is_Some (m !! k) \/ k ∈ f <$> l -> is_Some (inserted m l !! k).
Proof.
  revert m. induction l as [|a l IH]; intros m Hk; simpl.
  - destruct Hk as [Hk | Hk]; [done | by apply elem_of_nil in Hk].
  - apply IH. destruct Hk as [Hk | Hk].
    + left. destruct (decide (f a = k)) as [<- | Hne].
      * rewrite lookup_insert_eq. by eexists.
      * by rewrite lookup_insert_ne.
    + rewrite fmap_cons in Hk. apply elem_of_cons in Hk as [-> | Hk].
      * left. rewrite lookup_insert_eq. by eexists.
      * by right.
Qed.

Lemma foldl_insert_not_in (l : list A) (m : gmap K A) k :
  k ∉ f <$> l -> inserted m l !! k = m !! k.
Proof.
  revert m. induction l as [|a l IH]; intros m Hk; simpl; [done |].
  rewrite fmap_cons in Hk. apply not_elem_of_cons in Hk as [H1 H2].
  rewrite IH by done. by rewrite lookup_insert_ne.
Qed.

Lemma dict_lookup_Some (l : list A) k x :
  inserted ∅ l !! k = Some x -> x ∈ l /\ f x = k.
Proof.
  intros Hx. apply foldl_insert_lookup in Hx as [Hx | Hx]; [| done].
  by rewrite lookup_empty in Hx.
Qed.

Lemma dict_lookup_is_Some (l : list A) k :
  is_Some (inserted ∅ l !! k) <-> k ∈ f <$> l.
Proof.
  split.
  - intros [x Hx]. apply dict_lookup_Some in Hx as [Hx <-].
    by apply list_elem_of_fmap_2.
  - intros Hk. apply foldl_insert_is_Some. by right.
Qed.

(** With pairwise-distinct keys the dictionary finds each element under
    its own key. *)
Lemma dict_lookup_NoDup (l : list A) x :
  NoDup (f <$> l) -> x ∈ l -> inserted ∅ l !! f x = Some x.
Proof.
  generalize (∅ : gmap K A) as m.
  induction l as [|a l IH]; intros m Hnd Hin.
  - by apply elem_of_nil in Hin.
  - rewrite fmap_cons in Hnd. apply NoDup_cons in Hnd as [Hnotin Hnd].
    apply elem_of_cons in Hin as [-> | Hin]; simpl.
    + rewrite foldl_insert_not_in by done. by rewrite lookup_insert_eq.
    + by apply IH.
Qed.

End DictFacts.

(* ===================================================================== *)
(** * Properties of the merge loop *)
(* ===================================================================== *)

Section MergeFacts.
Import Recurring Merge.

Variable uuid4 : nat -> string.

Implicit Types (existing : list appt) (rows : list row) (st : state)
  (emap : gmap key appt) (k : key) (ex a d : appt) (r : row).

Lemma existing_map_lookup existing k ex :
  existing_map existing !! k = Some ex ->
  ex ∈ existing /\ _key (fields ex) = k.
Proof. apply (dict_lookup_Some (fun a => _key (fields a))). Qed.

Lemma existing_map_is_Some existing ex :
  ex ∈ existing -> is_Some (existing_map existing !! _key (fields ex)).
Proof.
  intros Hin. apply (dict_lookup_is_Some (fun a => _key (fields a))).
  by apply (list_elem_of_fmap_2 (fun a => _key (fields a))).
Qed.

Lemma existing_map_NoDup existing ex :
  NoDup (keys_of existing) -> ex ∈ existing ->
  existing_map existing !! _key (fields ex) = Some ex.
Proof. apply (dict_lookup_NoDup (fun a => _key (fields a))). Qed.

(** ** The first loop, row by row *)

Abbreviation run emap := (foldl (merge_row uuid4 emap)).

Lemma merge_row_spec emap st r :
  exists d,
    merged (merge_row uuid4 emap st r) = merged st ++ [d] /\ fields d = r /\
    next_uuid st <= next_uuid (merge_row uuid4 emap st r) /\
    match emap !! _key r with
    | Some ex =>
        processed_keys (merge_row uuid4 emap st r) = {[_key r]} ∪ processed_keys st /\
        if identical ex r then
          id d = id ex /\
          replaced_ids (merge_row uuid4 emap st r) = replaced_ids st /\
          next_uuid (merge_row uuid4 emap st r) = next_uuid st
        else
          id d = uuid4 (next_uuid st) /\
          replaced_ids (merge_row uuid4 emap st r) = replaced_ids st ++ [id ex] /\
          next_uuid (merge_row uuid4 emap st r) = S (next_uuid st)
    | None =>
        processed_keys (merge_row uuid4 emap st r) = processed_keys st /\
        id d = uuid4 (next_uuid st) /\
        replaced_ids (merge_row uuid4 emap st r) = replaced_ids st /\
        next_uuid (merge_row uuid4 emap st r) = S (next_uuid st)
    end.
Proof.
  unfold merge_row. destruct (emap !! _key r) as [ex|] eqn:Hex.
  - destruct (identical ex r) eqn:Hid; eexists; simpl; repeat split; auto.
  - eexists; simpl; repeat split; auto.
Qed.

(** Later iterations only append. *)
Lemma run_extends emap rows st :
  exists l rp,
    merged (run emap st rows) = merged st ++ l /\
    length l = length rows /\
    replaced_ids (run emap st rows) = replaced_ids st ++ rp /\
    next_uuid st <= next_uuid (run emap st rows).
Proof.
  revert st. induction rows as [|r rows IH]; intros st; simpl.
  - exists [], []. by rewrite !app_nil_r.
  - destruct (IH (merge_row uuid4 emap st r)) as (l & rp & Hm & Hl & Hr & Hn).
    destruct (merge_row_spec emap st r) as (d & Hd & _ & Hn' & Hcase).
    assert (exists rp', replaced_ids (merge_row uuid4 emap st r) = replaced_ids st ++ rp')
      as [rp' Hrp'].
    { destruct (emap !! _key r) as [ex|].
      - destruct Hcase as [_ Hcase]. destruct (identical ex r).
        + exists []. rewrite app_nil_r. tauto.
        + exists [id ex]. tauto.
      - exists []. rewrite app_nil_r. tauto. }
    exists (d :: l), (rp' ++ rp). rewrite Hm, Hd, Hr, Hrp', <- !app_assoc. simpl.
    repeat split; [by rewrite Hl | lia].
Qed.

Lemma run_fields emap rows st :
  fields <$> merged (run emap st rows) = (fields <$> merged st) ++ rows.
Proof.
  revert st. induction rows as [|r rows IH]; intros st; simpl.
  - by rewrite app_nil_r.
  - rewrite IH. destruct (merge_row_spec emap st r) as (d & -> & <- & _).
    rewrite fmap_app. simpl. by rewrite <- app_assoc.
Qed.

Lemma run_processed emap rows st k :
  k ∈ processed_keys (run emap st rows) <->
  k ∈ processed_keys st \/ (k ∈ _key <$> rows /\ is_Some (emap !! k)).
Proof.
  revert st. induction rows as [|r rows IH]; intros st; simpl.
  - split; [by left | intros [H | [H _]]; [done | by apply elem_of_nil in H]].
  - rewrite IH. destruct (merge_row_spec emap st r) as (d & _ & _ & _ & Hcase).
    destruct (emap !! _key r) as [ex|] eqn:Hex.
    + destruct Hcase as [-> _]. rewrite elem_of_union, elem_of_singleton, elem_of_cons.
      assert (is_Some (emap !! _key r)) by (by rewrite Hex).
      intuition (subst; auto).
    + destruct Hcase as [-> _]. rewrite elem_of_cons.
      assert (~ is_Some (emap !! _key r)) by (rewrite Hex; by intros [? ?]).
      intuition (subst; auto; tauto).
Qed.

(** Where each row ends up and how its identifier was chosen. *)
Lemma run_lookup emap rows st i r :
  rows !! i = Some r ->
  exists d,
    merged (run emap st rows) !! (length (merged st) + i) = Some d /\
    fields d = r /\
    match emap !! _key r with
    | Some ex =>
        if identical ex r then id d = id ex
        else fresh_in uuid4 st (run emap st rows) (id d)
             /\ id ex ∈ replaced_ids (run emap st rows)
    | None => fresh_in uuid4 st (run emap st rows) (id d)
    end.
Proof.
  revert st i. induction rows as [|x rows IH]; intros st i Hi; [done |].
  simpl. destruct (merge_row_spec emap st x) as (d & Hd & Hf & Hn & Hcase).
  destruct (run_extends emap rows (merge_row uuid4 emap st x))
    as (l & rp & Hm & Hl & Hr & Hn').
  destruct i as [|i]; simpl in Hi.
  - injection Hi as ->. exists d. split; [| split; [done |]].
    + rewrite Hm, Hd, <- app_assoc. rewrite lookup_app_r by lia.
      by replace (length (merged st) + 0 - length (merged st)) with 0 by lia.
    + destruct (emap !! _key r) as [ex|].
      * destruct Hcase as [_ Hcase]. destruct (identical ex r).
        -- tauto.
        -- destruct Hcase as (Hid & Hrep & Hnx). split.
           ++ exists (next_uuid st). split; [lia | done].
           ++ rewrite Hr, Hrep. apply elem_of_app. left.
              apply elem_of_app. right. by apply list_elem_of_singleton.
      * destruct Hcase as (_ & Hid & _ & Hnx).
        exists (next_uuid st). split; [lia | done].
  - destruct (IH (merge_row uuid4 emap st x) i Hi) as (d' & Hd' & Hf' & Hcase').
    exists d'. split; [| split; [done |]].
    + rewrite Hd, length_app in Hd'. simpl in Hd'.
      by replace (length (merged st) + S i) with (length (merged st) + 1 + i) by lia.
    + assert (forall s, fresh_in uuid4 (merge_row uuid4 emap st x)
                                 (run emap (merge_row uuid4 emap st x) rows) s ->
                        fresh_in uuid4 st (run emap (merge_row uuid4 emap st x) rows) s) as Hw.
      { intros s (j & Hj & ->). exists j. split; [lia | done]. }
      destruct (emap !! _key r) as [ex|]; [destruct (identical ex r) |]; intuition auto.
Qed.

(** Every replaced identifier comes from a row that matched a stored
    definition with different weights. *)
Lemma run_replaced emap rows st i :
  i ∈ replaced_ids (run emap st rows) ->
  i ∈ replaced_ids st \/
  exists r ex, r ∈ rows /\ emap !! _key r = Some ex /\ identical ex r = false /\ i = id ex.
Proof.
  revert st. induction rows as [|x rows IH]; intros st H; simpl in H; [by left |].
  apply IH in H as [H | (r & ex & H1 & H2 & H3 & H4)].
  - destruct (merge_row_spec emap st x) as (d & _ & _ & _ & Hcase).
    destruct (emap !! _key x) as [ex|] eqn:Hex.
    + destruct Hcase as [_ Hcase]. destruct (identical ex x) eqn:Hid.
      * destruct Hcase as (_ & Hrep & _). rewrite Hrep in H. by left.
      * destruct Hcase as (_ & Hrep & _). rewrite Hrep in H.
        apply elem_of_app in H as [H | H]; [by left |].
        apply list_elem_of_singleton in H. right. exists x, ex.
        repeat split; [left | done..].
    + destruct Hcase as (_ & _ & Hrep & _). rewrite Hrep in H. by left.
  - right. exists r, ex. repeat split; [by right | done..].
Qed.

(** ** Both loops *)

Lemma NoDup_fmap_eq {A B : Type} (f : A -> B) (l : list A) (x y : A) :
  NoDup (f <$> l) -> x ∈ l -> y ∈ l -> f x = f y -> x = y.
Proof.
  induction l as [|a l IH]; intros Hnd Hx Hy Hf; [by apply elem_of_nil in Hx |].
  rewrite fmap_cons in Hnd. apply NoDup_cons in Hnd as [Hnotin Hnd].
  apply elem_of_cons in Hx as [-> | Hx]; apply elem_of_cons in Hy as [-> | Hy]; auto.
  - exfalso. apply Hnotin. rewrite Hf. by apply list_elem_of_fmap_2.
  - exfalso. apply Hnotin. rewrite <- Hf. by apply list_elem_of_fmap_2.
Qed.

Lemma filter_ext_elem {A : Type} (P Q : A -> Prop)
    `{!forall x, Decision (P x)} `{!forall x, Decision (Q x)} (l : list A) :
  (forall x, x ∈ l -> P x <-> Q x) -> filter P l = filter Q l.
Proof.
  induction l as [|a l IH]; intros Hall; [done |].
  rewrite !filter_cons.
  rewrite IH by (intros x Hx; apply Hall; by right).
  destruct (decide (P a)) as [HP | HP], (decide (Q a)) as [HQ | HQ]; auto.
  - exfalso. apply HQ. apply Hall; [left | done].
  - exfalso. apply HP. apply Hall; [left | done].
Qed.

Lemma filter_none {A : Type} (P : A -> Prop) `{!forall x, Decision (P x)} (l : list A) :
  (forall x, x ∈ l -> ~ P x) -> filter P l = [].
Proof.
  induction l as [|a l IH]; intros Hall; [done |].
  rewrite filter_cons_False by (apply Hall; left).
  apply IH. intros x Hx. apply Hall. by right.
Qed.

Lemma keys_of_fields (l : list appt) : keys_of l = _key <$> (fields <$> l).
Proof. unfold keys_of. apply (list_fmap_compose fields _key). Qed.

(** The merged list is the rows, in order and with identifiers, followed
    by the stored definitions whose key no row has. *)
Lemma merge_shape existing rows n0 :
  exists new,
    merged (merge uuid4 n0 existing rows)
    = new ++ filter (fun ex => _key (fields ex) ∉ _key <$> rows) existing
    /\ fields <$> new = rows
    /\ new = merged (run (existing_map existing) (init n0) rows).
Proof.
  exists (merged (run (existing_map existing) (init n0) rows)).
  split; [| split; [| done]].
  - unfold merge, keep_unprocessed. simpl. f_equal.
    apply filter_ext_elem. intros ex Hex.
    rewrite run_processed. simpl. split.
    + intros Hn Hin. apply Hn. right. split; [done |].
      by apply existing_map_is_Some.
    + intros Hn [Hin | [Hin _]]; [by apply not_elem_of_empty in Hin | done].
  - by rewrite run_fields.
Qed.

Lemma merge_new_lookup existing rows n0 d :
  d ∈ merged (run (existing_map existing) (init n0) rows) ->
  exists i, rows !! i = Some (fields d) /\
    merged (run (existing_map existing) (init n0) rows) !! i = Some d.
Proof.
  intros Hd. apply list_elem_of_lookup in Hd as [i Hi]. exists i. split; [| done].
  pose proof (run_fields (existing_map existing) rows (init n0)) as Hf.
  simpl in Hf. rewrite <- Hf. rewrite list_lookup_fmap, Hi. done.
Qed.

(** How the identifier of a record of the first part was chosen. *)
Lemma merge_new_id existing rows n0 d :
  d ∈ merged (run (existing_map existing) (init n0) rows) ->
  fields d ∈ rows /\
  match existing_map existing !! _key (fields d) with
  | Some ex =>
      if identical ex (fields d) then id d = id ex
      else exists j, n0 <= j /\ id d = uuid4 j
  | None => exists j, n0 <= j /\ id d = uuid4 j
  end.
Proof.
  intros Hd. destruct (merge_new_lookup _ _ _ _ Hd) as (i & Hi & Hdi).
  split; [by eapply list_elem_of_lookup_2 |].
  destruct (run_lookup (existing_map existing) rows (init n0) i _ Hi)
    as (d' & Hd' & Hf & Hcase).
  simpl in Hd'. rewrite Hdi in Hd'. injection Hd' as <-.
  destruct (existing_map existing !! _key (fields d)) as [ex|];
    [destruct (identical ex (fields d)) |]; auto.
  - destruct Hcase as [(j & Hj & ->) _]. exists j. simpl in Hj. split; [lia | done].
  - destruct Hcase as (j & Hj & ->). exists j. simpl in Hj. split; [lia | done].
Qed.


(** C5.  Whatever the stored definitions and the new rows are, the merged
    list is the rows (with identifiers) followed by exactly the stored
    definitions whose natural key no row has, each one unchanged and in
    the stored order; every replaced identifier belongs to a stored
    definition whose key some row has.  In particular, for stored [A; B]
    and the single row [A'] whose fields all compare equal to those of [A]
    ([B] being a definition whose key the row does not have), the result
    is [A'] under the identifier of [A], then [B], and nothing is
    replaced. *)
Theorem merge_preserves_untouched existing rows n0 :
  (exists new,
      merged (merge uuid4 n0 existing rows)
      = new ++ filter (fun ex => _key (fields ex) ∉ _key <$> rows) existing
      /\ fields <$> new = rows)
  /\ (forall i, i ∈ replaced_ids (merge uuid4 n0 existing rows) ->
        exists ex, ex ∈ existing /\ id ex = i /\ _key (fields ex) ∈ _key <$> rows)
  /\ (forall A B A',
        fields_equal (fields A) A' = true ->
        _key (fields B) <> _key (fields A) ->
        merged (merge uuid4 n0 [A; B] [A']) = [ {| id := id A; fields := A' |}; B ]
        /\ replaced_ids (merge uuid4 n0 [A; B] [A']) = []).
Proof.
  split; [| split].
  - destruct (merge_shape existing rows n0) as (new & Hm & Hf & _). eauto.
  - intros i Hi. simpl in Hi.
    apply run_replaced in Hi as [Hi | (r & ex & Hr & Hex & _ & ->)];
      [by apply elem_of_nil in Hi |].
    destruct (existing_map_lookup _ _ _ Hex) as [Hex_in Hex_key].
    exists ex. rewrite Hex_key. repeat split; auto. by apply list_elem_of_fmap_2.
  - intros A B A' Heq Hne.
    assert (_key A' = _key (fields A) /\ identical A A' = true) as [Hk Hid].
    { unfold fields_equal in Heq. unfold _key, identical.
      repeat (apply andb_true_iff in Heq as [Heq ?]).
      repeat match goal with H : String.eqb _ _ = true |- _ =>
               apply String.eqb_eq in H end.
      split; [| by apply andb_true_iff]. congruence. }
    unfold merge, existing_map. simpl.
    unfold merge_row. rewrite Hk. rewrite lookup_insert_ne by done.
    rewrite lookup_insert_eq. rewrite Hid. simpl.
    unfold keep_unprocessed. rewrite filter_cons_False.
    2:{ intros Hn. apply Hn. apply elem_of_union. left. by apply elem_of_singleton. }
    rewrite filter_cons_True; [done |].
    rewrite elem_of_union, elem_of_singleton. intros [Hk' | Hk']; [done |].
    by apply not_elem_of_empty in Hk'.
Qed.

(** Re-merging the stored definitions is the identity when every weight
    compares equal to itself. *)
Lemma merge_idempotent existing n0 :
  NoDup (keys_of existing) ->
  Forall (fun a => identical a (fields a) = true) existing ->
  merged (merge uuid4 n0 existing (fields <$> existing)) = existing
  /\ replaced_ids (merge uuid4 n0 existing (fields <$> existing)) = []
  /\ next_uuid (merge uuid4 n0 existing (fields <$> existing)) = n0.
Proof.
  intros Hnd Hself.
  assert (forall l st,
    (forall a, a ∈ l -> existing_map existing !! _key (fields a) = Some a
                        /\ identical a (fields a) = true) ->
    merged (run (existing_map existing) st (fields <$> l)) = merged st ++ l
    /\ replaced_ids (run (existing_map existing) st (fields <$> l)) = replaced_ids st
    /\ next_uuid (run (existing_map existing) st (fields <$> l)) = next_uuid st) as Hloop.
  { induction l as [|a l IH]; intros st Hl.
    - simpl. by rewrite app_nil_r.
    - rewrite fmap_cons. cbn [foldl].
      destruct (Hl a) as [Ha Hida]; [left |].
      destruct (IH (merge_row uuid4 (existing_map existing) st (fields a)))
        as (H1 & H2 & H3); [intros; apply Hl; by right |].
      rewrite H1, H2, H3. unfold merge_row. rewrite Ha, Hida. simpl.
      destruct a. simpl. by rewrite <- app_assoc. }
  destruct (Hloop existing (init n0)) as (H1 & H2 & H3).
  { intros a Ha. split; [by apply existing_map_NoDup |].
    by apply (proj1 (Forall_forall _ _) Hself). }
  destruct (merge_shape existing (fields <$> existing) n0) as (new & Hm & _ & Hnew).
  rewrite Hm. repeat split; auto.
  rewrite Hnew, H1. simpl.
  rewrite filter_none; [by rewrite app_nil_r |].
  intros ex Hex Hn. apply Hn.
  rewrite <- keys_of_fields. by apply (list_elem_of_fmap_2 (fun a => _key (fields a))).
Qed.

End MergeFacts.

(* ===================================================================== *)
(** * Derived hours in every reachable document *)
(* ===================================================================== *)

Section ReachFacts.
Import Recurring Merge Reach.

Lemma digit_not_colon n : Ascii.eqb (digit n) ":" = false.
Proof.
  unfold digit. pose proof (Nat.mod_upper_bound n 10) as Hlt.
  destruct (n mod 10) as [|k]; [reflexivity |].
  do 9 (destruct k as [|k]; [reflexivity |]). lia.
Qed.

Lemma digit_eq_mod a b : digit a = digit b -> a mod 10 = b mod 10.
Proof.
  unfold digit. intros H.
  assert (a mod 10 < 10) by (apply Nat.mod_upper_bound; lia).
  assert (b mod 10 < 10) by (apply Nat.mod_upper_bound; lia).
  apply (f_equal nat_of_ascii) in H.
  rewrite !nat_ascii_embedding in H by lia. lia.
Qed.

Lemma two_digits_inj a b : a < 100 -> b < 100 -> two_digits a = two_digits b -> a = b.
Proof.
  unfold two_digits. intros Ha Hb H.
  assert (digit (a / 10) = digit (b / 10)) as H1 by congruence.
  assert (digit a = digit b) as H2 by congruence.
  apply digit_eq_mod in H1, H2.
  assert (a / 10 < 10) by (apply Nat.Div0.div_lt_upper_bound; lia).
  assert (b / 10 < 10) by (apply Nat.Div0.div_lt_upper_bound; lia).
  rewrite !Nat.mod_small in H1 by lia.
  pose proof (Nat.div_mod_eq a 10). pose proof (Nat.div_mod_eq b 10). lia.
Qed.

Lemma strftime_HM_unfold h m :
  strftime_HM h m
  = String (digit (h / 10)) (String (digit h) (String ":"
      (String (digit (m / 10)) (String (digit m) EmptyString)))).
Proof. reflexivity. Qed.

Lemma strftime_HM_inj h m h' m' :
  h < 24 -> m < 60 -> h' < 24 -> m' < 60 ->
  strftime_HM h m = strftime_HM h' m' -> h = h' /\ m = m'.
Proof.
  intros Hh Hm Hh' Hm' H. rewrite !strftime_HM_unfold in H.
  assert (two_digits h = two_digits h' /\ two_digits m = two_digits m') as [H1 H2].
  { unfold two_digits. split; congruence. }
  split; apply two_digits_inj; auto; lia.
Qed.

Lemma split_on_strftime h m :
  split_on ":" (strftime_HM h m) = [two_digits h; two_digits m].
Proof.
  rewrite strftime_HM_unfold. unfold two_digits. cbn [split_on].
  rewrite !digit_not_colon. reflexivity.
Qed.

(** [h + m/60.0] is never [nan] for a time of day. *)
Lemma hour_float_eqb_refl h m :
  h < 24 -> m < 60 ->
  PrimFloat.eqb (Py.hour_float (Z.of_nat h) (Z.of_nat m))
                (Py.hour_float (Z.of_nat h) (Z.of_nat m)) = true.
Proof.
  intros Hh Hm.
  assert (List.forallb (fun h => List.forallb (fun m =>
            PrimFloat.eqb (Py.hour_float (Z.of_nat h) (Z.of_nat m))
                          (Py.hour_float (Z.of_nat h) (Z.of_nat m)))
            (seq 0 60)) (seq 0 24) = true) as Hall by (vm_compute; reflexivity).
  rewrite List.forallb_forall in Hall.
  specialize (Hall h). rewrite List.forallb_forall in Hall.
  apply Hall; apply List.in_seq; lia.
Qed.

Lemma canonical_hours_derived r : canonical r -> hours_derived r.
Proof.
  intros (h & m & h2 & m2 & Hh & Hm & Hh2 & Hm2 & Hs & Hsh & He & Heh).
  split; intros h' m' Hh' Hm' Heq.
  - rewrite Hs in Heq. apply strftime_HM_inj in Heq as [-> ->]; auto.
  - rewrite He in Heq. apply strftime_HM_inj in Heq as [-> ->]; auto.
Qed.

Lemma in_range_lt h m :
  Nat.ltb h 24 && Nat.ltb m 60 = true -> h < 24 /\ m < 60.
Proof.
  intros H. apply andb_true_iff in H as [H1 H2].
  apply Nat.ltb_lt in H1, H2. done.
Qed.

Lemma times_canonical (c : Validate.csv_row) sh eh st et agency account ar mn mx d f :
  dt_hour_float (Validate.Start_Time c) = Some sh ->
  dt_hour_float (Validate.End_Time c) = Some eh ->
  dt_strftime (Validate.Start_Time c) = Some st ->
  dt_strftime (Validate.End_Time c) = Some et ->
  canonical {| agency_number := agency; account_name := account; area := ar;
               min_weight := mn; max_weight := mx; day := d; frequency := f;
               start_hour := sh; end_hour := eh;
               start_time_str := st; end_time_str := et |}.
Proof.
  destruct (Validate.Start_Time c) as [h m Hr| |]; [| done..].
  destruct (Validate.End_Time c) as [h2 m2 Hr2| |]; [| done..].
  simpl. intros [= <-] [= <-] [= <-] [= <-].
  apply in_range_lt in Hr as [? ?]. apply in_range_lt in Hr2 as [? ?].
  exists h, m, h2, m2. simpl. repeat split; auto.
Qed.

Lemma merge_check_row_canonical c r :
  Validate.merge_check_row c = Some r -> canonical r.
Proof.
  unfold Validate.merge_check_row. intros H.
  repeat case_match; try done. injection H as <-.
  by eapply times_canonical.
Qed.

Lemma check_row_canonical idx c r :
  Validate.check_row idx c = inr r -> canonical r.
Proof.
  unfold Validate.check_row, Validate.parse_times. intros H.
  repeat case_match; try done. simplify_eq.
  by eapply times_canonical.
Qed.

Lemma merge_new_rows_canonical idx rows new_rows :
  Validate.merge_new_rows idx rows = inr new_rows -> Forall canonical new_rows.
Proof.
  revert idx new_rows. induction rows as [|c rows IH]; intros idx new_rows H; simpl in H.
  - injection H as <-. constructor.
  - destruct (Validate.merge_check_row c) as [r|] eqn:Hc; [| done].
    destruct (Validate.merge_new_rows (S idx) rows) as [e | rs] eqn:Hrs; [done |].
    injection H as <-. constructor; [by eapply merge_check_row_canonical | by eapply IH].
Qed.

Variable E : collaborators.
Hypothesis HE : parsers_read_HM E.

Abbreviation derived l := (Forall (fun a => hours_derived (fields a)) l).

Lemma recurring_upload_rows_derived n idx rows defs :
  Validate.recurring_upload_rows E n idx rows = inr defs -> derived defs.
Proof.
  revert n idx defs. induction rows as [|c rows IH]; intros n idx defs H; simpl in H.
  - injection H as <-. constructor.
  - destruct (Validate.check_row idx c) as [e | r] eqn:Hc; [done |].
    destruct (Validate.recurring_upload_rows E (S n) (S idx) rows) as [e | ds] eqn:Hds;
      [done |].
    injection H as <-. constructor; [| by eapply IH].
    simpl. apply canonical_hours_derived. by eapply check_row_canonical.
Qed.

Lemma hour_of_text_strftime h m x :
  h < 24 -> m < 60 ->
  Validate.hour_of_text E (strftime_HM h m) = Some x ->
  x = Py.hour_float (Z.of_nat h) (Z.of_nat m).
Proof.
  intros Hh Hm. unfold Validate.hour_of_text.
  rewrite split_on_strftime.
  rewrite !(py_int_two_digits E HE) by lia.
  intros H. repeat case_match; congruence.
Qed.

Lemma add_recurring_derived n f a :
  Validate.add_recurring E n f = inr a -> hours_derived (fields a).
Proof.
  unfold Validate.add_recurring. intros H.
  repeat case_match; try done. injection H as <-. simpl.
  split; intros h m Hh Hm Heq; simpl in *; rewrite Heq in *;
    by eapply hour_of_text_strftime.
Qed.

Lemma edit_fields_derived p r :
  Validate.edit_fields E p = Some r -> hours_derived r.
Proof.
  unfold Validate.edit_fields. intros H.
  repeat case_match; try done. injection H as <-.
  split; intros h m Hh Hm Heq; simpl in *; rewrite Heq in *;
    rewrite (strptime_strftime E HE) in * by lia; congruence.
Qed.

Lemma update_first_derived appt_id r l l' :
  hours_derived r -> derived l ->
  Validate.update_first appt_id r l = Some l' -> derived l'.
Proof.
  intros Hr. revert l'. induction l as [|a l IH]; intros l' Hl H; simpl in H; [done |].
  apply Forall_cons in Hl as [Ha Hl].
  destruct (String.eqb (id a) appt_id).
  - injection H as <-. by constructor.
  - destruct (Validate.update_first appt_id r l) as [l2|]; [| done].
    injection H as <-. constructor; [done | by apply IH].
Qed.

Lemma merged_derived l n new_rows :
  derived l -> Forall canonical new_rows ->
  derived (merged (merge (uuid4 E) n l new_rows)).
Proof.
  intros Hl Hrows.
  destruct (merge_shape (uuid4 E) l new_rows n) as (new & -> & Hf & _).
  apply Forall_app. split.
  - apply Forall_forall. intros d Hd. apply canonical_hours_derived.
    apply (proj1 (Forall_forall _ _) Hrows). rewrite <- Hf.
    by apply (list_elem_of_fmap_2 fields).
  - apply Forall_forall. intros d Hd. apply list_elem_of_filter in Hd as [_ Hd].
    by apply (proj1 (Forall_forall _ _) Hl).
Qed.

(** The invariant of the document. *)
Lemma reachable_hours_derived l : reachable E l -> derived l.
Proof.
  induction 1 as [| n rows defs Hup | l n f a _ IH Hadd | l p r l' _ IH Hed Hup
                 | l appt_id _ IH | l n rows new_rows _ IH Hrows].
  - constructor.
  - by eapply recurring_upload_rows_derived.
  - apply Forall_app. split; [done |]. constructor; [| constructor].
    by eapply add_recurring_derived.
  - eapply update_first_derived; [| done | done]. by eapply edit_fields_derived.
  - apply Forall_forall. intros d Hd. apply list_elem_of_filter in Hd as [_ Hd].
    by apply (proj1 (Forall_forall _ _) IH).
  - apply merged_derived; [done |]. by eapply merge_new_rows_canonical.
Qed.

(** Every write path checks the day and the frequency. *)
Lemma not_not_elem_of (x : string) (l : list string) :
  bool_decide (x ∉ l) = false -> x ∈ l.
Proof.
  intros H. apply bool_decide_eq_false_1 in H.
  destruct (decide (x ∈ l)); [done | by exfalso; apply H].
Qed.

Lemma check_row_valid idx c r :
  Validate.check_row idx c = inr r -> day r ∈ weekdays /\ frequency r ∈ ordinals.
Proof.
  unfold Validate.check_row. intros H.
  destruct (bool_decide (Validate.Day c ∉ weekdays)) eqn:Hd; [done |].
  destruct (bool_decide (Validate.Frequency c ∉ ordinals)) eqn:Hf; [done |].
  repeat case_match; try done. simplify_eq. simpl.
  split; by apply not_not_elem_of.
Qed.

Lemma merge_check_row_valid c r :
  Validate.merge_check_row c = Some r -> day r ∈ weekdays /\ frequency r ∈ ordinals.
Proof.
  unfold Validate.merge_check_row. intros H.
  destruct (bool_decide (Validate.Day c ∉ weekdays)) eqn:Hd; [done |].
  destruct (bool_decide (Validate.Frequency c ∉ ordinals)) eqn:Hf; [done |].
  simpl in H. repeat case_match; try done. simplify_eq. simpl.
  split; by apply not_not_elem_of.
Qed.

Lemma when_nil b e : Validate.when b e = [] -> b = false.
Proof. by destruct b. Qed.

Lemma add_recurring_valid n f a :
  Validate.add_recurring E n f = inr a -> Pattern.valid a.
Proof.
  unfold Validate.add_recurring. intros H.
  destruct (Validate.add_errors E f) eqn:Herr; [| by repeat case_match].
  repeat case_match; try done. injection H as <-.
  unfold Validate.add_errors in Herr.
  repeat (apply app_eq_nil in Herr as [? Herr]).
  repeat match goal with H : Validate.when _ _ = [] |- _ => apply when_nil in H end.
  split; simpl; by apply not_not_elem_of.
Qed.

Lemma edit_fields_valid p r :
  Validate.edit_fields E p = Some r -> day r ∈ weekdays /\ frequency r ∈ ordinals.
Proof.
  unfold Validate.edit_fields. intros H.
  destruct (bool_decide (Validate.p_day p ∉ weekdays)) eqn:Hd.
  { by rewrite !orb_true_r in H. }
  destruct (bool_decide (Validate.p_frequency p ∉ ordinals)) eqn:Hf.
  { by rewrite !orb_true_r in H. }
  repeat case_match; try done. injection H as <-. simpl.
  split; by apply not_not_elem_of.
Qed.

Lemma reachable_valid l : reachable E l -> Forall Pattern.valid l.
Proof.
  induction 1 as [| n rows defs Hup | l n f a _ IH Hadd | l p r l' _ IH Hed Hup
                 | l appt_id _ IH | l n rows new_rows _ IH Hrows].
  - constructor.
  - revert n defs Hup. generalize 0 as idx.
    induction rows as [|c rows IHr]; intros idx n defs Hup; simpl in Hup.
    + injection Hup as <-. constructor.
    + destruct (Validate.check_row idx c) as [e | r] eqn:Hc; [done |].
      destruct (Validate.recurring_upload_rows E (S n) (S idx) rows) as [e | ds] eqn:Hds;
        [done |].
      injection Hup as <-. constructor; [| by eapply IHr].
      apply check_row_valid in Hc. unfold Pattern.valid. simpl. tauto.
  - apply Forall_app. split; [done |]. constructor; [| constructor].
    by eapply add_recurring_valid.
  - apply edit_fields_valid in Hed. clear -IH Hed Hup.
    revert l' Hup. induction l as [|a l IHl]; intros l' Hup; simpl in Hup; [done |].
    apply Forall_cons in IH as [Ha Hl].
    destruct (String.eqb (id a) (Validate.p_id p)).
    + injection Hup as <-. constructor; [| done]. unfold Pattern.valid. simpl. tauto.
    + destruct (Validate.update_first (Validate.p_id p) r l) as [l2|]; [| done].
      injection Hup as <-. constructor; [done | by apply IHl].
  - apply Forall_forall. intros d Hd. apply list_elem_of_filter in Hd as [_ Hd].
    by apply (proj1 (Forall_forall _ _) IH).
  - destruct (merge_shape (uuid4 E) l new_rows n) as (new & -> & Hf & _).
    apply Forall_app. split.
    + apply Forall_forall. intros d Hd.
      assert (fields d ∈ new_rows) as Hin
        by (rewrite <- Hf; by apply (list_elem_of_fmap_2 fields)).
      unfold Pattern.valid. revert Hin. generalize (fields d) as r0. intros r0 Hin.
      clear -Hin Hrows. revert new_rows Hin Hrows. generalize 0 as idx.
      induction rows as [|c rows IHr]; intros idx new_rows Hin Hrows; simpl in Hrows.
      * injection Hrows as <-. by apply elem_of_nil in Hin.
      * destruct (Validate.merge_check_row c) as [r|] eqn:Hc; [| done].
        destruct (Validate.merge_new_rows (S idx) rows) as [e | rs] eqn:Hrs; [done |].
        injection Hrows as <-. apply elem_of_cons in Hin as [-> | Hin].
        -- apply merge_check_row_valid in Hc. tauto.
        -- by eapply IHr.
    + apply Forall_forall. intros d Hd. apply list_elem_of_filter in Hd as [_ Hd].
      by apply (proj1 (Forall_forall _ _) IH).
Qed.

(** For a CSV row against a stored definition with the same natural key,
    the weights are all that is left to compare. *)
Lemma fields_equal_identical ex r :
  hours_derived (fields ex) -> canonical r -> _key (fields ex) = _key r ->
  fields_equal (fields ex) r = identical ex r.
Proof.
  intros [Hs He] (h & m & h2 & m2 & Hh & Hm & Hh2 & Hm2 & Hrs & Hrsh & Hre & Hreh) Hk.
  unfold _key in Hk. injection Hk as K1 K2 K3 K4 K5 K6 K7.
  unfold fields_equal, identical.
  rewrite K1, K2, K3, K4, K5, K6, K7, !String.eqb_refl.
  rewrite (Hs h m), (He h2 m2), Hrsh, Hreh by congruence.
  rewrite !hour_float_eqb_refl by done.
  simpl. by rewrite !andb_true_r.
Qed.

Lemma merge_lookup_new existing rows n0 i r :
  rows !! i = Some r ->
  exists d,
    merged (merge (uuid4 E) n0 existing rows) !! i = Some d /\ fields d = r /\
    match existing_map existing !! _key r with
    | Some ex =>
        if identical ex r then id d = id ex
        else (exists j, n0 <= j /\ id d = uuid4 E j)
             /\ id ex ∈ replaced_ids (merge (uuid4 E) n0 existing rows)
    | None => exists j, n0 <= j /\ id d = uuid4 E j
    end.
Proof.
  intros Hi.
  destruct (run_lookup (uuid4 E) (existing_map existing) rows (init n0) i r Hi)
    as (d & Hd & Hf & Hcase). simpl in Hd.
  exists d. split; [| split; [done |]].
  - unfold merge. simpl. by apply lookup_app_l_Some.
  - destruct (existing_map existing !! _key r) as [ex|];
      [destruct (identical ex r) |]; auto.
    + destruct Hcase as [(j & Hj & ->) Hrep]. simpl in Hj. split; [| done].
      exists j. split; [lia | done].
    + destruct Hcase as (j & Hj & ->). simpl in Hj. exists j. split; [lia | done].
Qed.



End ReachFacts.

(* ===================================================================== *)
(** * Properties of the pattern list *)
(* ===================================================================== *)

Section PatternFacts.
Import Pattern.

Implicit Types (p q : t) (a : Recurring.appt) (defs : list Recurring.appt).

Lemma index_is_Some x l : x ∈ l -> is_Some (index x l).
Proof.
  induction l as [|y l IH]; intros H; [by apply elem_of_nil in H |].
  simpl. destruct (String.eqb y x) eqn:E; [by eexists |].
  apply elem_of_cons in H as [-> | H]; [by rewrite String.eqb_refl in E |].
  destruct (IH H) as [i ->]. by eexists.
Qed.

Lemma index_inj x y l i : index x l = Some i -> index y l = Some i -> x = y.
Proof.
  revert i. induction l as [|z l IH]; intros i Hx Hy; [done |].
  simpl in Hx, Hy.
  destruct (String.eqb z x) eqn:Ex, (String.eqb z y) eqn:Ey.
  - apply String.eqb_eq in Ex, Ey. congruence.
  - destruct (index y l); simplify_eq.
  - destruct (index x l); simplify_eq.
  - destruct (index x l) as [ix|] eqn:Hix, (index y l) as [iy|] eqn:Hiy;
      simpl in Hx, Hy; simplify_eq.
    by eapply IH.
Qed.

Lemma built_pat_of a : valid a -> built (pat_of a).
Proof. intros [Hd Hf]. by repeat split. Qed.

Lemma built_sort_key p : built p -> is_Some (sort_key p).
Proof.
  intros (_ & Hf & Hd). unfold sort_key, ordinals_order, weekdays_order.
  destruct (index_is_Some _ _ Hf) as [i ->].
  destruct (index_is_Some _ _ Hd) as [j ->]. by eexists.
Qed.

Lemma built_sort_key_inj p q k :
  built p -> built q -> sort_key p = Some k -> sort_key q = Some k -> p = q.
Proof.
  intros (Hlp & _) (Hlq & _). unfold sort_key. intros Hp Hq.
  destruct (index (frequency p) ordinals_order) as [i|] eqn:Hi; [| done].
  destruct (index (day p) weekdays_order) as [j|] eqn:Hj; [| done].
  destruct (index (frequency q) ordinals_order) as [i'|] eqn:Hi'; [| done].
  destruct (index (day q) weekdays_order) as [j'|] eqn:Hj'; [| done].
  simplify_eq.
  assert (frequency p = frequency q) as Hf by (by eapply index_inj).
  assert (day p = day q) as Hd by (by eapply index_inj).
  destruct p, q. simpl in *. congruence.
Qed.

(** Distinct (frequency, day) pairs of the enumerations have distinct
    labels. *)
Lemma label_of_inj f d f' d' :
  f ∈ ordinals -> d ∈ weekdays -> f' ∈ ordinals -> d' ∈ weekdays ->
  label_of f d = label_of f' d' -> f = f' /\ d = d'.
Proof.
  intros Hf Hd Hf' Hd' Heq.
  assert (List.forallb (fun x : string * string =>
            List.forallb (fun y : string * string =>
              implb (String.eqb (label_of x.1 x.2) (label_of y.1 y.2))
                    (String.eqb x.1 y.1 && String.eqb x.2 y.2))
              (list_prod ordinals weekdays))
            (list_prod ordinals weekdays) = true) as Hall by (vm_compute; reflexivity).
  rewrite List.forallb_forall in Hall.
  specialize (Hall (f, d)). rewrite List.forallb_forall in Hall.
  specialize (Hall ltac:(apply in_prod; by apply list_elem_of_In) (f', d')
                   ltac:(apply in_prod; by apply list_elem_of_In)).
  simpl in Hall. rewrite Heq, String.eqb_refl in Hall. simpl in Hall.
  apply andb_true_iff in Hall as [H1 H2].
  by apply String.eqb_eq in H1, H2.
Qed.

(** ** The loop *)

Lemma see_collected seen_defs st a :
  collected seen_defs st -> collected (seen_defs ++ [a]) (see st a).
Proof.
  intros (Hseen & Hnd & Hfrom & Hall). unfold see.
  fold (pat_of a). set (lbl := label_of _ _).
  case_bool_decide as Hin.
  - repeat split; auto.
    + apply Hseen.
    + apply Hseen.
    + intros p Hp. destruct (Hfrom p Hp) as (a' & Ha' & ->).
      exists a'. split; [| done]. apply elem_of_app. by left.
    + intros a' Ha'. apply elem_of_app in Ha' as [Ha' | Ha']; [by apply Hall |].
      apply list_elem_of_singleton in Ha' as ->. by apply Hseen.
  - unfold collected. simpl. rewrite fmap_app. simpl.
    split; [| split; [| split]].
    + intros l.
      rewrite elem_of_union, elem_of_singleton, elem_of_app, list_elem_of_singleton.
      rewrite Hseen. tauto.
    + apply NoDup_app. repeat split; auto.
      * intros l Hl Hl'. apply list_elem_of_singleton in Hl' as ->.
        apply Hin. by apply Hseen.
      * apply NoDup_singleton.
    + intros p Hp. apply elem_of_app in Hp as [Hp | Hp].
      * destruct (Hfrom p Hp) as (a' & Ha' & ->).
        exists a'. split; [| done]. apply elem_of_app. by left.
      * apply list_elem_of_singleton in Hp as ->.
        exists a. split; [| done]. apply elem_of_app. right. by apply list_elem_of_singleton.
    + intros a' Ha'. apply elem_of_app in Ha' as [Ha' | Ha'].
      * apply elem_of_app. left. by apply Hall.
      * apply list_elem_of_singleton in Ha' as ->.
        apply elem_of_app. right. by apply list_elem_of_singleton.
Qed.

Lemma foldl_see_collected defs seen_defs st :
  collected seen_defs st -> collected (seen_defs ++ defs) (foldl see st defs).
Proof.
  revert seen_defs st. induction defs as [|a defs IH]; intros seen_defs st H; simpl.
  - by rewrite app_nil_r.
  - replace (seen_defs ++ a :: defs) with ((seen_defs ++ [a]) ++ defs)
      by (by rewrite <- app_assoc).
    apply IH. by apply see_collected.
Qed.

Lemma collect_collected defs : collected defs (foldl see (∅, []) defs).
Proof.
  apply (foldl_see_collected defs [] (∅, [])).
  unfold collected. simpl. split; [| split; [| split]].
  - intros l. split; intros H; [by apply not_elem_of_empty in H | by apply elem_of_nil in H].
  - constructor.
  - intros p Hp. by apply elem_of_nil in Hp.
  - intros a Ha. by apply elem_of_nil in Ha.
Qed.

Lemma collect_NoDup_labels defs : NoDup (label <$> collect defs).
Proof. apply (collect_collected defs). Qed.

Lemma collect_elem_of defs p :
  Forall valid defs ->
  p ∈ collect defs <-> exists a, a ∈ defs /\ p = pat_of a.
Proof.
  intros Hvalid. rewrite Forall_forall in Hvalid.
  destruct (collect_collected defs) as (_ & _ & Hfrom & Hall). split.
  - apply Hfrom.
  - intros (a & Ha & ->). apply Hall in Ha as Hl.
    apply list_elem_of_fmap in Hl as (q & Hlq & Hq).
    destruct (Hfrom q Hq) as (a' & Ha' & ->).
    destruct (Hvalid a Ha) as [Hd Hf]. destruct (Hvalid a' Ha') as [Hd' Hf'].
    simpl in Hlq. apply label_of_inj in Hlq as [Ef Ed]; auto.
    unfold collect. replace (pat_of a) with (pat_of a'); [done |].
    unfold pat_of. by rewrite Ef, Ed.
Qed.

Lemma collect_built defs : Forall valid defs -> Forall built (collect defs).
Proof.
  intros Hvalid. apply Forall_forall. intros p Hp.
  apply collect_elem_of in Hp as (a & Ha & ->); [| done].
  apply built_pat_of. by apply (proj1 (Forall_forall _ _) Hvalid).
Qed.

(** ** The sort *)

Lemma key_le_spec (x y : nat * nat) :
  key_le x y = true <-> x.1 < y.1 \/ (x.1 = y.1 /\ x.2 <= y.2).
Proof.
  unfold key_le.
  rewrite orb_true_iff, andb_true_iff, Nat.ltb_lt, Nat.eqb_eq, Nat.leb_le. done.
Qed.

Lemma key_le_total (x y : nat * nat) : key_le x y = false -> key_le y x = true.
Proof.
  intros H. apply key_le_spec.
  assert (~ (x.1 < y.1 \/ (x.1 = y.1 /\ x.2 <= y.2))) as Hn.
  { rewrite <- key_le_spec. by rewrite H. }
  lia.
Qed.

Lemma key_le_antisym (x y : nat * nat) :
  key_le x y = true -> key_le y x = true -> x = y.
Proof.
  rewrite !key_le_spec. destruct x, y. simpl. intros H1 H2.
  f_equal; lia.
Qed.

#[local] Instance pair_le_trans : Transitive pair_le.
Proof.
  intros x y z. unfold pair_le. rewrite !key_le_spec. lia.
Qed.

Lemma insert_sorted_perm x l : insert_sorted x l ≡ₚ x :: l.
Proof.
  induction l as [|y l IH]; simpl; [done |].
  destruct (key_le x.1 y.1); [done |].
  rewrite IH. apply Permutation_swap.
Qed.

Lemma insert_sorted_Sorted x l : Sorted pair_le l -> Sorted pair_le (insert_sorted x l).
Proof.
  induction l as [|y l IH]; intros Hl; simpl.
  - repeat constructor.
  - destruct (key_le x.1 y.1) eqn:E.
    + constructor; [done |]. by constructor.
    + apply Sorted_inv in Hl as [Hl Hhd].
      constructor; [by apply IH |].
      destruct l as [|z l]; simpl.
      * constructor. by apply key_le_total.
      * destruct (key_le x.1 z.1); constructor.
        -- by apply key_le_total.
        -- by apply HdRel_inv in Hhd.
Qed.

Lemma stable_sort_perm l : stable_sort l ≡ₚ l.
Proof.
  induction l as [|x l IH]; simpl; [done |].
  by rewrite insert_sorted_perm, IH.
Qed.

Lemma stable_sort_Sorted l : Sorted pair_le (stable_sort l).
Proof.
  induction l as [|x l IH]; simpl; [constructor | by apply insert_sorted_Sorted].
Qed.

Lemma zip_keys (l : list t) (keys : list (nat * nat)) :
  Forall2 (fun p k => sort_key p = Some k) l keys ->
  Forall (fun x => sort_key x.2 = Some x.1) (zip keys l)
  /\ (zip keys l).*2 = l.
Proof.
  induction 1 as [|p k l keys Hpk _ [IH1 IH2]]; simpl.
  - split; [constructor | done].
  - split; [by constructor | f_equal; exact IH2].
Qed.

Lemma keyed_sorted (l : list ((nat * nat) * t)) :
  Forall (fun x => sort_key x.2 = Some x.1) l ->
  StronglySorted pair_le l -> StronglySorted key_order l.*2.
Proof.
  intros Hall Hs. induction Hs as [|x l Hs IH Hx]; simpl; [constructor |].
  apply Forall_cons in Hall as [Hkx Hall].
  constructor; [by apply IH |].
  apply Forall_fmap. apply Forall_forall. intros y Hy. simpl.
  unfold key_order. rewrite Hkx.
  rewrite (proj1 (Forall_forall _ _) Hall y Hy).
  by apply (proj1 (Forall_forall _ _) Hx).
Qed.

(** On patterns built from valid definitions the sort raises nothing and
    returns the same patterns in the order of their keys. *)
Lemma sort_patterns_spec l :
  Forall built l ->
  exists pats, sort_patterns l = Some pats /\ pats ≡ₚ l /\ StronglySorted key_order pats.
Proof.
  intros Hb. unfold sort_patterns.
  destruct (mapM sort_key l) as [keys|] eqn:Hkeys.
  2:{ apply mapM_None in Hkeys. apply Exists_exists in Hkeys as (p & Hp & Hnone).
      destruct (built_sort_key p (proj1 (Forall_forall _ _) Hb p Hp)) as [k Hk].
      congruence. }
  apply mapM_Some in Hkeys. destruct (zip_keys l keys Hkeys) as [Hall Hsnd].
  eexists. split; [done | split].
  - rewrite stable_sort_perm. by rewrite Hsnd.
  - apply keyed_sorted.
    + by rewrite stable_sort_perm.
    + apply Sorted_StronglySorted; [apply _ | apply stable_sort_Sorted].
Qed.

Lemma key_order_antisym p q :
  built p -> built q -> key_order p q -> key_order q p -> p = q.
Proof.
  intros Hp Hq. unfold key_order.
  destruct (built_sort_key p Hp) as [kp Hkp], (built_sort_key q Hq) as [kq Hkq].
  rewrite Hkp, Hkq. intros H1 H2.
  apply (built_sort_key_inj p q kp); auto.
  by rewrite (key_le_antisym kp kq).
Qed.

Lemma derive_spec defs :
  Forall valid defs ->
  exists pats,
    derive defs = Some pats /\ pats ≡ₚ collect defs
    /\ StronglySorted key_order pats /\ Forall built pats.
Proof.
  intros Hv. pose proof (collect_built defs Hv) as Hb.
  destruct (sort_patterns_spec _ Hb) as (pats & Hs & Hperm & Hsorted).
  exists pats. repeat split; auto. by rewrite Hperm.
Qed.

Lemma collect_Permutation defs defs' :
  Forall valid defs -> defs' ≡ₚ defs -> collect defs' ≡ₚ collect defs.
Proof.
  intros Hv Hperm.
  assert (Forall valid defs') as Hv' by (by rewrite Hperm).
  apply NoDup_Permutation.
  - eapply NoDup_fmap_1, collect_NoDup_labels.
  - eapply NoDup_fmap_1, collect_NoDup_labels.
  - intros p. rewrite !collect_elem_of by done.
    split; intros (a & Ha & ->); exists a; split; auto.
    + by rewrite <- Hperm.
    + by rewrite Hperm.
Qed.

(** C6.  For definitions whose day and frequency are members of the two
    enumerations, the pattern computation raises nothing; its result has
    no two entries with the same label, is sorted ascending by (index of
    the frequency in the ordinals, index of the day in the weekdays), and
    is the same for every reordering of the definitions.  Definitions
    labelled Third Friday, First Monday, First Monday, Second Monday give
    First Monday, Second Monday, Third Friday. *)
Theorem derive_dedup_sorted_order_independent :
  (forall defs, Forall valid defs ->
     exists pats,
       derive defs = Some pats
       /\ NoDup (label <$> pats)
       /\ StronglySorted key_order pats
       /\ (forall defs', defs' ≡ₚ defs -> derive defs' = Some pats))
  /\ derive Examples.four_defs
     = Some [ {| label := "First Monday"; frequency := "First"; day := "Monday" |};
              {| label := "Second Monday"; frequency := "Second"; day := "Monday" |};
              {| label := "Third Friday"; frequency := "Third"; day := "Friday" |} ].
Proof.
  split; [| by vm_compute].
  intros defs Hv.
  destruct (derive_spec defs Hv) as (pats & Hd & Hperm & Hsorted & Hbuilt).
  exists pats. split; [done | split; [| split; [done |]]].
  - rewrite Hperm. apply collect_NoDup_labels.
  - intros defs' Hp.
    assert (Forall valid defs') as Hv' by (by rewrite Hp).
    destruct (derive_spec defs' Hv') as (pats' & Hd' & Hperm' & Hsorted' & Hbuilt').
    rewrite Hd'. f_equal.
    apply (StronglySorted_unique_strong key_order); auto.
    + intros p q Hp' Hq. apply key_order_antisym.
      * by apply (proj1 (Forall_forall _ _) Hbuilt').
      * by apply (proj1 (Forall_forall _ _) Hbuilt).
    + rewrite Hperm', Hperm. by apply collect_Permutation.
Qed.

End PatternFacts.

(* ===================================================================== *)
(** * Properties of the delete handlers *)
(* ===================================================================== *)

Section CleanerFacts.
Import Cleaner.

Implicit Types (appt_id : string) (sl : slots) (a : assignments) (s : state).

Lemma filter_absent appt_id (l : list string) :
  appt_id ∉ l -> filter (fun i => i ≠ appt_id) l = l.
Proof.
  induction l as [|x l IH]; intros H; [done |].
  apply not_elem_of_cons in H as [Hne Hl].
  rewrite filter_cons_True by done. by rewrite IH.
Qed.

Lemma filter_removes appt_id (l : list string) :
  appt_id ∉ filter (fun i => i ≠ appt_id) l.
Proof. intros H. apply list_elem_of_filter in H as [H _]. done. Qed.

Lemma clean_slots_spec appt_id sl modified :
  clean_slots appt_id sl modified
  = (purge_slots appt_id sl,
     modified || bool_decide (appt_id ∈ flat_map snd sl)).
Proof.
  revert modified.
  induction sl as [|[slotKey id_list] rest IH]; intros modified.
  - simpl. by rewrite orb_false_r.
  - cbn [clean_slots]. rewrite !IH.
    unfold purge_slots. rewrite fmap_cons. cbn [flat_map fst snd].
    destruct (decide (appt_id ∈ id_list)) as [Hin | Hin].
    + rewrite (bool_decide_eq_true_2 _ Hin).
      rewrite (bool_decide_eq_true_2 (appt_id ∈ id_list ++ flat_map snd rest))
        by (apply elem_of_app; by left).
      by rewrite orb_true_r.
    + rewrite (bool_decide_eq_false_2 _ Hin). rewrite filter_absent by done.
      f_equal. f_equal. apply bool_decide_ext. rewrite elem_of_app. tauto.
Qed.

Lemma clean_spec appt_id a modified :
  clean appt_id a modified
  = (purge appt_id a, modified || bool_decide (appt_id ∈ ids_of a)).
Proof.
  unfold ids_of. revert modified.
  induction a as [|[date_str sl] rest IH]; intros modified.
  - simpl. by rewrite orb_false_r.
  - cbn [clean]. rewrite clean_slots_spec, IH. simpl. f_equal.
    rewrite <- orb_assoc. f_equal.
    destruct (bool_decide (appt_id ∈ flat_map snd sl)) eqn:E1.
    + apply bool_decide_eq_true_1 in E1. simpl. symmetry.
      apply bool_decide_eq_true_2. apply elem_of_app. by left.
    + apply bool_decide_eq_false_1 in E1. simpl.
      apply bool_decide_ext. rewrite elem_of_app. tauto.
Qed.

Lemma purge_absent appt_id a : appt_id ∉ ids_of a -> purge appt_id a = a.
Proof.
  unfold ids_of, purge. induction a as [|[date_str sl] rest IH]; intros H; [done |].
  simpl in H. rewrite elem_of_app in H.
  rewrite fmap_cons, IH by tauto. simpl. f_equal. f_equal.
  assert (appt_id ∉ flat_map snd sl) as Hsl by tauto. clear -Hsl.
  unfold purge_slots. induction sl as [|[k l] sl IH]; [done |].
  simpl in Hsl. rewrite elem_of_app in Hsl.
  rewrite fmap_cons, IH by tauto. simpl. rewrite filter_absent by tauto. done.
Qed.

(** No sequence of the purged map holds the identifier. *)
Lemma purge_removes appt_id a : appt_id ∉ ids_of (purge appt_id a).
Proof.
  unfold ids_of, purge. induction a as [|[date_str sl] rest IH]; [apply not_elem_of_nil |].
  rewrite fmap_cons. simpl. rewrite elem_of_app. intros [H | H]; [| done].
  clear IH. unfold purge_slots in H. induction sl as [|[k l] sl IH]; simpl in H.
  - by apply elem_of_nil in H.
  - apply elem_of_app in H as [H | H]; [by apply filter_removes in H | done].
Qed.

Lemma cleanup_specific_spec appt_id s :
  cleanup_specific appt_id s
  = match specific_schedule s with
    | Parsed a =>
        if bool_decide (appt_id ∈ ids_of a)
        then save_specific_schedule (purge appt_id a) s else s
    | _ => s
    end.
Proof.
  unfold cleanup_specific. destruct (specific_schedule s); try done.
  by rewrite clean_spec.
Qed.

Lemma cleanup_recurring_spec appt_id s :
  cleanup_recurring appt_id s
  = match recurring_schedule s with
    | Parsed a =>
        if bool_decide (appt_id ∈ ids_of a)
        then save_recurring_schedule (purge appt_id a) s else s
    | _ => s
    end.
Proof.
  unfold cleanup_recurring. destruct (recurring_schedule s); try done.
  by rewrite clean_spec.
Qed.

Lemma filter_id_length {A : Type} (f : A -> string) appt_id (l : list A) :
  (appt_id ∈ f <$> l -> length (filter (fun x => f x ≠ appt_id) l) < length l)
  /\ (appt_id ∉ f <$> l -> filter (fun x => f x ≠ appt_id) l = l).
Proof.
  induction l as [|x l [IH1 IH2]]; split.
  - intros H. by apply elem_of_nil in H.
  - done.
  - rewrite fmap_cons. intros H. rewrite filter_cons.
    destruct (decide (f x ≠ appt_id)) as [Hne | Heq].
    + apply elem_of_cons in H as [H | H]; [done |]. simpl. apply IH1 in H. lia.
    + pose proof (length_filter (fun x => f x ≠ appt_id) l). simpl. lia.
  - rewrite fmap_cons. intros H. apply not_elem_of_cons in H as [Hne Hl].
    rewrite filter_cons_True by done. by rewrite IH2.
Qed.

Lemma cleanup_specific_cleaned appt_id s :
  exists written,
    writes (cleanup_specific appt_id s) = writes s ++ written
    /\ cleaned appt_id (specific_schedule s)
               (specific_schedule (cleanup_specific appt_id s)) written specific_schedules
    /\ specific_defs (cleanup_specific appt_id s) = specific_defs s.
Proof.
  rewrite cleanup_specific_spec. unfold cleaned.
  destruct (specific_schedule s) as [| |a] eqn:Hs.
  - exists []. rewrite app_nil_r, Hs. done.
  - exists []. rewrite app_nil_r, Hs. done.
  - case_bool_decide as Hin.
    + exists [specific_schedules]. simpl. repeat split. apply purge_removes.
    + exists []. rewrite app_nil_r, Hs, purge_absent by done.
      repeat split; auto.
Qed.

Lemma cleanup_recurring_cleaned appt_id s :
  exists written,
    writes (cleanup_recurring appt_id s) = writes s ++ written
    /\ cleaned appt_id (recurring_schedule s)
               (recurring_schedule (cleanup_recurring appt_id s)) written recurring_schedules
    /\ recurring_defs (cleanup_recurring appt_id s) = recurring_defs s.
Proof.
  rewrite cleanup_recurring_spec. unfold cleaned.
  destruct (recurring_schedule s) as [| |a] eqn:Hs.
  - exists []. rewrite app_nil_r, Hs. done.
  - exists []. rewrite app_nil_r, Hs. done.
  - case_bool_decide as Hin.
    + exists [recurring_schedules]. simpl. repeat split. apply purge_removes.
    + exists []. rewrite app_nil_r, Hs, purge_absent by done.
      repeat split; auto.
Qed.

(** C7.  When the identifier is that of a stored definition, each delete
    handler answers success, stores the definitions without it, and leaves
    in the saved assignment document the same dates (or pattern labels)
    and slot keys with every sequence filtered of the identifier, the
    other identifiers keeping their order: no sequence holds the
    identifier afterwards.  The assignment document is written only when
    some sequence held the identifier; an absent or unreadable assignment
    document is left alone.  For the recurring handler the stored
    definitions are taken to have their day and frequency in the two
    enumerations, as every write path checks, so that recomputing the
    cached patterns raises nothing. *)
Theorem delete_cleans_assignments :
  (forall s appt_id defs,
      specific_defs s = Parsed defs ->
      appt_id ∈ Specific.id <$> defs ->
      exists written,
        (delete_specific_appointment appt_id s).1 = Success
        /\ specific_defs (delete_specific_appointment appt_id s).2
           = Parsed (filter (fun x => Specific.id x ≠ appt_id) defs)
        /\ writes (delete_specific_appointment appt_id s).2
           = writes s ++ specific_definitions :: written
        /\ cleaned appt_id (specific_schedule s)
             (specific_schedule (delete_specific_appointment appt_id s).2)
             written specific_schedules)
  /\ (forall s appt_id defs,
      recurring_defs s = Parsed defs ->
      appt_id ∈ Recurring.id <$> defs ->
      Forall Pattern.valid defs ->
      exists written,
        (delete_recurring_appointment appt_id s).1 = Success
        /\ recurring_defs (delete_recurring_appointment appt_id s).2
           = Parsed (filter (fun x => Recurring.id x ≠ appt_id) defs)
        /\ writes (delete_recurring_appointment appt_id s).2
           = writes s ++ recurring_definitions :: written
        /\ cleaned appt_id (recurring_schedule s)
             (recurring_schedule (delete_recurring_appointment appt_id s).2)
             written recurring_schedules).
Proof.
  split.
  - intros s appt_id defs Hdefs Hin. unfold delete_specific_appointment. rewrite Hdefs.
    destruct (filter_id_length Specific.id appt_id defs) as [Hlt _].
    specialize (Hlt Hin).
    rewrite (proj2 (Nat.eqb_neq _ _)) by lia.
    match goal with |- context [cleanup_specific appt_id ?s2] => set (s' := s2) end.
    assert (specific_schedule s' = specific_schedule s
            /\ writes s' = writes s ++ [specific_definitions]
            /\ specific_defs s'
               = Parsed (filter (fun x => Specific.id x ≠ appt_id) defs)) as (Hs & Hw & Hd).
    { subst s'. simpl. destruct (data_store s) as [[[cached|] r]|]; done. }
    destruct (cleanup_specific_cleaned appt_id s') as (written & Hw' & Hc & Hd').
    exists written. simpl. rewrite Hw', Hw, Hd', Hd, <- Hs, <- app_assoc. done.
  - intros s appt_id defs Hdefs Hin Hvalid. unfold delete_recurring_appointment.
    rewrite Hdefs.
    destruct (filter_id_length Recurring.id appt_id defs) as [Hlt _].
    specialize (Hlt Hin).
    rewrite (proj2 (Nat.eqb_neq _ _)) by lia.
    set (new_apps := filter (fun x => Recurring.id x ≠ appt_id) defs).
    assert (Forall Pattern.valid new_apps) as Hv.
    { apply Forall_forall. intros x Hx. apply list_elem_of_filter in Hx as [_ Hx].
      by apply (proj1 (Forall_forall _ _) Hvalid). }
    destruct (derive_spec new_apps Hv) as (pats & Hpats & _).
    assert (exists s',
      (match data_store (save_recurring_definitions new_apps s) with
       | Some {| us_appointments := ap; us_recurring := Some rc |} =>
           match Pattern.derive new_apps with
           | Some patterns_new =>
               (Success,
                cleanup_recurring appt_id
                  (set_data_store
                     (Some {| us_appointments := ap;
                              us_recurring :=
                                Some {| rc_appointments := new_apps;
                                        rc_patterns := patterns_new |} |})
                     (save_recurring_definitions new_apps s)))
           | None =>
               (Error 500 "Internal Server Error",
                set_data_store
                  (Some {| us_appointments := ap;
                           us_recurring :=
                             Some {| rc_appointments := new_apps;
                                     rc_patterns := rc_patterns rc |} |})
                  (save_recurring_definitions new_apps s))
           end
       | _ => (Success, cleanup_recurring appt_id (save_recurring_definitions new_apps s))
       end) = (Success, cleanup_recurring appt_id s')
      /\ recurring_schedule s' = recurring_schedule s
      /\ writes s' = writes s ++ [recurring_definitions]
      /\ recurring_defs s' = Parsed new_apps) as (s' & -> & Hs & Hw & Hd).
    { rewrite Hpats. simpl.
      destruct (data_store s) as [[ap [rc|]]|]; eexists; split; try reflexivity; done. }
    destruct (cleanup_recurring_cleaned appt_id s') as (written & Hw' & Hc & Hd').
    exists written. simpl. rewrite Hw', Hw, Hd', Hd, <- Hs, <- app_assoc. done.
Qed.

(** C10.  Deleting by an identifier that no stored definition has answers
    404 "Appointment ID not found" and leaves the whole state as it was:
    the definitions, the saved assignments, the cached entry, and the log
    of writes.  The same holds, with the handler's other error answers,
    when there is no definitions document or it cannot be read. *)
Theorem delete_unknown_id_writes_nothing s appt_id :
  (forall defs, specific_defs s = Parsed defs -> appt_id ∉ Specific.id <$> defs ->
     delete_specific_appointment appt_id s
     = (Error 404 "Appointment ID not found", s))
  /\ (forall defs, recurring_defs s = Parsed defs -> appt_id ∉ Recurring.id <$> defs ->
     delete_recurring_appointment appt_id s
     = (Error 404 "Appointment ID not found", s))
  /\ (specific_defs s = Absent ->
      delete_specific_appointment appt_id s = (Error 400 "No definitions found", s))
  /\ (recurring_defs s = Absent ->
      delete_recurring_appointment appt_id s = (Error 400 "No definitions found", s))
  /\ (specific_defs s = Malformed ->
      delete_specific_appointment appt_id s
      = (Error 500 "Failed to parse definitions", s))
  /\ (recurring_defs s = Malformed ->
      delete_recurring_appointment appt_id s
      = (Error 500 "Failed to parse definitions", s)).
Proof.
  unfold delete_specific_appointment, delete_recurring_appointment.
  repeat split.
  - intros defs -> Hnot.
    rewrite (proj2 (filter_id_length Specific.id appt_id defs) Hnot).
    by rewrite Nat.eqb_refl.
  - intros defs -> Hnot.
    rewrite (proj2 (filter_id_length Recurring.id appt_id defs) Hnot).
    by rewrite Nat.eqb_refl.
  - by intros ->.
  - by intros ->.
  - by intros ->.
  - by intros ->.
Qed.

End CleanerFacts.

(* ===================================================================== *)
(** * Properties of the two downloads *)
(* ===================================================================== *)

Section DownloadFacts.
Import Download.

Implicit Types (a : assignments) (sl : slots) (s : state).

Lemma specific_ids_loop_spec lookup date_str slot_key out ids :
  specific_ids_loop lookup date_str slot_key out ids
  = out ++ omap (resolve_specific lookup)
                ((fun aid => (date_str, slot_key, aid)) <$> ids).
Proof.
  unfold specific_ids_loop. revert out.
  induction ids as [|aid ids IH]; intros out; simpl.
  - by rewrite app_nil_r.
  - rewrite IH. unfold resolve_specific at 2. simpl.
    destruct (lookup !! aid); simpl; [by rewrite <- app_assoc | done].
Qed.

Lemma specific_slots_loop_spec lookup date_str out sl :
  specific_slots_loop lookup date_str out sl
  = out ++ omap (resolve_specific lookup)
                (flat_map (fun kv => map (fun aid => (date_str, kv.1, aid)) kv.2) sl).
Proof.
  unfold specific_slots_loop. revert out.
  induction sl as [|[k ids] sl IH]; intros out; simpl.
  - by rewrite app_nil_r.
  - rewrite IH, specific_ids_loop_spec, omap_app, <- app_assoc. done.
Qed.

Lemma specific_rows_spec lookup a :
  specific_rows lookup a = omap (resolve_specific lookup) (pairs a).
Proof.
  unfold specific_rows, pairs.
  enough (forall out,
    foldl (fun out kv => specific_slots_loop lookup kv.1 out kv.2) out a
    = out ++ omap (resolve_specific lookup)
        (flat_map (fun d => flat_map (fun kv => map (fun aid => (d.1, kv.1, aid)) kv.2) d.2) a))
    as H by apply (H []).
  induction a as [|[d sl] a IH]; intros out; simpl.
  - by rewrite app_nil_r.
  - rewrite IH, specific_slots_loop_spec, omap_app, <- app_assoc. done.
Qed.

Lemma recurring_ids_loop_spec lookup pmap pat pattern_label slot_key out ids :
  pmap !! pattern_label = Some pat ->
  recurring_ids_loop lookup pat pattern_label slot_key out ids
  = out ++ omap (resolve_recurring lookup pmap)
                ((fun aid => (pattern_label, slot_key, aid)) <$> ids).
Proof.
  intros Hpat. unfold recurring_ids_loop. revert out.
  induction ids as [|aid ids IH]; intros out; simpl.
  - by rewrite app_nil_r.
  - rewrite IH. unfold resolve_recurring at 2. simpl. rewrite Hpat.
    destruct (lookup !! aid); simpl; [by rewrite <- app_assoc | done].
Qed.

Lemma recurring_slots_loop_spec lookup pmap pat pattern_label out sl :
  pmap !! pattern_label = Some pat ->
  recurring_slots_loop lookup pat pattern_label out sl
  = out ++ omap (resolve_recurring lookup pmap)
                (flat_map (fun kv => map (fun aid => (pattern_label, kv.1, aid)) kv.2) sl).
Proof.
  intros Hpat. unfold recurring_slots_loop. revert out.
  induction sl as [|[k ids] sl IH]; intros out; simpl.
  - by rewrite app_nil_r.
  - rewrite IH, (recurring_ids_loop_spec lookup pmap) by done.
    rewrite omap_app, <- app_assoc. done.
Qed.

Lemma omap_unknown_pattern lookup pmap pattern_label sl :
  pmap !! pattern_label = None ->
  omap (resolve_recurring lookup pmap)
       (flat_map (fun kv => map (fun aid => (pattern_label, kv.1, aid)) kv.2) sl) = [].
Proof.
  intros Hnone. induction sl as [|[k ids] sl IH]; simpl; [done |].
  rewrite omap_app, IH, app_nil_r.
  induction ids as [|aid ids IH']; simpl; [done |].
  unfold resolve_recurring at 1. simpl. by rewrite Hnone.
Qed.

Lemma recurring_rows_spec lookup pmap a :
  recurring_rows lookup pmap a = omap (resolve_recurring lookup pmap) (pairs a).
Proof.
  unfold recurring_rows, pairs.
  enough (forall out,
    foldl (fun out kv =>
             match pmap !! kv.1 with
             | Some pat => recurring_slots_loop lookup pat kv.1 out kv.2
             | None => out
             end) out a
    = out ++ omap (resolve_recurring lookup pmap)
        (flat_map (fun d => flat_map (fun kv => map (fun aid => (d.1, kv.1, aid)) kv.2) d.2) a))
    as H by apply (H []).
  induction a as [|[d sl] a IH]; intros out; simpl.
  - by rewrite app_nil_r.
  - rewrite IH, omap_app. destruct (pmap !! d) as [pat|] eqn:Hpat.
    + rewrite (recurring_slots_loop_spec lookup pmap) by done.
      by rewrite <- app_assoc.
    + by rewrite omap_unknown_pattern.
Qed.

Lemma length_omap_filter {X Y : Type} (g : X -> option Y) (l : list X) :
  length (omap g l) = length (filter (fun x => is_Some (g x)) l).
Proof.
  induction l as [|x l IH]; [done |].
  rewrite filter_cons. simpl. destruct (g x) as [y|] eqn:E.
  - rewrite decide_True by (by eexists). simpl. f_equal. exact IH.
  - rewrite decide_False by (by intros [? ?]). done.
Qed.

Lemma pairs_length a : length (pairs a) = length (Cleaner.ids_of a).
Proof.
  unfold pairs, Cleaner.ids_of. induction a as [|[d sl] a IH]; [done |].
  simpl. rewrite !length_app, IH. f_equal. clear IH.
  induction sl as [|[k ids] sl IH]; [done |].
  simpl. rewrite !length_app, IH, length_map. done.
Qed.

Lemma resolve_specific_is_Some defs p :
  is_Some (resolve_specific (specific_lookup defs) p) <-> p.2 ∈ Specific.id <$> defs.
Proof.
  unfold resolve_specific, specific_lookup.
  rewrite <- (dict_lookup_is_Some Specific.id). apply fmap_is_Some.
Qed.

Lemma resolve_recurring_is_Some defs pats p :
  is_Some (resolve_recurring (recurring_lookup defs) (pattern_map pats) p)
  <-> p.1.1 ∈ Pattern.label <$> pats /\ p.2 ∈ Recurring.id <$> defs.
Proof.
  unfold resolve_recurring, recurring_lookup, pattern_map.
  rewrite <- (dict_lookup_is_Some Pattern.label), <- (dict_lookup_is_Some Recurring.id).
  destruct (foldl _ _ pats !! p.1.1), (foldl _ _ defs !! p.2); split;
    intros H; try done; try (by split; eexists);
    destruct H as [[? ?] [? ?]]; done.
Qed.

(** C9, as amended.  With a definitions document and a saved assignment
    map, each download produces exactly one row for every (slot, id)
    occurrence of the map whose id is the identifier of a stored
    definition (for the recurring file, whose group label is moreover the
    label of a pattern derived from the definitions), in reading order,
    and nothing for the other occurrences; when no row results, as for a
    map without identifiers, the answer is the "nothing to download"
    message and no file. *)
Theorem download_rows_are_resolved_pairs :
  (forall s defs a,
      specific_defs s = Parsed defs ->
      specific_schedule s = Parsed a ->
      exists rows,
        rows = omap (resolve_specific (specific_lookup defs)) (pairs a)
        /\ length rows
           = length (filter (fun p => p.2 ∈ Specific.id <$> defs) (pairs a))
        /\ download_schedule s
           = match rows with
             | [] => Redirect "No appointments scheduled to download."
             | _ => Csv rows
             end
        /\ (Cleaner.ids_of a = [] ->
            download_schedule s = Redirect "No appointments scheduled to download."))
  /\ (forall s defs a pats,
      recurring_defs s = Parsed defs ->
      recurring_schedule s = Parsed a ->
      Pattern.derive defs = Some pats ->
      exists rows,
        rows = omap (resolve_recurring (recurring_lookup defs) (pattern_map pats)) (pairs a)
        /\ length rows
           = length (filter (fun p => p.1.1 ∈ Pattern.label <$> pats
                                      /\ p.2 ∈ Recurring.id <$> defs) (pairs a))
        /\ download_recurring_schedule s
           = Some match rows with
                  | [] => Redirect "No recurring assignments to download."
                  | _ => Csv rows
                  end
        /\ (Cleaner.ids_of a = [] ->
            download_recurring_schedule s
            = Some (Redirect "No recurring assignments to download."))).
Proof.
  split.
  - intros s defs a Hdefs Ha. eexists. split; [reflexivity |].
    assert (download_schedule s
            = match omap (resolve_specific (specific_lookup defs)) (pairs a) with
              | [] => Redirect "No appointments scheduled to download."
              | _ => Csv (omap (resolve_specific (specific_lookup defs)) (pairs a))
              end) as Hdl.
    { unfold download_schedule. rewrite Hdefs, Ha, specific_rows_spec.
      by destruct (omap _ _). }
    split; [| split; [done |]].
    + rewrite length_omap_filter. f_equal. apply filter_ext_elem.
      intros p _. apply resolve_specific_is_Some.
    + intros Hids. rewrite Hdl.
      assert (pairs a = []) as ->; [| done].
      apply length_zero_iff_nil. by rewrite pairs_length, Hids.
  - intros s defs a pats Hdefs Ha Hpats. eexists. split; [reflexivity |].
    assert (download_recurring_schedule s
            = Some match omap (resolve_recurring (recurring_lookup defs)
                                                 (pattern_map pats)) (pairs a) with
                   | [] => Redirect "No recurring assignments to download."
                   | _ => Csv (omap (resolve_recurring (recurring_lookup defs)
                                                       (pattern_map pats)) (pairs a))
                   end) as Hdl.
    { unfold download_recurring_schedule. rewrite Hdefs, Hpats, Ha, recurring_rows_spec.
      by destruct (omap _ _). }
    split; [| split; [done |]].
    + rewrite length_omap_filter. f_equal. apply filter_ext_elem.
      intros p _. apply resolve_recurring_is_Some.
    + intros Hids. rewrite Hdl.
      assert (pairs a = []) as ->; [| done].
      apply length_zero_iff_nil. by rewrite pairs_length, Hids.
Qed.

End DownloadFacts.

(* ===================================================================== *)
(** * Properties of the CSV loops *)
(* ===================================================================== *)

Section ValidateFacts.
Import Validate.

Lemma recurring_upload_rows_first_error E n idx pre bad post e :
  (forall i c, pre !! i = Some c -> exists r, check_row (idx + i) c = inr r) ->
  check_row (idx + length pre) bad = inl e ->
  recurring_upload_rows E n idx (pre ++ bad :: post) = inl e.
Proof.
  revert n idx. induction pre as [|c pre IH]; intros n idx Hpre Hbad; simpl.
  - simpl in Hbad. rewrite Nat.add_0_r in Hbad. by rewrite Hbad.
  - destruct (Hpre 0 c eq_refl) as [r Hr]. rewrite Nat.add_0_r in Hr. rewrite Hr.
    rewrite (IH (S n) (S idx)); [done | |].
    + intros i c' Hi. destruct (Hpre (S i) c' Hi) as [r' Hr']. exists r'.
      by replace (S idx + i) with (idx + S i) by lia.
    + simpl in Hbad. by replace (S idx + length pre) with (idx + S (length pre)) by lia.
Qed.

Lemma merge_new_rows_first_error idx pre bad post :
  (forall c, c ∈ pre -> is_Some (merge_check_row c)) ->
  merge_check_row bad = None ->
  merge_new_rows idx (pre ++ bad :: post) = inl (RowInvalid (idx + length pre + 2)).
Proof.
  revert idx. induction pre as [|c pre IH]; intros idx Hpre Hbad; simpl.
  - rewrite Hbad. by rewrite Nat.add_0_r.
  - destruct (Hpre c) as [r ->]; [left |].
    rewrite IH; [| intros; apply Hpre; by right | done].
    do 2 f_equal. lia.
Qed.

Lemma upload_specific_rows_length E n rows :
  length (upload_specific_rows E n rows) = length (filter (fun c => has_times c = true) rows).
Proof.
  revert n. induction rows as [|c rows IH]; intros n; [done |].
  rewrite filter_cons. simpl. unfold has_times.
  destruct (sc_Start_Time c), (sc_End_Time c); simpl; by rewrite ?IH.
Qed.

(** C8, as amended.  The bulk CSV loops do not collect row errors.
    [recurring_upload] answers with the message of the first invalid row
    alone (the first of its checks that fails), whatever the rows after it
    are; [upload_recurring_merge] likewise answers "Row N invalid" for the
    first invalid row; [upload_specific] reports no row at all: it keeps
    the rows whose two time cells are timestamps and drops the others. *)
Theorem bulk_import_stops_at_first_invalid_row :
  (forall E n idx pre bad post e,
      (forall i c, pre !! i = Some c -> exists r, check_row (idx + i) c = inr r) ->
      check_row (idx + length pre) bad = inl e ->
      recurring_upload_rows E n idx (pre ++ bad :: post) = inl e)
  /\ (forall idx pre bad post,
      (forall c, c ∈ pre -> is_Some (merge_check_row c)) ->
      merge_check_row bad = None ->
      merge_new_rows idx (pre ++ bad :: post) = inl (RowInvalid (idx + length pre + 2)))
  /\ (forall E n rows,
      length (upload_specific_rows E n rows)
      = length (filter (fun c => has_times c = true) rows)).
Proof.
  split; [| split].
  - apply recurring_upload_rows_first_error.
  - apply merge_new_rows_first_error.
  - apply upload_specific_rows_length.
Qed.

End ValidateFacts.

(* ===================================================================== *)
(** * The properties on concrete documents *)
(* ===================================================================== *)

(** Decides a closed decidable proposition by evaluation. *)
Ltac decide_by_compute :=
  match goal with
  | |- ?P => apply (bool_decide_unpack P); vm_compute; exact I
  end.

Section Instances.
Import Recurring Merge Examples.

Lemma xs_length n : String.length (xs n) = n.
Proof. induction n as [|n IH]; simpl; [done | by rewrite IH]. Qed.

Lemma uuids_inj i j : uuids i = uuids j -> i = j.
Proof.
  unfold uuids. intros H. apply (inj (String.app "uuid-")) in H.
  apply (f_equal String.length) in H. by rewrite !xs_length in H.
Qed.

(** Identifiers drawn from the second on are not those of [stored]. *)
Lemma uuids_fresh_for_stored j : 2 <= j -> uuids j ∉ ids_of stored.
Proof.
  intros Hj Hin. unfold ids_of, stored in Hin. simpl in Hin.
  apply elem_of_cons in Hin as [Hin | Hin].
  - apply uuids_inj in Hin. lia.
  - apply list_elem_of_singleton in Hin. apply uuids_inj in Hin. lia.
Qed.

Lemma plain_reads_HM : parsers_read_HM plain.
Proof.
  split.
  - intros n Hn.
    assert (List.forallb (fun n =>
              match int_of_digits (two_digits n) with
              | Some z => (z =? Z.of_nat n)%Z
              | None => false
              end) (seq 0 100) = true) as Hall by (vm_compute; reflexivity).
    rewrite List.forallb_forall in Hall.
    specialize (Hall n ltac:(apply List.in_seq; lia)).
    change (py_int plain (two_digits n)) with (int_of_digits (two_digits n)).
    destruct (int_of_digits (two_digits n)) as [z|]; [| done].
    apply Z.eqb_eq in Hall. by subst.
  - intros h m Hh Hm.
    assert (List.forallb (fun h => List.forallb (fun m =>
              match time_of_text (strftime_HM h m) with
              | Some (h', m') => Nat.eqb h' h && Nat.eqb m' m
              | None => false
              end) (seq 0 60)) (seq 0 24) = true) as Hall by (vm_compute; reflexivity).
    rewrite List.forallb_forall in Hall.
    specialize (Hall h ltac:(apply List.in_seq; lia)).
    rewrite List.forallb_forall in Hall.
    specialize (Hall m ltac:(apply List.in_seq; lia)).
    change (strptime_HM plain (strftime_HM h m)) with (time_of_text (strftime_HM h m)).
    destruct (time_of_text (strftime_HM h m)) as [[h' m']|]; [| done].
    apply andb_true_iff in Hall as [H1 H2].
    apply Nat.eqb_eq in H1, H2. by subst.
Qed.

Lemma stored_uploaded :
  Validate.recurring_upload_rows plain 0 0 [csvA (Py.Int 100); csvB] = inr stored.
Proof. vm_compute. reflexivity. Qed.

Lemma stored_reachable : Reach.reachable plain stored.
Proof. exact (Reach.reach_upload plain 0 _ _ stored_uploaded). Qed.



(** C2 fails on the code for a blank weight cell.  pandas reads the
    blank cell as [nan], [recurring_upload] stores it, and the same CSV
    merged against the stored document gives a row whose weights are the
    stored ones, yet [nan == nan] is false: the merge draws a new
    identifier and puts the stored one in the replaced list, where the
    claim (and the handler's docstring, "preserving assignments for
    unchanged appointments") promises the stored identifier and an empty
    replaced list. *)
Theorem merge_blank_weight_not_idempotent :
  Validate.recurring_upload_rows plain 0 0 [csvA (Py.Float nan)] = inr stored_blank
  /\ NoDup (keys_of stored_blank)
  /\ Validate.merge_new_rows 0 [csvA (Py.Float nan)] = inr (fields <$> stored_blank)
  /\ ids_of stored_blank = [uuids 0]
  /\ ids_of (merged (merge uuids 1 stored_blank (fields <$> stored_blank))) = [uuids 1]
  /\ replaced_ids (merge uuids 1 stored_blank (fields <$> stored_blank)) = [uuids 0]
  /\ next_uuid (merge uuids 1 stored_blank (fields <$> stored_blank)) = 2.
Proof.
  split; [vm_compute; reflexivity |].
  split; [apply NoDup_singleton |].
  repeat split; vm_compute; reflexivity.
Qed.



(** The [A; B] / [A'] example on concrete records. *)
Lemma merge_preserves_untouched_witness :
  fields_equal (rowA (Py.Int 100)) (rowA (Py.Float 100)) = true
  /\ _key rowB <> _key (rowA (Py.Int 100))
  /\ merged (merge uuids 2 stored [rowA (Py.Float 100)])
     = [ {| id := uuids 0; fields := rowA (Py.Float 100) |};
         {| id := uuids 1; fields := rowB |} ]
  /\ replaced_ids (merge uuids 2 stored [rowA (Py.Float 100)]) = [].
Proof.
  assert (fields_equal (rowA (Py.Int 100)) (rowA (Py.Float 100)) = true) as Heq
    by (vm_compute; reflexivity).
  assert (_key rowB <> _key (rowA (Py.Int 100))) as Hne by (vm_compute; discriminate).
  split; [exact Heq |]. split; [exact Hne |].
  exact (proj2 (proj2 (merge_preserves_untouched uuids stored [rowC] 2))
           {| id := uuids 0; fields := rowA (Py.Int 100) |}
           {| id := uuids 1; fields := rowB |} (rowA (Py.Float 100)) Heq Hne).
Defined.

Lemma four_defs_valid : Forall Pattern.valid four_defs.
Proof. unfold Pattern.valid. decide_by_compute. Qed.

(** The pattern list of [four_defs]. *)
Lemma derive_dedup_sorted_order_independent_witness :
  Forall Pattern.valid four_defs
  /\ exists pats,
       Pattern.derive four_defs = Some pats
       /\ NoDup (Pattern.label <$> pats)
       /\ StronglySorted Pattern.key_order pats
       /\ (forall defs', defs' ≡ₚ four_defs -> Pattern.derive defs' = Some pats).
Proof.
  split; [exact four_defs_valid |].
  exact (proj1 derive_dedup_sorted_order_independent four_defs four_defs_valid).
Defined.

Lemma stored_valid : Forall Pattern.valid stored.
Proof. unfold Pattern.valid. decide_by_compute. Qed.

(** Both delete handlers on the state [busy]. *)
Lemma delete_cleans_assignments_witness :
  specific_defs busy = Parsed [one_specific]
  /\ "s1" ∈ Specific.id <$> [one_specific]
  /\ recurring_defs busy = Parsed stored
  /\ uuids 0 ∈ id <$> stored
  /\ Forall Pattern.valid stored
  /\ (exists written,
        (Cleaner.delete_specific_appointment "s1" busy).1 = Success
        /\ specific_defs (Cleaner.delete_specific_appointment "s1" busy).2
           = Parsed (filter (fun x => Specific.id x ≠ "s1") [one_specific])
        /\ writes (Cleaner.delete_specific_appointment "s1" busy).2
           = writes busy ++ specific_definitions :: written
        /\ Cleaner.cleaned "s1" (specific_schedule busy)
             (specific_schedule (Cleaner.delete_specific_appointment "s1" busy).2)
             written specific_schedules)
  /\ (exists written,
        (Cleaner.delete_recurring_appointment (uuids 0) busy).1 = Success
        /\ recurring_defs (Cleaner.delete_recurring_appointment (uuids 0) busy).2
           = Parsed (filter (fun x => id x ≠ uuids 0) stored)
        /\ writes (Cleaner.delete_recurring_appointment (uuids 0) busy).2
           = writes busy ++ recurring_definitions :: written
        /\ Cleaner.cleaned (uuids 0) (recurring_schedule busy)
             (recurring_schedule (Cleaner.delete_recurring_appointment (uuids 0) busy).2)
             written recurring_schedules).
Proof.
  assert ("s1" ∈ Specific.id <$> [one_specific]) as H1 by decide_by_compute.
  assert (uuids 0 ∈ id <$> stored) as H2 by decide_by_compute.
  split; [reflexivity |]. split; [exact H1 |].
  split; [reflexivity |]. split; [exact H2 |].
  split; [exact stored_valid |].
  split.
  - exact (proj1 delete_cleans_assignments busy "s1" [one_specific] eq_refl H1).
  - exact (proj2 delete_cleans_assignments busy (uuids 0) stored eq_refl H2 stored_valid).
Defined.

(** The handler's own result on that state: the identifier is gone from
    both sequences that held it, the others are in their order, and the
    schedule was written once. *)
Example delete_specific_on_busy :
  specific_schedule (Cleaner.delete_specific_appointment "s1" busy).2
  = Parsed [ ("2024-01-01", [ ("Trailer 1_A", ["ghost"]); ("Trailer 2_B", ["ghost"]) ]);
             ("2024-01-02", [ ("Straight 1_A", []) ]) ]
  /\ writes (Cleaner.delete_specific_appointment "s1" busy).2
     = [specific_definitions; specific_schedules].
Proof. split; vm_compute; reflexivity. Qed.

(** C8 fails on the code: of two invalid rows only the first is
    reported. *)
Lemma bulk_import_counterexample :
  Validate.check_row 0 bad_day = inl (Validate.InvalidDay 2 "Funday")
  /\ Validate.check_row 1 bad_frequency = inl (Validate.InvalidFrequency 3 "Sixth")
  /\ Validate.recurring_upload_rows plain 0 0 [bad_day; bad_frequency]
     = inl (Validate.InvalidDay 2 "Funday")
  /\ Validate.merge_new_rows 0 [bad_day; bad_frequency] = inl (Validate.RowInvalid 2)
  /\ Validate.upload_specific_rows plain 0
       [specific_csv Validate.Null Validate.Null;
        specific_csv Validate.Unparsable (Validate.Time "2024-01-01T10:30:00" 10 30)]
     = [].
Proof. repeat split; vm_compute; reflexivity. Qed.

(** The three bulk loops on concrete CSV rows. *)
Lemma bulk_import_stops_at_first_invalid_row_witness :
  (forall i c, [csvA (Py.Int 100)] !! i = Some c ->
               exists r, Validate.check_row (0 + i) c = inr r)
  /\ Validate.check_row (0 + length [csvA (Py.Int 100)]) bad_day
     = inl (Validate.InvalidDay 3 "Funday")
  /\ Validate.recurring_upload_rows plain 0 0
       ([csvA (Py.Int 100)] ++ bad_day :: [bad_frequency; csvB])
     = inl (Validate.InvalidDay 3 "Funday").
Proof.
  assert (forall i c, [csvA (Py.Int 100)] !! i = Some c ->
                      exists r, Validate.check_row (0 + i) c = inr r) as Hpre.
  { intros [|i] c Hc; [| done]. injection Hc as <-.
    exists (rowA (Py.Int 100)). vm_compute. reflexivity. }
  assert (Validate.check_row (0 + length [csvA (Py.Int 100)]) bad_day
          = inl (Validate.InvalidDay 3 "Funday")) as Hbad by (vm_compute; reflexivity).
  split; [exact Hpre |]. split; [exact Hbad |].
  exact (proj1 bulk_import_stops_at_first_invalid_row plain 0 0
           [csvA (Py.Int 100)] bad_day [bad_frequency; csvB] _ Hpre Hbad).
Defined.

(** C9 fails on the code: an occurrence whose identifier no definition
    has gives no row, and here no file at all. *)
Lemma download_counterexample :
  specific_defs stale = Parsed [one_specific]
  /\ specific_schedule stale = Parsed [ ("2024-01-01", [ ("Trailer 1_A", ["ghost"]) ]) ]
  /\ Download.pairs [ ("2024-01-01", [ ("Trailer 1_A", ["ghost"]) ]) ]
     = [ ("2024-01-01", "Trailer 1_A", "ghost") ]
  /\ Download.download_schedule stale
     = Download.Redirect "No appointments scheduled to download.".
Proof. repeat split; vm_compute; reflexivity. Qed.

(** Both downloads on the state [busy]. *)
Lemma download_rows_are_resolved_pairs_witness :
  specific_defs busy = Parsed [one_specific]
  /\ specific_schedule busy
     = Parsed [ ("2024-01-01", [ ("Trailer 1_A", ["s1"; "ghost"; "s1"]);
                                 ("Trailer 2_B", ["ghost"]) ]);
                ("2024-01-02", [ ("Straight 1_A", []) ]) ]
  /\ exists rows,
       rows = omap (Download.resolve_specific (Download.specific_lookup [one_specific]))
                   (Download.pairs
                      [ ("2024-01-01", [ ("Trailer 1_A", ["s1"; "ghost"; "s1"]);
                                         ("Trailer 2_B", ["ghost"]) ]);
                        ("2024-01-02", [ ("Straight 1_A", []) ]) ])
       /\ length rows
          = length (filter (fun p => p.2 ∈ Specific.id <$> [one_specific])
                      (Download.pairs
                         [ ("2024-01-01", [ ("Trailer 1_A", ["s1"; "ghost"; "s1"]);
                                            ("Trailer 2_B", ["ghost"]) ]);
                           ("2024-01-02", [ ("Straight 1_A", []) ]) ]))
       /\ Download.download_schedule busy
          = match rows with
            | [] => Download.Redirect "No appointments scheduled to download."
            | _ => Download.Csv rows
            end
       /\ (Cleaner.ids_of
             [ ("2024-01-01", [ ("Trailer 1_A", ["s1"; "ghost"; "s1"]);
                                ("Trailer 2_B", ["ghost"]) ]);
               ("2024-01-02", [ ("Straight 1_A", []) ]) ] = [] ->
           Download.download_schedule busy
           = Download.Redirect "No appointments scheduled to download.").
Proof.
  split; [reflexivity |]. split; [reflexivity |].
  exact (proj1 download_rows_are_resolved_pairs busy [one_specific] _ eq_refl eq_refl).
Defined.

(** The download of that state: two rows, for the two occurrences of
    ["s1"], and none for [ghost]. *)
Example download_schedule_on_busy :
  exists r,
    Download.download_schedule busy = Download.Csv [r; r]
    /\ Download.s_Date r = "2024-01-01"
    /\ Download.s_Truck_Name r = "Trailer 1" /\ Download.s_Slot r = "A".
Proof. eexists. repeat split; vm_compute; reflexivity. Qed.

(** Deleting an identifier that [busy] does not hold. *)
Lemma delete_unknown_id_writes_nothing_witness :
  specific_defs busy = Parsed [one_specific]
  /\ ("ghost" ∉ Specific.id <$> [one_specific])
  /\ recurring_defs busy = Parsed stored
  /\ ("ghost" ∉ id <$> stored)
  /\ Cleaner.delete_specific_appointment "ghost" busy
     = (Error 404 "Appointment ID not found", busy)
  /\ Cleaner.delete_recurring_appointment "ghost" busy
     = (Error 404 "Appointment ID not found", busy).
Proof.
  assert ("ghost" ∉ Specific.id <$> [one_specific]) as H1 by decide_by_compute.
  assert ("ghost" ∉ id <$> stored) as H2 by decide_by_compute.
  split; [reflexivity |]. split; [exact H1 |].
  split; [reflexivity |]. split; [exact H2 |].
  split.
  - exact (proj1 (delete_unknown_id_writes_nothing busy "ghost") [one_specific] eq_refl H1).
  - exact (proj1 (proj2 (delete_unknown_id_writes_nothing busy "ghost")) stored eq_refl H2).
Defined.

End Instances.

(* ===================================================================== *)
(** * The invariant of the stored recurring definitions *)
(* ===================================================================== *)

Section DocumentInvariant.
Import Recurring Reach.

(** The order of two floats, read in the other direction. *)
Lemma SFcompare_Lt_Gt x y : SFcompare x y = Some Lt -> SFcompare y x = Some Gt.
Proof.
  destruct x as [sx | sx | | sx mx ex], y as [sy | sy | | sy my ey]; simpl;
    try discriminate; try (destruct sx; discriminate);
    try (destruct sy; discriminate);
    try (destruct sx, sy; (discriminate || reflexivity)).
  destruct sx, sy; try discriminate; try reflexivity.
  - rewrite (Z.compare_antisym ex ey).
    destruct (ex ?= ey)%Z eqn:Hc; simpl; try discriminate; try reflexivity.
    fold (Pos.compare mx my). fold (Pos.compare my mx).
    rewrite (Pos.compare_antisym mx my).
    destruct (mx ?= my)%positive; simpl; (discriminate || reflexivity).
  - rewrite (Z.compare_antisym ex ey).
    destruct (ex ?= ey)%Z eqn:Hc; simpl; try discriminate; try reflexivity.
    fold (Pos.compare mx my). fold (Pos.compare my mx).
    rewrite (Pos.compare_antisym mx my).
    destruct (mx ?= my)%positive; simpl; (discriminate || reflexivity).
Qed.

(** [a < b] excludes [b <= a]. *)
Lemma ltb_not_leb a b : PrimFloat.ltb a b = true -> PrimFloat.leb b a = false.
Proof.
  rewrite ltb_spec, leb_spec. unfold SFltb, SFleb.
  destruct (SFcompare (Prim2SF a) (Prim2SF b)) as [[| |]|] eqn:Hc; try discriminate.
  intros _. by rewrite (SFcompare_Lt_Gt _ _ Hc).
Qed.

Abbreviation ends_after_start r :=
  (PrimFloat.leb (end_hour r) (start_hour r) = false).

Lemma check_row_ordered idx c r :
  Validate.check_row idx c = inr r -> ends_after_start r.
Proof.
  unfold Validate.check_row. intros H.
  repeat case_match; try done. simplify_eq. simpl.
  apply ltb_not_leb. by apply negb_false_iff.
Qed.

Lemma merge_check_row_ordered c r :
  Validate.merge_check_row c = Some r -> ends_after_start r.
Proof.
  unfold Validate.merge_check_row. intros H.
  repeat case_match; try done. simplify_eq. simpl.
  apply ltb_not_leb. by apply negb_false_iff.
Qed.

Lemma recurring_upload_rows_ordered E n idx rows defs :
  Validate.recurring_upload_rows E n idx rows = inr defs ->
  Forall (fun a => ends_after_start (fields a)) defs.
Proof.
  revert n idx defs. induction rows as [|c rows IH]; intros n idx defs H; simpl in H.
  - injection H as <-. constructor.
  - destruct (Validate.check_row idx c) as [e | r] eqn:Hc; [done |].
    destruct (Validate.recurring_upload_rows E (S n) (S idx) rows) as [e | ds] eqn:Hds;
      [done |].
    injection H as <-. constructor; [| by eapply IH].
    simpl. by eapply check_row_ordered.
Qed.

Lemma merge_new_rows_ordered idx rows new_rows :
  Validate.merge_new_rows idx rows = inr new_rows -> Forall (fun r => ends_after_start r) new_rows.
Proof.
  revert idx new_rows. induction rows as [|c rows IH]; intros idx new_rows H; simpl in H.
  - injection H as <-. constructor.
  - destruct (Validate.merge_check_row c) as [r|] eqn:Hc; [| done].
    destruct (Validate.merge_new_rows (S idx) rows) as [e | rs] eqn:Hrs; [done |].
    injection H as <-. constructor; [by eapply merge_check_row_ordered | by eapply IH].
Qed.

Lemma add_recurring_ordered E n f a :
  Validate.add_recurring E n f = inr a -> ends_after_start (fields a).
Proof.
  unfold Validate.add_recurring. intros H.
  destruct (Validate.add_errors E f) eqn:Herr; [| by repeat case_match].
  destruct (Validate.hour_of_text E (Validate.f_start_time f)) as [sh|] eqn:Hs;
    [| by repeat case_match].
  destruct (Validate.hour_of_text E (Validate.f_end_time f)) as [eh|] eqn:He;
    [| by repeat case_match].
  repeat case_match; try done. injection H as <-. simpl.
  unfold Validate.add_errors in Herr. rewrite Hs, He in Herr.
  repeat (apply app_eq_nil in Herr as [_ Herr]).
  by apply when_nil in Herr.
Qed.

Lemma edit_fields_ordered E p r :
  Validate.edit_fields E p = Some r -> ends_after_start r.
Proof.
  unfold Validate.edit_fields. intros H.
  repeat case_match; try done. injection H as <-. simpl.
  apply ltb_not_leb. by apply negb_false_iff.
Qed.

Lemma update_first_Forall (P : appt -> Prop) appt_id r l l' :
  (forall i, P {| id := i; fields := r |}) -> Forall P l ->
  Validate.update_first appt_id r l = Some l' -> Forall P l'.
Proof.
  intros Hr. revert l'. induction l as [|a l IH]; intros l' Hl H; simpl in H; [done |].
  apply Forall_cons in Hl as [Ha Hl].
  destruct (String.eqb (id a) appt_id).
  - injection H as <-. by constructor.
  - destruct (Validate.update_first appt_id r l) as [l2|]; [| done].
    injection H as <-. constructor; [done | by apply IH].
Qed.

Lemma merged_Forall (P : row -> Prop) uuid4 n l new_rows :
  Forall (fun a => P (fields a)) l -> Forall P new_rows ->
  Forall (fun a => P (fields a)) (Merge.merged (Merge.merge uuid4 n l new_rows)).
Proof.
  intros Hl Hrows.
  destruct (merge_shape uuid4 l new_rows n) as (new & -> & Hf & _).
  apply Forall_app. split.
  - apply Forall_forall. intros d Hd.
    apply (proj1 (Forall_forall _ _) Hrows). rewrite <- Hf.
    by apply (list_elem_of_fmap_2 fields).
  - apply Forall_forall. intros d Hd. apply list_elem_of_filter in Hd as [_ Hd].
    by apply (proj1 (Forall_forall _ _) Hl).
Qed.

Lemma reachable_ordered E l :
  reachable E l -> Forall (fun a => ends_after_start (fields a)) l.
Proof.
  induction 1 as [| n rows defs Hup | l n f a _ IH Hadd | l p r l' _ IH Hed Hup
                 | l appt_id _ IH | l n rows new_rows _ IH Hrows].
  - constructor.
  - by eapply recurring_upload_rows_ordered.
  - apply Forall_app. split; [done |]. constructor; [| constructor].
    by eapply add_recurring_ordered.
  - eapply (update_first_Forall (fun a => ends_after_start (fields a))); [| done | done].
    intros i. exact (edit_fields_ordered E p r Hed).
  - apply Forall_forall. intros d Hd. apply list_elem_of_filter in Hd as [_ Hd].
    by apply (proj1 (Forall_forall _ _) IH).
  - apply (merged_Forall (fun r => ends_after_start r)); [done |].
    by eapply merge_new_rows_ordered.
Qed.

(** Whatever sequence of uploads, additions, edits, deletions and
    merges produced the stored recurring definitions, every one of them has
    a weekday and an ordinal, no end hour that is at or before its start
    hour, and the pattern computation on the document returns a list: its
    sort never raises. *)
Theorem reachable_definitions_well_formed E l :
  reachable E l ->
  Forall (fun a => Pattern.valid a /\ ends_after_start (fields a)) l
  /\ is_Some (Pattern.derive l).
Proof.
  intros Hreach. pose proof (reachable_valid E l Hreach) as Hvalid. split.
  - apply Forall_and. split; [done | exact (reachable_ordered E l Hreach)].
  - destruct (derive_spec l Hvalid) as (pats & -> & _). by eexists.
Qed.

End DocumentInvariant.

(* ===================================================================== *)
(** * Properties of the merge request *)
(* ===================================================================== *)

Section MergeRequestFacts.
Import Recurring Requests.

Implicit Types (R : list string) (sl : slots) (a : assignments) (s : state).

Lemma filter_length_eqb {A : Type} (P : A -> Prop) `{!forall x, Decision (P x)}
    (l : list A) :
  Nat.eqb (length (filter P l)) (length l) = bool_decide (Forall P l).
Proof.
  induction l as [|x l IH]; [done |].
  rewrite filter_cons. destruct (decide (P x)) as [HP | HP]; simpl.
  - rewrite IH. apply bool_decide_ext. split.
    + intros Hl. by constructor.
    + intros Hl. by apply Forall_cons in Hl as [_ Hl].
  - rewrite bool_decide_eq_false_2.
    + apply Nat.eqb_neq. pose proof (length_filter P l). lia.
    + intros Hl. by apply Forall_cons in Hl as [Hl _].
Qed.

Lemma filter_Forall_id {A : Type} (P : A -> Prop) `{!forall x, Decision (P x)}
    (l : list A) :
  Forall P l -> filter P l = l.
Proof.
  induction 1 as [|x l Hx Hl IH]; [done |].
  rewrite filter_cons_True by done. by rewrite IH.
Qed.

Lemma not_Forall_not_elem_of R (l : list string) :
  ~ Forall (fun i => i ∉ R) l <-> Exists (fun i => i ∈ R) l.
Proof.
  induction l as [|x l IH].
  - split; [intros Hn; exfalso; apply Hn; constructor | by intros He%Exists_nil].
  - rewrite Forall_cons, Exists_cons, <- IH.
    destruct (decide (x ∈ R)); destruct (decide (Forall (fun i => i ∉ R) l)); tauto.
Qed.

Lemma remove_replaced_slots_spec R sl changed :
  remove_replaced_slots R sl changed
  = (expunge_slots R sl,
     changed || bool_decide (Exists (fun i => i ∈ R) (flat_map snd sl))).
Proof.
  revert changed. induction sl as [|[slot id_list] sl IH]; intros changed.
  - by destruct changed.
  - cbn [remove_replaced_slots flat_map snd].
    rewrite filter_length_eqb, !IH. unfold expunge_slots. rewrite fmap_cons. simpl.
    destruct (decide (Forall (fun i => i ∉ R) id_list)) as [Hall | Hsome].
    + rewrite (bool_decide_eq_true_2 _ Hall). simpl. f_equal.
      * f_equal. f_equal. symmetry. by apply filter_Forall_id.
      * f_equal. apply bool_decide_ext. rewrite Exists_app. split; [tauto |].
        intros [H | H]; [| done]. apply not_Forall_not_elem_of in H. done.
    + rewrite (bool_decide_eq_false_2 _ Hsome). simpl. f_equal.
      rewrite bool_decide_eq_true_2; [by rewrite orb_true_r |].
      apply Exists_app. left. by apply not_Forall_not_elem_of.
Qed.

Lemma remove_replaced_spec R a changed :
  remove_replaced R a changed
  = (expunge R a, changed || bool_decide (Exists (fun i => i ∈ R) (Cleaner.ids_of a))).
Proof.
  revert changed. induction a as [|[pat sl] a IH]; intros changed.
  - by destruct changed.
  - cbn [remove_replaced]. rewrite remove_replaced_slots_spec, IH.
    unfold expunge, Cleaner.ids_of. rewrite fmap_cons. simpl. f_equal.
    rewrite <- orb_assoc. f_equal.
    destruct (decide (Exists (fun i => i ∈ R) (flat_map snd sl))) as [H1 | H1];
      destruct (decide (Exists (fun i => i ∈ R)
                          (flat_map (fun d => flat_map snd d.2) a))) as [H2 | H2];
      rewrite ?(bool_decide_eq_true_2 _ H1), ?(bool_decide_eq_false_2 _ H1),
              ?(bool_decide_eq_true_2 _ H2), ?(bool_decide_eq_false_2 _ H2); simpl;
      symmetry; (apply bool_decide_eq_true_2 || apply bool_decide_eq_false_2);
      rewrite Exists_app; tauto.
Qed.

Lemma cleanup_replaced_spec R s :
  cleanup_replaced R s
  = match recurring_schedule s with
    | Parsed a =>
        if bool_decide (Exists (fun i => i ∈ R) (Cleaner.ids_of a))
        then Cleaner.save_recurring_schedule (expunge R a) s else s
    | _ => s
    end.
Proof.
  unfold cleanup_replaced. destruct R as [|i R].
  - destruct (recurring_schedule s) as [| |a]; try done.
    rewrite bool_decide_eq_false_2; [done |].
    intros H. apply Exists_exists in H as (x & _ & Hx). by apply elem_of_nil in Hx.
  - destruct (recurring_schedule s) as [| |a]; try done.
    by rewrite remove_replaced_spec.
Qed.

Lemma expunge_ids R a :
  Cleaner.ids_of (expunge R a) = filter (fun i => i ∉ R) (Cleaner.ids_of a).
Proof.
  unfold Cleaner.ids_of, expunge.
  induction a as [|[pat sl] a IH]; [done |].
  rewrite fmap_cons. simpl. rewrite filter_app, IH. f_equal.
  unfold expunge_slots. induction sl as [|[slot ids] sl IHs]; [done |].
  rewrite fmap_cons. simpl. by rewrite filter_app, IHs.
Qed.

Lemma expunge_absent R a :
  ~ Exists (fun i => i ∈ R) (Cleaner.ids_of a) -> expunge R a = a.
Proof.
  intros He.
  assert (forall i, i ∈ Cleaner.ids_of a -> i ∉ R) as Hno.
  { intros i Hi Hr. apply He. apply Exists_exists. eauto. }
  clear He. unfold expunge, expunge_slots. unfold Cleaner.ids_of in Hno.
  induction a as [|[pat sl] a IH]; [done |].
  rewrite fmap_cons. simpl in *. f_equal.
  - f_equal.
    assert (forall i, i ∈ flat_map snd sl -> i ∉ R) as Hsl
      by (intros i Hi; apply Hno, elem_of_app; by left).
    clear -Hsl. induction sl as [|[slot ids] sl IHs]; [done |].
    rewrite fmap_cons. simpl in *. f_equal.
    + f_equal. apply filter_Forall_id. apply Forall_forall. intros i Hi.
      apply Hsl, elem_of_app. by left.
    + apply IHs. intros i Hi. apply Hsl, elem_of_app. by right.
  - apply IH. intros i Hi. apply Hno, elem_of_app. by right.
Qed.

Lemma expunge_pairs R a :
  Download.pairs (expunge R a) = filter (fun p => p.2 ∉ R) (Download.pairs a).
Proof.
  unfold Download.pairs, expunge.
  induction a as [|[pat sl] a IH]; [done |].
  rewrite fmap_cons. simpl. rewrite filter_app, IH. f_equal.
  unfold expunge_slots. induction sl as [|[slot ids] sl IHs]; [done |].
  rewrite fmap_cons. simpl. rewrite filter_app, IHs. f_equal.
  clear. induction ids as [|i ids IH]; [done |].
  simpl. rewrite !filter_cons. simpl.
  destruct (decide (i ∉ R)); simpl; by rewrite IH.
Qed.

Lemma merge_new_rows_length idx rows new_rows :
  Validate.merge_new_rows idx rows = inr new_rows -> length new_rows = length rows.
Proof.
  revert idx new_rows. induction rows as [|c rows IH]; intros idx new_rows H; simpl in H.
  - by injection H as <-.
  - destruct (Validate.merge_check_row c) as [r|]; [| done].
    destruct (Validate.merge_new_rows (S idx) rows) as [e | rs] eqn:Hrs; [done |].
    injection H as <-. simpl. f_equal. by eapply IH.
Qed.

Lemma merge_new_rows_valid idx rows new_rows :
  Validate.merge_new_rows idx rows = inr new_rows ->
  Forall (fun r => day r ∈ weekdays /\ frequency r ∈ ordinals) new_rows.
Proof.
  revert idx new_rows. induction rows as [|c rows IH]; intros idx new_rows H; simpl in H.
  - injection H as <-. constructor.
  - destruct (Validate.merge_check_row c) as [r|] eqn:Hc; [| done].
    destruct (Validate.merge_new_rows (S idx) rows) as [e | rs] eqn:Hrs; [done |].
    injection H as <-. constructor; [by apply merge_check_row_valid in Hc | by eapply IH].
Qed.

Lemma merged_valid uuid4 n0 existing idx rows new_rows :
  Forall Pattern.valid existing ->
  Validate.merge_new_rows idx rows = inr new_rows ->
  Forall Pattern.valid (Merge.merged (Merge.merge uuid4 n0 existing new_rows)).
Proof.
  intros Hex Hrows.
  apply (merged_Forall (fun r => day r ∈ weekdays /\ frequency r ∈ ordinals));
    [done | by eapply merge_new_rows_valid].
Qed.

Lemma merged_nonempty uuid4 n0 existing new_rows :
  new_rows <> [] -> Merge.merged (Merge.merge uuid4 n0 existing new_rows) <> [].
Proof.
  intros Hne Hnil.
  destruct (merge_shape uuid4 existing new_rows n0) as (new & Hm & Hf & _).
  rewrite Hnil in Hm. symmetry in Hm. apply app_eq_nil in Hm as [-> _].
  simpl in Hf. by subst.
Qed.

(** The state a merge request ends in once every row has passed. *)
Lemma upload_recurring_merge_accepted E n0 rows new_rows existing s :
  Validate.merge_new_rows 0 rows = inr new_rows ->
  rows <> [] ->
  recurring_defs s = Parsed existing ->
  Forall Pattern.valid existing ->
  exists patterns,
    Pattern.derive (Merge.merged (Merge.merge (uuid4 E) n0 existing new_rows)) = Some patterns
    /\ upload_recurring_merge E n0 rows s
       = (Flash "info"
            (Text "Recurring upload merged; new appointments added to Unassigned.")
            "recurring_schedule",
          cleanup_replaced (Merge.replaced_ids (Merge.merge (uuid4 E) n0 existing new_rows))
            (Cleaner.set_data_store
               (recurring_only (Merge.merged (Merge.merge (uuid4 E) n0 existing new_rows)) patterns)
               (Cleaner.save_recurring_definitions
                  (Merge.merged (Merge.merge (uuid4 E) n0 existing new_rows)) s))).
Proof.
  intros Hrows Hne Hdoc Hvalid.
  destruct (derive_spec _ (merged_valid (uuid4 E) n0 existing 0 rows new_rows Hvalid Hrows))
    as (patterns & Hpat & _).
  exists patterns. split; [done |].
  unfold upload_recurring_merge. rewrite Hrows, Hdoc.
  assert (new_rows <> []) as Hne'.
  { intros ->. apply merge_new_rows_length in Hrows. destruct rows; [done | discriminate]. }
  pose proof (merged_nonempty (uuid4 E) n0 existing new_rows Hne') as Hm.
  revert Hpat Hm.
  generalize (Merge.replaced_ids (Merge.merge (uuid4 E) n0 existing new_rows)) as R.
  generalize (Merge.merged (Merge.merge (uuid4 E) n0 existing new_rows)) as ml.
  intros [|d ml] R Hpat Hm; [done |]. by rewrite Hpat.
Qed.

(** After an accepted merge the saved recurring assignments hold none of
    the replaced identifiers: every slot sequence is the old one without
    them, in its order.  The definitions are written once, and the
    assignments are written again only when a replaced identifier was in
    them. *)
Theorem merge_request_removes_replaced_ids E n0 rows new_rows existing a s :
  Validate.merge_new_rows 0 rows = inr new_rows ->
  rows <> [] ->
  recurring_defs s = Parsed existing ->
  Forall Pattern.valid existing ->
  recurring_schedule s = Parsed a ->
  let m := Merge.merge (uuid4 E) n0 existing new_rows in
  let s' := (upload_recurring_merge E n0 rows s).2 in
  recurring_defs s' = Parsed (Merge.merged m)
  /\ recurring_schedule s' = Parsed (expunge (Merge.replaced_ids m) a)
  /\ (forall i, i ∈ Merge.replaced_ids m -> i ∉ Cleaner.ids_of (expunge (Merge.replaced_ids m) a))
  /\ writes s'
     = writes s ++ recurring_definitions
         :: (if bool_decide (Exists (fun i => i ∈ Merge.replaced_ids m) (Cleaner.ids_of a))
             then [recurring_schedules] else [])
  /\ specific_defs s' = specific_defs s
  /\ specific_schedule s' = specific_schedule s.
Proof.
  intros Hrows Hne Hdoc Hvalid Hsched m s'.
  destruct (upload_recurring_merge_accepted E n0 rows new_rows existing s
              Hrows Hne Hdoc Hvalid) as (patterns & _ & Hreq).
  subst s'. rewrite Hreq. fold m. cbn [snd].
  rewrite cleanup_replaced_spec. simpl. rewrite Hsched.
  assert (forall i, i ∈ Merge.replaced_ids m -> i ∉ Cleaner.ids_of (expunge (Merge.replaced_ids m) a))
    as Hgone.
  { intros i Hi. rewrite expunge_ids. intros Hin.
    apply list_elem_of_filter in Hin as [Hn _]. done. }
  destruct (decide (Exists (fun i => i ∈ Merge.replaced_ids m) (Cleaner.ids_of a))) as [He | He].
  - rewrite (bool_decide_eq_true_2 _ He). simpl.
    split_and!; try done. by rewrite <- app_assoc.
  - rewrite (bool_decide_eq_false_2 _ He). simpl.
    split_and!; try done. by rewrite Hsched, expunge_absent.
Qed.


Lemma check_row_fails_at_any_index idx idx' c e :
  Validate.check_row idx c = inl e -> exists e', Validate.check_row idx' c = inl e'.
Proof.
  unfold Validate.check_row. intros H.
  repeat case_match; try done; by eexists.
Qed.

(** A batch with an invalid row anywhere changes nothing: the two bulk
    recurring handlers write no document and leave the cached entry alone,
    whatever rows come before or after the invalid one. *)
Theorem invalid_row_leaves_state_unchanged E n0 rows s bad :
  bad ∈ rows ->
  (Validate.merge_check_row bad = None ->
   exists e, upload_recurring_merge E n0 rows s
             = (Flash "error" (MergeRowMessage e) "recurring_upload", s))
  /\ ((exists e, Validate.check_row 0 bad = inl e) ->
      exists e, recurring_upload E n0 rows s
                = (Flash "error" (RowMessage e) "recurring_upload", s)).
Proof.
  intros Hin. split.
  - intros Hbad. unfold upload_recurring_merge.
    assert (forall idx, exists e, Validate.merge_new_rows idx rows = inl e) as Hall.
    { clear -Hin Hbad. induction rows as [|c rows IH]; intros idx;
        [by apply elem_of_nil in Hin |].
      simpl. apply elem_of_cons in Hin as [<- | Hin].
      - rewrite Hbad. by eexists.
      - destruct (Validate.merge_check_row c); [| by eexists].
        destruct (IH Hin (S idx)) as [e ->]. by eexists. }
    destruct (Hall 0) as [e ->]. by exists e.
  - intros [e0 Hbad]. unfold recurring_upload.
    assert (forall n idx, exists e, Validate.recurring_upload_rows E n idx rows = inl e)
      as Hall.
    { clear -Hin Hbad. induction rows as [|c rows IH]; intros n idx;
        [by apply elem_of_nil in Hin |].
      simpl. apply elem_of_cons in Hin as [<- | Hin].
      - destruct (check_row_fails_at_any_index 0 idx bad e0 Hbad) as [e ->]. by eexists.
      - destruct (Validate.check_row idx c); [by eexists |].
        destruct (IH Hin (S n) (S idx)) as [e ->]. by eexists. }
    destruct (Hall n0 0) as [e ->]. by exists e.
Qed.

End MergeRequestFacts.

(* ===================================================================== *)
(** * Properties of the upload, add and edit requests *)
(* ===================================================================== *)

Section WriteRequestFacts.
Import Recurring Requests.

Implicit Types (s : state) (l defs : list appt).

Lemma omap_none {X Y : Type} (g : X -> option Y) (l : list X) :
  (forall x, x ∈ l -> g x = None) -> omap g l = [].
Proof.
  induction l as [|x l IH]; intros Hall; [done |].
  cbn [omap list_omap]. rewrite (Hall x) by left.
  apply IH. intros y Hy. apply Hall. by right.
Qed.

Lemma recurring_upload_rows_ids E n idx rows defs :
  Validate.recurring_upload_rows E n idx rows = inr defs ->
  id <$> defs = uuid4 E <$> seq n (length rows).
Proof.
  revert n idx defs. induction rows as [|c rows IH]; intros n idx defs H; simpl in H.
  - by injection H as <-.
  - destruct (Validate.check_row idx c) as [e | r] eqn:Hc; [done |].
    destruct (Validate.recurring_upload_rows E (S n) (S idx) rows) as [e | ds] eqn:Hds;
      [done |].
    injection H as <-. simpl. f_equal. by eapply IH.
Qed.

Lemma recurring_upload_rows_valid E n idx rows defs :
  Validate.recurring_upload_rows E n idx rows = inr defs -> Forall Pattern.valid defs.
Proof.
  revert n idx defs. induction rows as [|c rows IH]; intros n idx defs H; simpl in H.
  - injection H as <-. constructor.
  - destruct (Validate.check_row idx c) as [e | r] eqn:Hc; [done |].
    destruct (Validate.recurring_upload_rows E (S n) (S idx) rows) as [e | ds] eqn:Hds;
      [done |].
    injection H as <-. constructor; [| by eapply IH].
    apply check_row_valid in Hc. unfold Pattern.valid. simpl. tauto.
Qed.

(** The state an upload ends in once every row has passed. *)
Lemma recurring_upload_accepted E n0 rows defs s :
  Validate.recurring_upload_rows E n0 0 rows = inr defs ->
  rows <> [] ->
  exists patterns,
    Pattern.derive defs = Some patterns
    /\ recurring_upload E n0 rows s
       = (Flash "info"
            (Text "Recurring upload successful; definitions saved. Now assign patterns.")
            "recurring_schedule",
          Cleaner.set_data_store (recurring_only defs patterns)
            (Cleaner.save_recurring_definitions defs s)).
Proof.
  intros Hrows Hne.
  destruct (derive_spec _ (recurring_upload_rows_valid E n0 0 rows defs Hrows))
    as (patterns & Hpat & _).
  exists patterns. split; [done |].
  unfold recurring_upload. rewrite Hrows.
  assert (length defs = length rows) as Hlen.
  { apply recurring_upload_rows_ids in Hrows.
    apply (f_equal length) in Hrows. by rewrite !length_fmap, length_seq in Hrows. }
  destruct defs as [|d defs]; [destruct rows; done |]. by rewrite Hpat.
Qed.

(** An accepted upload replaces the stored definitions by one definition
    per CSV row, with the identifiers [uuid4] drew for the rows in order
    (pairwise distinct when the draws are); the pattern computation does
    not raise, and the cached entry holds the new definitions with their
    patterns.  The saved recurring assignments are not touched. *)
Theorem recurring_upload_replaces_definitions E n0 rows defs s :
  Validate.recurring_upload_rows E n0 0 rows = inr defs ->
  rows <> [] ->
  let s' := (recurring_upload E n0 rows s).2 in
  recurring_defs s' = Parsed defs
  /\ id <$> defs = uuid4 E <$> seq n0 (length rows)
  /\ ((forall i j, uuid4 E i = uuid4 E j -> i = j) -> NoDup (id <$> defs))
  /\ (exists patterns,
        Pattern.derive defs = Some patterns
        /\ data_store s' = recurring_only defs patterns)
  /\ recurring_schedule s' = recurring_schedule s
  /\ writes s' = writes s ++ [recurring_definitions].
Proof.
  intros Hrows Hne s'.
  destruct (recurring_upload_accepted E n0 rows defs s Hrows Hne) as (patterns & Hpat & Hreq).
  subst s'. rewrite Hreq. cbn [snd].
  pose proof (recurring_upload_rows_ids E n0 0 rows defs Hrows) as Hids.
  split_and!; try done.
  - intros Hinj. rewrite Hids. apply NoDup_fmap_2; [| apply NoDup_seq].
    intros i j. apply Hinj.
  - by exists patterns.
Qed.

(** An upload leaves the assignments saved for the previous definitions
    behind: when none of the newly drawn identifiers occurs in them, the
    recurring download after the upload finds nothing to export. *)
Theorem recurring_upload_orphans_saved_assignments E n0 rows defs a s :
  Validate.recurring_upload_rows E n0 0 rows = inr defs ->
  rows <> [] ->
  recurring_schedule s = Parsed a ->
  (forall j, n0 <= j -> uuid4 E j ∉ Cleaner.ids_of a) ->
  Download.download_recurring_schedule (recurring_upload E n0 rows s).2
  = Some (Download.Redirect "No recurring assignments to download.").
Proof.
  intros Hrows Hne Hsched Hfresh.
  destruct (recurring_upload_accepted E n0 rows defs s Hrows Hne) as (patterns & Hpat & Hreq).
  rewrite Hreq. cbn [snd]. unfold Download.download_recurring_schedule.
  cbn [recurring_defs recurring_schedule Cleaner.set_data_store
       Cleaner.save_recurring_definitions].
  rewrite Hpat, Hsched, recurring_rows_spec.
  pose proof (recurring_upload_rows_ids E n0 0 rows defs Hrows) as Hids.
  assert (omap (Download.resolve_recurring (Download.recurring_lookup defs)
                  (Download.pattern_map patterns)) (Download.pairs a) = []) as ->; [| done].
  assert (forall p, p ∈ Download.pairs a -> p.2 ∈ Cleaner.ids_of a) as Hp.
  { clear. unfold Download.pairs, Cleaner.ids_of.
    induction a as [|[pat sl] a IH]; intros p Hp; [by apply elem_of_nil in Hp |].
    simpl in *. apply elem_of_app in Hp as [Hp | Hp]; apply elem_of_app;
      [left | right; by apply IH].
    clear IH. induction sl as [|[slot ids] sl IHs]; [by apply elem_of_nil in Hp |].
    simpl in *. apply elem_of_app in Hp as [Hp | Hp]; apply elem_of_app;
      [left | right; by apply IHs].
    apply list_elem_of_fmap in Hp as (i & -> & Hi). done. }
  apply omap_none. intros p Hin.
  destruct (Download.resolve_recurring (Download.recurring_lookup defs)
              (Download.pattern_map patterns) p) as [row|] eqn:Hres; [| done].
  exfalso.
  assert (is_Some (Download.resolve_recurring (Download.recurring_lookup defs)
                     (Download.pattern_map patterns) p)) as Hsome by (by eexists).
  apply resolve_recurring_is_Some in Hsome as [_ Hid].
  rewrite Hids in Hid. apply list_elem_of_fmap in Hid as (j & Hj & Hseq).
  apply elem_of_seq in Hseq. apply (Hfresh j); [lia |].
  rewrite <- Hj. by apply Hp.
Qed.

Lemma upload_specific_rows_ids E n rows :
  Specific.id <$> Validate.upload_specific_rows E n rows
  = uuid4 E <$> seq n (length (filter (fun c => Validate.has_times c = true) rows)).
Proof.
  revert n. induction rows as [|c rows IH]; intros n; [done |].
  destruct (Validate.has_times c) eqn:Ht.
  - rewrite filter_cons_True by done. unfold Validate.has_times in Ht. simpl.
    destruct (Validate.sc_Start_Time c) as [| |iso h m]; try discriminate.
    destruct (Validate.sc_End_Time c) as [| |iso2 h2 m2]; try discriminate.
    simpl. by rewrite IH.
  - rewrite filter_cons_False by (by rewrite Ht). unfold Validate.has_times in Ht. simpl.
    destruct (Validate.sc_Start_Time c) as [| |iso h m]; [by rewrite IH..|].
    destruct (Validate.sc_End_Time c) as [| |iso2 h2 m2]; [by rewrite IH..|].
    discriminate.
Qed.

(** The specific upload stores the rows that have a start and an end
    time and drops the others without a message: the document is replaced
    by one definition per such row, with the identifiers [uuid4] drew in
    row order, the cached entry becomes these definitions alone, and the
    saved specific schedule is not touched.  When no row has both times,
    nothing is written. *)
Theorem upload_specific_keeps_rows_with_times E n0 rows s :
  (Exists (fun c => Validate.has_times c = true) rows ->
   exists appointments,
     specific_defs (upload_specific E n0 rows s).2 = Parsed appointments
     /\ length appointments = length (filter (fun c => Validate.has_times c = true) rows)
     /\ Specific.id <$> appointments = uuid4 E <$> seq n0 (length appointments)
     /\ data_store (upload_specific E n0 rows s).2 = specific_only appointments
     /\ specific_schedule (upload_specific E n0 rows s).2 = specific_schedule s
     /\ writes (upload_specific E n0 rows s).2 = writes s ++ [specific_definitions])
  /\ (Forall (fun c => Validate.has_times c = false) rows ->
      upload_specific E n0 rows s
      = (Flash "error" (Text "No valid appointments found in CSV.") "upload_specific", s)).
Proof.
  pose proof (upload_specific_rows_length E n0 rows) as Hlen.
  pose proof (upload_specific_rows_ids E n0 rows) as Hids.
  unfold upload_specific. split.
  - intros Hex.
    assert (filter (fun c => Validate.has_times c = true) rows <> []) as Hne.
    { apply Exists_exists in Hex as (c & Hc & Ht). intros Hnil.
      assert (c ∈ filter (fun c => Validate.has_times c = true) rows) as Hin
        by (by apply list_elem_of_filter).
      rewrite Hnil in Hin. by apply elem_of_nil in Hin. }
    destruct (Validate.upload_specific_rows E n0 rows) as [|d ds] eqn:Hrows.
    + destruct (filter _ rows); done.
    + exists (d :: ds). cbn [snd]. split_and!; try done. by rewrite Hlen.
  - intros Hnone.
    assert (filter (fun c => Validate.has_times c = true) rows = []) as Hnil.
    { apply filter_none. intros c Hc.
      rewrite (proj1 (Forall_forall _ _) Hnone c Hc). done. }
    rewrite Hnil in Hlen. by destruct (Validate.upload_specific_rows E n0 rows).
Qed.

(** The pattern list covers the definitions: each definition's pattern
    (its frequency, its day and the label made of the two) is in the list,
    and every pattern of the list is that of some definition. *)
Theorem derive_covers_definitions defs :
  Forall Pattern.valid defs ->
  exists patterns,
    Pattern.derive defs = Some patterns
    /\ forall p, p ∈ patterns <-> exists a, a ∈ defs /\ p = Pattern.pat_of a.
Proof.
  intros Hv. destruct (derive_spec defs Hv) as (patterns & Hpat & Hperm & _).
  exists patterns. split; [done |].
  intros p. rewrite Hperm. by apply collect_elem_of.
Qed.

(** ** The single-record routes *)

Lemma edit_loop_not_found E p l :
  Validate.p_id p ∉ id <$> l -> edit_loop E p l = NotFound.
Proof.
  induction l as [|a l IH]; intros Hn; [done |].
  rewrite fmap_cons in Hn. apply not_elem_of_cons in Hn as [Hne Hn].
  simpl. rewrite (proj2 (String.eqb_neq _ _)) by congruence.
  by rewrite IH.
Qed.

Lemma edit_loop_invalid E p l :
  Validate.p_id p ∈ id <$> l -> Validate.edit_fields E p = None ->
  edit_loop E p l = Invalid.
Proof.
  intros Hin Hbad. induction l as [|a l IH]; [by apply elem_of_nil in Hin |].
  simpl. destruct (String.eqb (id a) (Validate.p_id p)) eqn:Heq.
  - by rewrite Hbad.
  - rewrite fmap_cons in Hin. apply elem_of_cons in Hin as [Hin | Hin].
    + apply String.eqb_neq in Heq. congruence.
    + by rewrite IH.
Qed.

Lemma edit_loop_found E p l i a r :
  l !! i = Some a -> id a = Validate.p_id p ->
  (forall j b, j < i -> l !! j = Some b -> id b <> Validate.p_id p) ->
  Validate.edit_fields E p = Some r ->
  edit_loop E p l
  = Found {| id := id a; fields := r |} (<[i := {| id := id a; fields := r |}]> l).
Proof.
  intros Hi Hid Hfirst Hr. revert i Hi Hfirst.
  induction l as [|b l IH]; intros i Hi Hfirst; [done |].
  destruct i as [|i]; simpl in *.
  - injection Hi as ->. by rewrite (proj2 (String.eqb_eq _ _) Hid), Hr.
  - rewrite (proj2 (String.eqb_neq _ _)) by (apply (Hfirst 0); [lia | done]).
    rewrite (IH i Hi); [done |].
    intros j c Hj Hc. apply (Hfirst (S j)); [lia | done].
Qed.

Lemma edit_loop_update_first E p l :
  edit_loop E p l
  = match Validate.edit_fields E p with
    | Some r =>
        match Validate.update_first (Validate.p_id p) r l with
        | Some l' => Found {| id := Validate.p_id p; fields := r |} l'
        | None => NotFound
        end
    | None => if bool_decide (Validate.p_id p ∈ id <$> l) then Invalid else NotFound
    end.
Proof.
  destruct (Validate.edit_fields E p) as [r|] eqn:Hr.
  - induction l as [|a l IH]; [done |].
    simpl. destruct (String.eqb (id a) (Validate.p_id p)) eqn:Heq.
    + rewrite Hr. apply String.eqb_eq in Heq. by rewrite Heq.
    + rewrite IH. by destruct (Validate.update_first (Validate.p_id p) r l).
  - destruct (decide (Validate.p_id p ∈ id <$> l)) as [Hin | Hn].
    + rewrite (bool_decide_eq_true_2 _ Hin). by apply edit_loop_invalid.
    + rewrite (bool_decide_eq_false_2 _ Hn). by apply edit_loop_not_found.
Qed.

Lemma replace_first_update_first appt_id r l l' :
  Validate.update_first appt_id r l = Some l' ->
  replace_first appt_id {| id := appt_id; fields := r |} l = l'.
Proof.
  revert l'. induction l as [|a l IH]; intros l' H; simpl in H; [done |].
  simpl. destruct (String.eqb (id a) appt_id) eqn:Heq.
  - injection H as <-. apply String.eqb_eq in Heq. by rewrite Heq.
  - destruct (Validate.update_first appt_id r l) as [l2|]; [| done].
    injection H as <-. by rewrite (IH l2).
Qed.

(** An edit that fails writes nothing.  An identifier that no stored
    definition has gives 404 whatever the rest of the payload is (its
    fields are only looked at once the definition is found); a payload that
    fails the checks gives 400. *)
Theorem failed_edit_changes_nothing E p s l :
  recurring_defs s = Parsed l ->
  (Validate.p_id p ∉ id <$> l ->
   edit_recurring_appointment E p s = (EditFailed 404, s))
  /\ (Validate.p_id p ∈ id <$> l -> Validate.edit_fields E p = None ->
      edit_recurring_appointment E p s = (EditFailed 400, s)).
Proof.
  intros Hdoc. unfold edit_recurring_appointment. rewrite Hdoc. split.
  - intros Hn. by rewrite edit_loop_not_found.
  - intros Hin Hbad. by rewrite edit_loop_invalid.
Qed.

(** An accepted edit rewrites the first stored definition that has the
    identifier and nothing else: the other definitions, the order and
    every identifier stay as they are, the definitions document is written
    once and no schedule is touched. *)
Theorem edit_updates_first_match_only E p s l i a r :
  recurring_defs s = Parsed l ->
  l !! i = Some a -> id a = Validate.p_id p ->
  (forall j b, j < i -> l !! j = Some b -> id b <> Validate.p_id p) ->
  Validate.edit_fields E p = Some r ->
  let s' := (edit_recurring_appointment E p s).2 in
  recurring_defs s' = Parsed (<[i := {| id := id a; fields := r |}]> l)
  /\ id <$> <[i := {| id := id a; fields := r |}]> l = id <$> l
  /\ (forall j, j <> i -> <[i := {| id := id a; fields := r |}]> l !! j = l !! j)
  /\ writes s' = writes s ++ [recurring_definitions]
  /\ recurring_schedule s' = recurring_schedule s
  /\ specific_defs s' = specific_defs s
  /\ specific_schedule s' = specific_schedule s
  /\ (data_store s = None ->
      (edit_recurring_appointment E p s).1 = Updated {| id := id a; fields := r |}).
Proof.
  intros Hdoc Hi Hid Hfirst Hr s'. subst s'.
  unfold edit_recurring_appointment.
  rewrite Hdoc, (edit_loop_found E p l i a r Hi Hid Hfirst Hr).
  assert (id <$> <[i := {| id := id a; fields := r |}]> l = id <$> l) as Hids.
  { rewrite list_fmap_insert. simpl. apply list_insert_id.
    by rewrite list_lookup_fmap, Hi. }
  assert (forall j, j <> i -> <[i := {| id := id a; fields := r |}]> l !! j = l !! j)
    as Hrest by (intros j Hj; by apply list_lookup_insert_ne).
  cbn [data_store Cleaner.save_recurring_definitions].
  destruct (data_store s) as [[ap [rc|]]|]; [| by split_and!..].
  destruct (Pattern.derive _); by split_and!.
Qed.

(** An accepted new definition is appended to the stored ones, which stay
    as they are and in their order; it carries the identifier [uuid4]
    drew.  When the stored text is absent or does not parse, the document
    becomes the new definition alone.  No schedule is touched. *)
Theorem add_appends_definition E n0 f a s :
  Validate.add_recurring E n0 f = inr a ->
  match recurring_defs s with Parsed l => Forall Pattern.valid l | _ => True end ->
  let stored := match recurring_defs s with Parsed l => l | _ => [] end in
  let s' := (add_recurring_appointment E n0 f s).2 in
  (add_recurring_appointment E n0 f s).1 = Added a
  /\ id a = uuid4 E n0
  /\ recurring_defs s' = Parsed (stored ++ [a])
  /\ writes s' = writes s ++ [recurring_definitions]
  /\ recurring_schedule s' = recurring_schedule s
  /\ specific_defs s' = specific_defs s
  /\ specific_schedule s' = specific_schedule s.
Proof.
  intros Hadd Hvalid stored s'. subst s'.
  assert (id a = uuid4 E n0) as Hid.
  { clear -Hadd. unfold Validate.add_recurring in Hadd. repeat case_match; try done.
    by injection Hadd as <-. }
  assert (Forall Pattern.valid (stored ++ [a])) as Hv.
  { apply Forall_app. split.
    - subst stored. destruct (recurring_defs s); (done || constructor).
    - constructor; [by eapply add_recurring_valid | constructor]. }
  destruct (derive_spec _ Hv) as (patterns & Hpat & _).
  unfold add_recurring_appointment. rewrite Hadd. fold stored. rewrite Hpat.
  cbn [data_store Cleaner.save_recurring_definitions].
  destruct (data_store s); by split_and!.
Qed.

End WriteRequestFacts.

(* ===================================================================== *)
(** * Slot keys and the date range *)
(* ===================================================================== *)

Section SlotKeyFacts.
Import Requests.

Lemma append_cons (a : ascii) (s t : string) :
  (String a s ++ t)%string = String a (s ++ t)%string.
Proof. reflexivity. Qed.

Lemma rsplit_last_none c s : has_char c s = false -> rsplit_last c s = None.
Proof.
  induction s as [|a s IH]; [done |].
  simpl. intros H. apply orb_false_iff in H as [Ha Hs].
  by rewrite (IH Hs), Ha.
Qed.

Lemma rsplit_last_app c t l :
  has_char c l = false -> rsplit_last c (t ++ String c l)%string = Some (t, l).
Proof.
  intros Hl. induction t as [|a t IH].
  - change ("" ++ String c l)%string with (String c l). simpl.
    by rewrite (rsplit_last_none c l Hl), Ascii.eqb_refl.
  - rewrite append_cons. simpl. by rewrite IH.
Qed.

Lemma rsplit_last_Some c s t l :
  rsplit_last c s = Some (t, l) -> s = (t ++ String c l)%string /\ has_char c l = false.
Proof.
  revert t. induction s as [|a s IH]; intros t H; [done |].
  simpl in H. destruct (rsplit_last c s) as [[t' l']|] eqn:Hs.
  - injection H as <- <-. destruct (IH t' eq_refl) as [-> Hl]. done.
  - destruct (Ascii.eqb a c) eqn:Ha; [| done].
    injection H as <- <-. apply Ascii.eqb_eq in Ha as ->. split; [done |].
    clear IH. induction s as [|b s IH]; [done |].
    simpl in Hs. destruct (rsplit_last c s) as [[? ?]|]; [done |].
    destruct (Ascii.eqb b c) eqn:Hb; [done |]. simpl. rewrite Hb. by apply IH.
Qed.

(** The split of a slot key undoes the way the key is put together: a
    truck name and a slot label joined by an underscore come back as they
    were whenever the label has no underscore (the truck name may have);
    a key without underscore is a truck name with an empty label; and in
    every case the two parts give the key back.  This holds for every
    fixed truck and slot label. *)
Theorem truck_and_slot_round_trip :
  (forall truck_name slot_label,
      has_char "_" slot_label = false ->
      Download.truck_and_slot (truck_name ++ "_" ++ slot_label)%string
      = (truck_name, slot_label))
  /\ (forall slot_key,
      has_char "_" slot_key = false -> Download.truck_and_slot slot_key = (slot_key, ""))
  /\ (forall slot_key truck_name slot_label,
      Download.truck_and_slot slot_key = (truck_name, slot_label) ->
      (slot_key = (truck_name ++ "_" ++ slot_label)%string /\ has_char "_" slot_label = false)
      \/ (slot_key = truck_name /\ slot_label = "" /\ has_char "_" slot_key = false))
  /\ (forall truck_name slot_label,
      truck_name ∈ FIXED_TRUCKS -> slot_label ∈ SLOT_LABELS ->
      Download.truck_and_slot (truck_name ++ "_" ++ slot_label)%string
      = (truck_name, slot_label)).
Proof.
  assert (forall truck_name slot_label,
      has_char "_" slot_label = false ->
      Download.truck_and_slot (truck_name ++ "_" ++ slot_label)%string
      = (truck_name, slot_label)) as Hjoin.
  { intros t l Hl. unfold Download.truck_and_slot.
    change ("_" ++ l)%string with (String "_" l). by rewrite rsplit_last_app. }
  split_and!; [done | | |].
  - intros k Hk. unfold Download.truck_and_slot. by rewrite rsplit_last_none.
  - intros k t l. unfold Download.truck_and_slot.
    destruct (rsplit_last "_" k) as [[t' l']|] eqn:Hk.
    + intros [= <- <-]. left. by apply rsplit_last_Some in Hk.
    + intros [= <- <-]. right. split_and!; try done.
      clear -Hk. induction k as [|b k IH]; [done |].
      simpl in Hk. destruct (rsplit_last "_" k) as [[? ?]|]; [done |].
      destruct (Ascii.eqb b "_") eqn:Hb; [done |]. simpl. rewrite Hb. by apply IH.
  - intros t l _ Hl. apply Hjoin.
    unfold SLOT_LABELS in Hl. apply elem_of_cons in Hl as [-> | Hl]; [done |].
    apply elem_of_cons in Hl as [-> | Hl]; [done |]. by apply elem_of_nil in Hl.
Qed.

End SlotKeyFacts.

Section DateRangeFacts.
Import Calendar.

Local Open Scope Z_scope.

Lemma days_cons a b : a <= b -> days a b = a :: days (a + 1) b.
Proof.
  intros Hab. unfold days.
  replace (Z.to_nat (b + 1 - a)) with (S (Z.to_nat (b + 1 - (a + 1)))) by lia.
  cbn [seq fmap list_fmap]. f_equal; [lia |].
  rewrite <- seq_shift, <- list_fmap_compose. apply list_fmap_ext.
  intros i x _. simpl. lia.
Qed.

Lemma days_nil a b : b < a -> days a b = [].
Proof. intros Hab. unfold days. by replace (Z.to_nat (b + 1 - a)) with 0%nat by lia. Qed.

Lemma days_length a b : length (days a b) = Z.to_nat (b + 1 - a).
Proof. unfold days. by rewrite length_fmap, length_seq. Qed.

Lemma days_lookup a b (i : nat) :
  (i < Z.to_nat (b + 1 - a))%nat -> days a b !! i = Some (a + Z.of_nat i).
Proof.
  intros Hi. unfold days. rewrite list_lookup_fmap, lookup_seq_lt by done. done.
Qed.

(** Below [date.max] the loop ends after one iteration per day. *)
Lemma dates_loop_done C fuel cur dt_end acc :
  dt_end < date_max -> (Z.to_nat (dt_end + 1 - cur) <= fuel)%nat ->
  dates_loop C fuel cur dt_end acc = Dates (acc ++ (isoformat C <$> days cur dt_end)).
Proof.
  intros Hmax. revert cur acc. induction fuel as [|fuel IH]; intros cur acc Hfuel.
  - simpl. rewrite (proj2 (Z.leb_gt _ _)) by lia.
    rewrite days_nil by lia. by rewrite app_nil_r.
  - simpl. destruct (cur <=? dt_end) eqn:Hle.
    + apply Z.leb_le in Hle. rewrite (proj2 (Z.ltb_lt _ _)) by lia.
      rewrite IH by lia. rewrite (days_cons cur dt_end) by done.
      rewrite fmap_cons, <- app_assoc. done.
    + apply Z.leb_gt in Hle. rewrite days_nil by lia. by rewrite app_nil_r.
Qed.

(** An end date of [date.max] makes the last step raise. *)
Lemma dates_loop_overflow C fuel cur acc :
  cur <= date_max -> (Z.to_nat (date_max + 1 - cur) <= fuel)%nat ->
  dates_loop C fuel cur date_max acc = Overflow.
Proof.
  revert cur acc. induction fuel as [|fuel IH]; intros cur acc Hcur Hfuel; [lia |].
  simpl. rewrite (proj2 (Z.leb_le _ _)) by done.
  destruct (cur <? date_max) eqn:Hlt; [| done].
  apply Z.ltb_lt in Hlt. apply IH; lia.
Qed.

(** With definitions loaded and two dates that parse, [configure] stores
    one ISO text for every day from the start date to the end date, both
    included, in ascending order; an end date before the start date is
    refused; and the last day of the calendar as the end date makes the
    loop raise instead of storing a range. *)
Theorem configure_lists_every_date C s form_date_start form_date_end dt_start dt_end :
  Requests.has_appointments (data_store s) = true ->
  form_date_start <> ""%string -> form_date_end <> ""%string ->
  fromisoformat C form_date_start = Some dt_start ->
  fromisoformat C form_date_end = Some dt_end ->
  (dt_start <= dt_end < date_max ->
   exists l,
     configure C form_date_start form_date_end s
     = Configured {| date_start := isoformat C dt_start;
                     date_end := isoformat C dt_end;
                     dates := l |}
     /\ length l = Z.to_nat (dt_end - dt_start + 1)
     /\ forall i : nat, (i < length l)%nat ->
          l !! i = Some (isoformat C (dt_start + Z.of_nat i)))
  /\ (dt_end < dt_start ->
      configure C form_date_start form_date_end s = EndBeforeStart)
  /\ (dt_start <= dt_end -> dt_end = date_max ->
      configure C form_date_start form_date_end s = OverflowRaised).
Proof.
  intros Hstore Hs He Hps Hpe. unfold configure.
  rewrite Hstore, Hps, Hpe. simpl.
  rewrite (proj2 (String.eqb_neq _ _) Hs), (proj2 (String.eqb_neq _ _) He). simpl.
  split_and!.
  - intros [Hle Hmax]. rewrite (proj2 (Z.ltb_ge _ _)) by done.
    rewrite dates_loop_done by (done || lia). simpl.
    exists (isoformat C <$> days dt_start dt_end). split; [done |].
    rewrite length_fmap, days_length. split; [f_equal; lia |].
    intros i Hi. rewrite list_lookup_fmap, days_lookup by done. done.
  - intros Hlt. by rewrite (proj2 (Z.ltb_lt _ _)).
  - intros Hle ->. rewrite (proj2 (Z.ltb_ge _ _)) by done.
    by rewrite dates_loop_overflow by (done || lia).
Qed.

End DateRangeFacts.

(* ===================================================================== *)
(** * Requests one after the other *)
(* ===================================================================== *)

Section CompositionFacts.
Import Requests.

Implicit Types (s : state) (a : assignments).

Lemma purge_pairs appt_id a :
  Download.pairs (Cleaner.purge appt_id a)
  = filter (fun p => p.2 ≠ appt_id) (Download.pairs a).
Proof.
  unfold Download.pairs, Cleaner.purge.
  induction a as [|[date_str sl] a IH]; [done |].
  rewrite fmap_cons. simpl. rewrite filter_app, IH. f_equal.
  unfold Cleaner.purge_slots. induction sl as [|[slot ids] sl IHs]; [done |].
  rewrite fmap_cons. simpl. rewrite filter_app, IHs. f_equal.
  clear. induction ids as [|i ids IH]; [done |].
  simpl. rewrite !filter_cons. simpl.
  destruct (decide (i ≠ appt_id)); simpl; by rewrite IH.
Qed.

(** Removing the definitions with one identifier leaves every other
    entry of the lookup as it was. *)
Lemma specific_lookup_filter appt_id aid (defs : list Specific.appt) :
  aid ≠ appt_id ->
  Download.specific_lookup (filter (fun x => Specific.id x ≠ appt_id) defs) !! aid
  = Download.specific_lookup defs !! aid.
Proof.
  intros Hne. unfold Download.specific_lookup.
  assert (forall m m' : gmap string Specific.appt, m !! aid = m' !! aid ->
    foldl (fun acc x => <[Specific.id x := x]> acc) m
          (filter (fun x => Specific.id x ≠ appt_id) defs) !! aid
    = foldl (fun acc x => <[Specific.id x := x]> acc) m' defs !! aid) as Hgen.
  { induction defs as [|d defs IH]; intros m m' Hm; [done |].
    rewrite filter_cons. destruct (decide (Specific.id d ≠ appt_id)) as [Hd | Hd]; simpl.
    - apply IH. destruct (decide (Specific.id d = aid)) as [<- | Hda].
      + by rewrite !lookup_insert_eq.
      + by rewrite !lookup_insert_ne.
    - apply IH. rewrite lookup_insert_ne; [done |].
      intros Heq. apply Hne. rewrite <- Heq.
      destruct (decide (Specific.id d = appt_id)); [done | by exfalso; apply Hd]. }
  by apply Hgen.
Qed.

Lemma omap_ext_elem {X Y : Type} (g h : X -> option Y) (l : list X) :
  (forall x, x ∈ l -> g x = h x) -> omap g l = omap h l.
Proof.
  induction l as [|x l IH]; intros Hall; [done |].
  cbn [omap list_omap]. rewrite (Hall x) by left.
  rewrite IH; [done |]. intros y Hy. apply Hall. by right.
Qed.

(** The specific download after a successful delete is the download
    before it without the occurrences of the deleted identifier: every
    other assigned identifier resolves to the same definition and gives the
    same row, in the same order. *)
Theorem download_after_delete s appt_id defs a :
  specific_defs s = Parsed defs ->
  appt_id ∈ Specific.id <$> defs ->
  specific_schedule s = Parsed a ->
  Download.download_schedule (Cleaner.delete_specific_appointment appt_id s).2
  = match omap (Download.resolve_specific (Download.specific_lookup defs))
               (filter (fun p => p.2 ≠ appt_id) (Download.pairs a)) with
    | [] => Download.Redirect "No appointments scheduled to download."
    | rows => Download.Csv rows
    end.
Proof.
  intros Hdoc Hin Hsched.
  unfold Cleaner.delete_specific_appointment. rewrite Hdoc.
  destruct (filter_id_length Specific.id appt_id defs) as [Hlt _].
  rewrite (proj2 (Nat.eqb_neq _ _)) by (specialize (Hlt Hin); lia).
  cbn [snd].
  assert (forall s1,
    specific_defs s1 = Parsed (filter (fun x => Specific.id x ≠ appt_id) defs) ->
    specific_schedule s1 = Parsed a ->
    Download.download_schedule (Cleaner.cleanup_specific appt_id s1)
    = match omap (Download.resolve_specific (Download.specific_lookup defs))
                 (filter (fun p => p.2 ≠ appt_id) (Download.pairs a)) with
      | [] => Download.Redirect "No appointments scheduled to download."
      | rows => Download.Csv rows
      end) as Hgen.
  { intros s1 Hd1 Hs1. rewrite cleanup_specific_spec, Hs1.
    assert (omap (Download.resolve_specific
                    (Download.specific_lookup
                       (filter (fun x => Specific.id x ≠ appt_id) defs)))
                 (Download.pairs (Cleaner.purge appt_id a))
            = omap (Download.resolve_specific (Download.specific_lookup defs))
                   (filter (fun p => p.2 ≠ appt_id) (Download.pairs a))) as Hrows.
    { rewrite purge_pairs. apply omap_ext_elem. intros p Hp.
      apply list_elem_of_filter in Hp as [Hp _].
      unfold Download.resolve_specific. by rewrite specific_lookup_filter. }
    destruct (decide (appt_id ∈ Cleaner.ids_of a)) as [Hocc | Hocc].
    - rewrite (bool_decide_eq_true_2 _ Hocc). unfold Download.download_schedule.
      cbn [specific_defs specific_schedule Cleaner.save_specific_schedule].
      by rewrite Hd1, specific_rows_spec, Hrows.
    - rewrite (bool_decide_eq_false_2 _ Hocc). unfold Download.download_schedule.
      rewrite Hd1, Hs1, specific_rows_spec.
      by rewrite <- (purge_absent appt_id a Hocc) at 1; rewrite Hrows. }
  cbn [data_store Cleaner.save_specific_definitions].
  destruct (data_store s) as [[[cached|] rc]|]; by apply Hgen.
Qed.

(** A saved schedule is what the download then exports: after a save
    request accepted an assignment map, the download of the same flow
    builds its rows from that map and the stored definitions, which the
    save leaves alone. *)
Theorem saved_schedule_is_what_download_exports s a :
  (forall defs,
      specific_defs s = Parsed defs ->
      (save_schedule (Object a) s).1 = Success
      /\ specific_defs (save_schedule (Object a) s).2 = Parsed defs
      /\ Download.download_schedule (save_schedule (Object a) s).2
         = match omap (Download.resolve_specific (Download.specific_lookup defs))
                      (Download.pairs a) with
           | [] => Download.Redirect "No appointments scheduled to download."
           | rows => Download.Csv rows
           end)
  /\ (forall defs patterns,
      recurring_defs s = Parsed defs ->
      Pattern.derive defs = Some patterns ->
      (save_recurring_schedule (Object a) s).1 = Success
      /\ recurring_defs (save_recurring_schedule (Object a) s).2 = Parsed defs
      /\ Download.download_recurring_schedule (save_recurring_schedule (Object a) s).2
         = Some match omap (Download.resolve_recurring (Download.recurring_lookup defs)
                              (Download.pattern_map patterns))
                           (Download.pairs a) with
                | [] => Download.Redirect "No recurring assignments to download."
                | rows => Download.Csv rows
                end).
Proof.
  split.
  - intros defs Hdoc. unfold save_schedule. rewrite Hdoc.
    destruct (has_appointments (data_store s)) eqn:Hstore; simpl;
      rewrite ?Hstore; simpl; unfold Download.download_schedule; simpl;
      rewrite Hdoc, specific_rows_spec; done.
  - intros defs patterns Hdoc Hpat. unfold save_recurring_schedule. simpl.
    unfold Download.download_recurring_schedule. simpl.
    rewrite Hdoc, Hpat, recurring_rows_spec.
    split_and!; try done.
    by destruct (omap _ _).
Qed.

(** The button that loads the stored specific definitions does not lead
    to the date range: [use_existing_specific] caches them and redirects
    to the recurring page, and that page either replaces the cached entry
    by the recurring definitions, dropping what was just loaded, or, when
    no recurring definitions are stored, sends the user on to the
    recurring upload. *)
Theorem use_existing_specific_leads_to_recurring_page s appointments :
  specific_defs s = Parsed appointments ->
  (exists msg, (use_existing_specific s).1 = Flash "info" msg "recurring_schedule")
  /\ data_store (use_existing_specific s).2 = specific_only appointments
  /\ (forall l, recurring_defs s = Parsed l -> Forall Pattern.valid l ->
        exists patterns,
          Pattern.derive l = Some patterns
          /\ data_store (recurring_schedule_page (use_existing_specific s).2).2
             = recurring_only l patterns
          /\ has_appointments
               (data_store (recurring_schedule_page (use_existing_specific s).2).2)
             = false)
  /\ (recurring_defs s = Absent ->
      (recurring_schedule_page (use_existing_specific s).2).1
      = Bounced "No recurring definitions found. Please upload first." "recurring_upload").
Proof.
  intros Hdoc. unfold use_existing_specific. rewrite Hdoc. cbn [fst snd].
  split_and!; [by eexists | done | |].
  - intros l Hrec Hvalid. destruct (derive_spec l Hvalid) as (patterns & Hpat & _).
    exists patterns. split; [done |].
    unfold recurring_schedule_page, autoload_recurring. simpl.
    rewrite Hrec, Hpat. simpl. by destruct patterns.
  - intros Hrec. unfold recurring_schedule_page, autoload_recurring. simpl.
    by rewrite Hrec.
Qed.

End CompositionFacts.

(* ===================================================================== *)
(** * The cached recurring entry *)
(* ===================================================================== *)

Section CoherenceFacts.
Import Recurring Requests.

Implicit Types (s : state) (l : list appt).

Lemma coherent_ext s s' :
  recurring_defs s' = recurring_defs s -> data_store s' = data_store s ->
  coherent s -> coherent s'.
Proof. unfold coherent. by intros -> ->. Qed.

(** A valid document cached with its own pattern list. *)
Lemma coherent_cached l patterns a_cached s :
  Forall Pattern.valid l -> Pattern.derive l = Some patterns ->
  recurring_defs s = Parsed l ->
  data_store s = Some {| us_appointments := a_cached;
                         us_recurring := Some {| rc_appointments := l;
                                                 rc_patterns := patterns |} |} ->
  coherent s.
Proof. unfold coherent. intros Hv Hp -> ->. simpl. done. Qed.

Lemma coherent_valid s l : coherent s -> recurring_defs s = Parsed l -> Forall Pattern.valid l.
Proof. unfold coherent. intros [Hv _] Hdoc. by rewrite Hdoc in Hv. Qed.

Lemma coherent_stored s :
  coherent s ->
  Forall Pattern.valid match recurring_defs s with Parsed l => l | _ => [] end.
Proof. unfold coherent. intros [Hv _]. destruct (recurring_defs s); (done || constructor). Qed.

Lemma cleanup_recurring_keeps appt_id s :
  recurring_defs (Cleaner.cleanup_recurring appt_id s) = recurring_defs s
  /\ data_store (Cleaner.cleanup_recurring appt_id s) = data_store s.
Proof.
  rewrite cleanup_recurring_spec.
  destruct (recurring_schedule s); try done. by case_bool_decide.
Qed.

Lemma cleanup_specific_keeps appt_id s :
  recurring_defs (Cleaner.cleanup_specific appt_id s) = recurring_defs s
  /\ data_store (Cleaner.cleanup_specific appt_id s) = data_store s.
Proof.
  rewrite cleanup_specific_spec.
  destruct (specific_schedule s); try done. by case_bool_decide.
Qed.

Lemma cleanup_replaced_keeps R s :
  recurring_defs (cleanup_replaced R s) = recurring_defs s
  /\ data_store (cleanup_replaced R s) = data_store s.
Proof.
  rewrite cleanup_replaced_spec.
  destruct (recurring_schedule s); try done. by case_bool_decide.
Qed.

Lemma coherent_recurring_upload E n rows s :
  coherent s -> coherent (recurring_upload E n rows s).2.
Proof.
  intros Hs. unfold recurring_upload.
  destruct (Validate.recurring_upload_rows E n 0 rows) as [e | defs] eqn:Hrows; [done |].
  pose proof (recurring_upload_rows_valid E n 0 rows defs Hrows) as Hv.
  destruct (derive_spec defs Hv) as (patterns & Hpat & _).
  destruct defs as [|d defs]; [done |]. rewrite Hpat.
  by eapply coherent_cached.
Qed.

Lemma coherent_use_existing_recurring s :
  coherent s -> coherent (use_existing_recurring s).2.
Proof.
  intros Hs. unfold use_existing_recurring.
  destruct (recurring_defs s) as [| |l] eqn:Hdoc; try done.
  destruct (derive_spec l (coherent_valid s l Hs Hdoc)) as (patterns & Hpat & _).
  rewrite Hpat. by eapply coherent_cached; [eapply coherent_valid | ..].
Qed.

Lemma coherent_upload_recurring_merge E n rows s :
  coherent s -> coherent (upload_recurring_merge E n rows s).2.
Proof.
  intros Hs. unfold upload_recurring_merge.
  destruct (Validate.merge_new_rows 0 rows) as [e | new_rows] eqn:Hrows; [done |].
  pose proof (coherent_stored s Hs) as Hstored.
  destruct (recurring_defs s) as [| |l] eqn:Hdoc; [| done |];
    (match goal with
     | |- context [Merge.merge (uuid4 E) n ?ex new_rows] =>
         pose proof (merged_valid (uuid4 E) n ex 0 rows new_rows Hstored Hrows) as Hv;
         destruct (derive_spec _ Hv) as (patterns & Hpat & _);
         revert Hv Hpat;
         generalize (Merge.replaced_ids (Merge.merge (uuid4 E) n ex new_rows)) as R;
         generalize (Merge.merged (Merge.merge (uuid4 E) n ex new_rows)) as ml
     end);
    intros [|d ml] R Hv Hpat; try done; rewrite Hpat; cbn [snd];
    (eapply coherent_ext; [apply cleanup_replaced_keeps | apply cleanup_replaced_keeps |]);
    by eapply coherent_cached.
Qed.

Lemma coherent_add_recurring E n f s :
  coherent s -> coherent (add_recurring_appointment E n f s).2.
Proof.
  intros Hs. unfold add_recurring_appointment.
  destruct (Validate.add_recurring E n f) as [errs | a] eqn:Hadd; [done |].
  assert (Forall Pattern.valid
            (match recurring_defs s with Parsed l => l | _ => [] end ++ [a])) as Hv.
  { apply Forall_app. split; [by apply coherent_stored |].
    constructor; [by eapply add_recurring_valid | constructor]. }
  destruct (derive_spec _ Hv) as (patterns & Hpat & _). rewrite Hpat. cbn [snd].
  cbn [data_store Cleaner.save_recurring_definitions].
  destruct (data_store s) as [st|] eqn:Hstore.
  - by eapply coherent_cached.
  - unfold coherent. simpl. by rewrite Hstore.
Qed.

Lemma coherent_edit_recurring E p s :
  coherent s -> coherent (edit_recurring_appointment E p s).2.
Proof.
  intros Hs. unfold edit_recurring_appointment.
  destruct (recurring_defs s) as [| |l] eqn:Hdoc; try done.
  rewrite edit_loop_update_first.
  destruct (Validate.edit_fields E p) as [r|] eqn:Hr; [| by case_bool_decide].
  destruct (Validate.update_first (Validate.p_id p) r l) as [l'|] eqn:Hup; [| done].
  assert (Forall Pattern.valid l') as Hv.
  { eapply (update_first_Forall Pattern.valid); [| by eapply coherent_valid | done].
    intros i. apply edit_fields_valid in Hr. unfold Pattern.valid. simpl. tauto. }
  destruct (derive_spec _ Hv) as (patterns & Hpat & _).
  cbn [data_store Cleaner.save_recurring_definitions].
  destruct (data_store s) as [[ap [rc|]]|] eqn:Hstore.
  - destruct Hs as [_ Hc]. rewrite Hstore in Hc. simpl in Hc. destruct Hc as [Hl _].
    rewrite Hdoc in Hl. injection Hl as <-.
    rewrite (replace_first_update_first _ _ _ _ Hup), Hpat. cbn [snd].
    by eapply coherent_cached.
  - unfold coherent. simpl. by rewrite Hstore.
  - unfold coherent. simpl. by rewrite Hstore.
Qed.

Lemma coherent_delete_recurring appt_id s :
  coherent s -> coherent (Cleaner.delete_recurring_appointment appt_id s).2.
Proof.
  intros Hs. unfold Cleaner.delete_recurring_appointment.
  destruct (recurring_defs s) as [| |l] eqn:Hdoc; try done.
  destruct (Nat.eqb _ _); [done |].
  assert (Forall Pattern.valid (filter (fun a => id a ≠ appt_id) l)) as Hv.
  { apply Forall_forall. intros d Hd. apply list_elem_of_filter in Hd as [_ Hd].
    by apply (proj1 (Forall_forall _ _) (coherent_valid s l Hs Hdoc)). }
  destruct (derive_spec _ Hv) as (patterns & Hpat & _).
  cbn [data_store Cleaner.save_recurring_definitions].
  destruct (data_store s) as [[ap [rc|]]|] eqn:Hstore.
  - rewrite Hpat. cbn [snd].
    eapply coherent_ext; [apply cleanup_recurring_keeps | apply cleanup_recurring_keeps |].
    by eapply coherent_cached.
  - cbn [snd].
    eapply coherent_ext; [apply cleanup_recurring_keeps | apply cleanup_recurring_keeps |].
    unfold coherent. simpl. by rewrite Hstore.
  - cbn [snd].
    eapply coherent_ext; [apply cleanup_recurring_keeps | apply cleanup_recurring_keeps |].
    unfold coherent. simpl. by rewrite Hstore.
Qed.

Lemma coherent_autoload s :
  coherent s -> exists s1, autoload_recurring s = Some s1 /\ coherent s1.
Proof.
  intros Hs. unfold autoload_recurring.
  destruct (has_recurring (data_store s)); simpl; [by exists s |].
  destruct (recurring_defs s) as [| |l] eqn:Hdoc.
  - by exists s.
  - destruct Hs as [Hv _]. by rewrite Hdoc in Hv.
  - destruct (derive_spec l (coherent_valid s l Hs Hdoc)) as (patterns & Hpat & _).
    rewrite Hpat. eexists. split; [done |].
    by eapply coherent_cached; [eapply coherent_valid | ..].
Qed.

Lemma coherent_recurring_schedule_page s :
  coherent s -> coherent (recurring_schedule_page s).2.
Proof.
  intros Hs. unfold recurring_schedule_page.
  destruct (coherent_autoload s Hs) as (s1 & -> & Hs1).
  destruct (data_store s1) as [[ap [rc|]]|]; try done.
  by destruct (rc_patterns rc).
Qed.

Lemma coherent_delete_specific appt_id s :
  coherent s -> coherent (Cleaner.delete_specific_appointment appt_id s).2.
Proof.
  intros Hs. unfold Cleaner.delete_specific_appointment.
  destruct (specific_defs s) as [| |l]; try done.
  destruct (Nat.eqb _ _); [done |]. cbn [snd].
  eapply coherent_ext; [apply cleanup_specific_keeps | apply cleanup_specific_keeps |].
  cbn [data_store Cleaner.save_specific_definitions].
  destruct (data_store s) as [[[cached|] rc]|] eqn:Hstore;
    unfold coherent in *; simpl; rewrite ?Hstore in *; done.
Qed.

Lemma coherent_save_schedule data s :
  coherent s -> coherent (save_schedule data s).2.
Proof.
  intros Hs. unfold save_schedule.
  destruct (has_appointments (data_store s)) eqn:Hstore; simpl.
  - rewrite Hstore. simpl. by destruct data.
  - destruct (specific_defs s); simpl; rewrite ?Hstore; simpl; try done;
      destruct data; unfold coherent in *; simpl; tauto.
Qed.

Lemma coherent_step E s s' : coherent s -> step E s s' -> coherent s'.
Proof.
  intros Hs Hstep. destruct Hstep.
  - by apply coherent_recurring_upload.
  - by apply coherent_use_existing_recurring.
  - by apply coherent_upload_recurring_merge.
  - by apply coherent_add_recurring.
  - by apply coherent_edit_recurring.
  - by apply coherent_delete_recurring.
  - by apply coherent_recurring_schedule_page.
  - unfold save_recurring_schedule. by destruct data.
  - unfold upload_specific. destruct (Validate.upload_specific_rows E n rows); [done |].
    unfold coherent in *. simpl. tauto.
  - unfold use_existing_specific. destruct (specific_defs s); try done.
    unfold coherent in *. simpl. tauto.
  - by apply coherent_delete_specific.
  - by apply coherent_save_schedule.
Qed.

(** Along any sequence of requests that starts from a coherent state (a
    new user's, say), the stored recurring definitions always parse and
    have a weekday and an ordinal each, and whenever the recurring entry
    is cached it holds exactly the stored definitions with the pattern
    list computed from them: the page never shows definitions or patterns
    that differ from the stored ones, and no pattern sort raises. *)
Theorem recurring_cache_stays_coherent E s s' :
  coherent s -> rtc (step E) s s' -> coherent s'.
Proof.
  intros Hs Hsteps. induction Hsteps as [|s s1 s' Hstep _ IH]; [done |].
  apply IH. by eapply coherent_step.
Qed.

Lemma recurring_schedule_page_defs s :
  recurring_defs (recurring_schedule_page s).2 = recurring_defs s.
Proof.
  unfold recurring_schedule_page.
  assert (forall s1, autoload_recurring s = Some s1 -> recurring_defs s1 = recurring_defs s)
    as Hl.
  { unfold autoload_recurring. intros s1. destruct (negb _); [| by intros [= <-]].
    destruct (recurring_defs s) as [| |l] eqn:Hdoc; [by intros [= <-] | |];
      destruct (Pattern.derive _); intros [= <-]; done. }
  destruct (autoload_recurring s) as [s1|] eqn:Ha; [| done].
  destruct (data_store s1) as [[ap [rc|]]|]; try (by apply Hl).
  destruct (rc_patterns rc); by apply Hl.
Qed.

Lemma document_reachable_step E s s' :
  document_reachable E s -> step E s s' -> document_reachable E s'.
Proof.
  unfold document_reachable. intros Hs Hstep. destruct Hstep.
  - unfold recurring_upload.
    destruct (Validate.recurring_upload_rows E n 0 rows) as [e | defs] eqn:Hrows; [done |].
    destruct defs as [|d defs]; [done |].
    destruct (Pattern.derive _); simpl; by eapply Reach.reach_upload.
  - unfold use_existing_recurring.
    destruct (recurring_defs s) as [| |l] eqn:Hdoc; [by simpl; rewrite Hdoc | done |].
    destruct (Pattern.derive _); simpl; by rewrite ?Hdoc.
  - unfold upload_recurring_merge.
    destruct (Validate.merge_new_rows 0 rows) as [e | new_rows] eqn:Hrows; [done |].
    destruct (recurring_defs s) as [| |l] eqn:Hdoc; [| done |].
    + pose proof (Reach.reach_merge E [] n rows new_rows (Reach.reach_empty E) Hrows) as Hm.
      revert Hm. generalize (Merge.replaced_ids (Merge.merge (uuid4 E) n [] new_rows)) as R.
      generalize (Merge.merged (Merge.merge (uuid4 E) n [] new_rows)) as ml.
      intros [|d ml] R Hm; [by simpl; rewrite Hdoc |].
      destruct (Pattern.derive _); cbn [snd]; [| done].
      by rewrite (proj1 (cleanup_replaced_keeps _ _)).
    + pose proof (Reach.reach_merge E l n rows new_rows Hs Hrows) as Hm.
      revert Hm. generalize (Merge.replaced_ids (Merge.merge (uuid4 E) n l new_rows)) as R.
      generalize (Merge.merged (Merge.merge (uuid4 E) n l new_rows)) as ml.
      intros [|d ml] R Hm; [by simpl; rewrite Hdoc |].
      destruct (Pattern.derive _); cbn [snd]; [| done].
      by rewrite (proj1 (cleanup_replaced_keeps _ _)).
  - unfold add_recurring_appointment.
    destruct (Validate.add_recurring E n f) as [errs | a] eqn:Hadd; [done |].
    assert (Reach.reachable E
              (match recurring_defs s with Parsed l => l | _ => [] end ++ [a])) as Ha.
    { eapply Reach.reach_add; [| done].
      destruct (recurring_defs s); (done || apply Reach.reach_empty). }
    destruct (Pattern.derive _); cbn [snd]; [| done].
    cbn [data_store Cleaner.save_recurring_definitions]. by destruct (data_store s).
  - unfold edit_recurring_appointment.
    destruct (recurring_defs s) as [| |l] eqn:Hdoc;
      [by simpl; rewrite Hdoc | done |].
    rewrite edit_loop_update_first.
    destruct (Validate.edit_fields E p) as [r|] eqn:Hr;
      [| case_bool_decide; by simpl; rewrite Hdoc].
    destruct (Validate.update_first (Validate.p_id p) r l) as [l'|] eqn:Hup;
      [| by simpl; rewrite Hdoc].
    pose proof (Reach.reach_edit E l p r l' Hs Hr Hup) as Hl'.
    cbn [data_store Cleaner.save_recurring_definitions].
    destruct (data_store s) as [[ap [rc|]]|]; try done.
    by destruct (Pattern.derive _).
  - unfold Cleaner.delete_recurring_appointment.
    destruct (recurring_defs s) as [| |l] eqn:Hdoc;
      [by simpl; rewrite Hdoc | done |].
    destruct (Nat.eqb _ _); [by simpl; rewrite Hdoc |].
    pose proof (Reach.reach_delete E l appt_id Hs) as Hl'.
    cbn [data_store Cleaner.save_recurring_definitions].
    destruct (data_store s) as [[ap [rc|]]|]; cbn [snd];
      [destruct (Pattern.derive _); cbn [snd] | |];
      rewrite ?(proj1 (cleanup_recurring_keeps _ _)); done.
  - by rewrite recurring_schedule_page_defs.
  - unfold save_recurring_schedule. by destruct data.
  - unfold upload_specific. destruct (Validate.upload_specific_rows E n rows); done.
  - unfold use_existing_specific. destruct (specific_defs s); done.
  - unfold Cleaner.delete_specific_appointment.
    destruct (specific_defs s) as [| |l]; try done.
    destruct (Nat.eqb _ _); [done |]. cbn [snd].
    rewrite (proj1 (cleanup_specific_keeps _ _)).
    cbn [data_store Cleaner.save_specific_definitions].
    by destruct (data_store s) as [[[cached|] rc]|].
  - unfold save_schedule.
    destruct (has_appointments (data_store s)) eqn:Hstore; simpl.
    + rewrite Hstore. simpl. by destruct data.
    + destruct (specific_defs s); simpl; rewrite ?Hstore; simpl; try done;
        by destruct data.
Qed.

(** Whatever requests a user sends, in whatever order, the stored
    recurring definitions are a document of the kind the merge is proved
    for: one produced from the empty document by uploads, additions, edits,
    deletions and merges. *)
Theorem stored_definitions_stay_reachable E s s' :
  document_reachable E s -> rtc (step E) s s' -> document_reachable E s'.
Proof.
  intros Hs Hsteps. induction Hsteps as [|s s1 s' Hstep _ IH]; [done |].
  apply IH. by eapply document_reachable_step.
Qed.


(** In a coherent state with stored definitions the recurring page is
    always rendered, with the stored definitions, their non-empty pattern
    list and the saved assignments: neither of its two error redirects can
    happen. *)
Theorem recurring_page_shows_stored_definitions s l :
  coherent s -> recurring_defs s = Parsed l -> l <> [] ->
  exists patterns,
    Pattern.derive l = Some patterns /\ patterns <> []
    /\ (recurring_schedule_page s).1
       = Rendered l patterns
           match recurring_schedule s with
           | Parsed a => Some a
           | Absent | Malformed => None
           end.
Proof.
  intros Hs Hdoc Hne.
  pose proof (coherent_valid s l Hs Hdoc) as Hv.
  destruct (derive_spec l Hv) as (patterns & Hpat & Hperm & _).
  exists patterns. split; [done |].
  assert (patterns <> []) as Hpne.
  { intros ->. apply Permutation_nil_l in Hperm.
    destruct l as [|a l]; [done |].
    assert (Pattern.pat_of a ∈ Pattern.collect (a :: l)) as Hin
      by (apply collect_elem_of; [done | exists a; split; [left | done]]).
    rewrite <- Hperm in Hin. by apply elem_of_nil in Hin. }
  split; [done |].
  unfold recurring_schedule_page, autoload_recurring.
  destruct (data_store s) as [[ap [rc|]]|] eqn:Hstore; simpl.
  - destruct Hs as [_ Hc]. rewrite Hstore in Hc. simpl in Hc. destruct Hc as [Hl Hp].
    rewrite Hdoc in Hl. injection Hl as ->. rewrite Hpat in Hp. injection Hp as Hp.
    rewrite Hstore, <- Hp. by destruct patterns.
  - rewrite Hdoc, Hpat. simpl. by destruct patterns.
  - rewrite Hdoc, Hpat. simpl. by destruct patterns.
Qed.

(** A time that the upload wrote is read back by the add route as the
    same hour: for every row that [recurring_upload] accepts, the stored
    time texts pass the parser of [add_recurring_appointment] and give the
    stored start and end hours. *)
Theorem add_route_reads_uploaded_times E idx c r :
  parsers_read_HM E ->
  Validate.check_row idx c = inr r ->
  Validate.hour_of_text E (start_time_str r) = Some (start_hour r)
  /\ Validate.hour_of_text E (end_time_str r) = Some (end_hour r).
Proof.
  intros HE Hc.
  assert (forall n, n < 100 -> Py.float_overflows (Z.of_nat n) = false) as Hfin.
  { assert (List.forallb (fun n => negb (Py.float_overflows (Z.of_nat n))) (seq 0 100)
            = true) as Hall by (vm_compute; reflexivity).
    rewrite List.forallb_forall in Hall. intros n Hn.
    apply negb_true_iff, Hall, List.in_seq. lia. }
  assert (forall h m, h < 24 -> m < 60 ->
    Validate.hour_of_text E (strftime_HM h m)
    = Some (Py.hour_float (Z.of_nat h) (Z.of_nat m))) as Hread.
  { intros h m Hh Hm. unfold Validate.hour_of_text.
    rewrite split_on_strftime, !(py_int_two_digits E HE) by lia.
    rewrite !Hfin by lia. by rewrite strftime_HM_unfold. }
  apply check_row_canonical in Hc
    as (h & m & h2 & m2 & Hh & Hm & Hh2 & Hm2 & -> & -> & -> & ->).
  split; by apply Hread.
Qed.

End CoherenceFacts.

(* ===================================================================== *)
(** * The request properties on concrete states *)
(* ===================================================================== *)

Section RequestInstances.
Import Recurring Examples Samples Requests.

Lemma uploaded_coherent : coherent uploaded.
Proof. split; [exact stored_valid | exact I]. Qed.

Lemma uuids_fresh_for_uploaded_schedule j :
  2 <= j -> uuids j ∉ Cleaner.ids_of uploaded_schedule.
Proof.
  intros Hj Hin.
  change (Cleaner.ids_of uploaded_schedule)
    with [uuids 0; uuids 1; uuids 1; uuids 1; uuids 0] in Hin.
  repeat (apply elem_of_cons in Hin as [Hin | Hin]; [apply uuids_inj in Hin; lia |]).
  by apply elem_of_nil in Hin.
Qed.

(** The invariant on the document that the upload of A and B stores. *)
Lemma reachable_definitions_well_formed_witness :
  Reach.reachable plain stored
  /\ Forall (fun a => Pattern.valid a
                      /\ PrimFloat.leb (end_hour (fields a)) (start_hour (fields a)) = false)
            stored
  /\ is_Some (Pattern.derive stored).
Proof.
  split; [exact stored_reachable |].
  exact (reachable_definitions_well_formed plain stored stored_reachable).
Defined.

(** A merge of a changed A and an unchanged B against the stored A and
    B: the identifier of A leaves the saved assignments. *)
Lemma merge_request_removes_replaced_ids_witness :
  Validate.merge_new_rows 0 [csvA (Py.Int 150); csvB] = inr [rowA (Py.Int 150); rowB]
  /\ [csvA (Py.Int 150); csvB] <> []
  /\ recurring_defs uploaded = Parsed stored
  /\ Forall Pattern.valid stored
  /\ recurring_schedule uploaded = Parsed uploaded_schedule
  /\ let m := Merge.merge (uuid4 plain) 2 stored [rowA (Py.Int 150); rowB] in
     let s' := (upload_recurring_merge plain 2 [csvA (Py.Int 150); csvB] uploaded).2 in
     recurring_defs s' = Parsed (Merge.merged m)
     /\ recurring_schedule s' = Parsed (expunge (Merge.replaced_ids m) uploaded_schedule)
     /\ (forall i, i ∈ Merge.replaced_ids m ->
                   i ∉ Cleaner.ids_of (expunge (Merge.replaced_ids m) uploaded_schedule))
     /\ writes s'
        = writes uploaded ++ recurring_definitions
            :: (if bool_decide (Exists (fun i => i ∈ Merge.replaced_ids m)
                                       (Cleaner.ids_of uploaded_schedule))
                then [recurring_schedules] else [])
     /\ specific_defs s' = specific_defs uploaded
     /\ specific_schedule s' = specific_schedule uploaded.
Proof.
  assert (Validate.merge_new_rows 0 [csvA (Py.Int 150); csvB]
          = inr [rowA (Py.Int 150); rowB]) as H1 by (vm_compute; reflexivity).
  assert ([csvA (Py.Int 150); csvB] <> []) as H2 by discriminate.
  split; [exact H1 |]. split; [exact H2 |]. split; [reflexivity |].
  split; [exact stored_valid |]. split; [reflexivity |].
  exact (merge_request_removes_replaced_ids plain 2 _ _ stored uploaded_schedule uploaded
           H1 H2 eq_refl stored_valid eq_refl).
Defined.


(** A batch whose second row has no weekday. *)
Lemma invalid_row_leaves_state_unchanged_witness :
  bad_day ∈ [csvA (Py.Int 100); bad_day; csvB]
  /\ Validate.merge_check_row bad_day = None
  /\ (exists e, Validate.check_row 0 bad_day = inl e)
  /\ (exists e, upload_recurring_merge plain 2 [csvA (Py.Int 100); bad_day; csvB] uploaded
                = (Flash "error" (MergeRowMessage e) "recurring_upload", uploaded))
  /\ (exists e, recurring_upload plain 2 [csvA (Py.Int 100); bad_day; csvB] uploaded
                = (Flash "error" (RowMessage e) "recurring_upload", uploaded)).
Proof.
  assert (bad_day ∈ [csvA (Py.Int 100); bad_day; csvB]) as H1 by (right; left).
  assert (Validate.merge_check_row bad_day = None) as H2 by (vm_compute; reflexivity).
  assert (exists e, Validate.check_row 0 bad_day = inl e) as H3
    by (eexists; vm_compute; reflexivity).
  split; [exact H1 |]. split; [exact H2 |]. split; [exact H3 |].
  exact (conj
    (proj1 (invalid_row_leaves_state_unchanged plain 2 _ uploaded bad_day H1) H2)
    (proj2 (invalid_row_leaves_state_unchanged plain 2 _ uploaded bad_day H1) H3)).
Defined.

(** The first upload of a new user. *)
Lemma recurring_upload_replaces_definitions_witness :
  Validate.recurring_upload_rows plain 0 0 [csvA (Py.Int 100); csvB] = inr stored
  /\ [csvA (Py.Int 100); csvB] <> []
  /\ let s' := (recurring_upload plain 0 [csvA (Py.Int 100); csvB] fresh).2 in
     recurring_defs s' = Parsed stored
     /\ id <$> stored = uuid4 plain <$> seq 0 (length [csvA (Py.Int 100); csvB])
     /\ ((forall i j, uuid4 plain i = uuid4 plain j -> i = j) -> NoDup (id <$> stored))
     /\ (exists patterns,
           Pattern.derive stored = Some patterns
           /\ data_store s' = recurring_only stored patterns)
     /\ recurring_schedule s' = recurring_schedule fresh
     /\ writes s' = writes fresh ++ [recurring_definitions].
Proof.
  assert ([csvA (Py.Int 100); csvB] <> []) as H2 by discriminate.
  split; [exact stored_uploaded |]. split; [exact H2 |].
  exact (recurring_upload_replaces_definitions plain 0 _ stored fresh stored_uploaded H2).
Defined.

(** A second upload, of the row C alone, over the saved assignments. *)
Lemma recurring_upload_orphans_saved_assignments_witness :
  Validate.recurring_upload_rows plain 2 0 [csvC] = inr [ {| id := uuids 2; fields := rowC |} ]
  /\ [csvC] <> []
  /\ recurring_schedule uploaded = Parsed uploaded_schedule
  /\ (forall j, 2 <= j -> uuid4 plain j ∉ Cleaner.ids_of uploaded_schedule)
  /\ Download.download_recurring_schedule (recurring_upload plain 2 [csvC] uploaded).2
     = Some (Download.Redirect "No recurring assignments to download.").
Proof.
  assert (Validate.recurring_upload_rows plain 2 0 [csvC]
          = inr [ {| id := uuids 2; fields := rowC |} ]) as H1 by (vm_compute; reflexivity).
  assert ([csvC] <> []) as H2 by discriminate.
  split; [exact H1 |]. split; [exact H2 |]. split; [reflexivity |].
  split; [exact uuids_fresh_for_uploaded_schedule |].
  exact (recurring_upload_orphans_saved_assignments plain 2 _ _ uploaded_schedule uploaded
           H1 H2 eq_refl uuids_fresh_for_uploaded_schedule).
Defined.

(** The patterns of [four_defs]. *)
Lemma derive_covers_definitions_witness :
  Forall Pattern.valid four_defs
  /\ exists patterns,
       Pattern.derive four_defs = Some patterns
       /\ forall p, p ∈ patterns <-> exists a, a ∈ four_defs /\ p = Pattern.pat_of a.
Proof.
  split; [exact four_defs_valid |].
  exact (derive_covers_definitions four_defs four_defs_valid).
Defined.

(** An edit of an unknown identifier and an edit with its times in the
    wrong order. *)
Lemma failed_edit_changes_nothing_witness :
  recurring_defs uploaded = Parsed stored
  /\ ("ghost" ∉ id <$> stored)
  /\ uuids 0 ∈ id <$> stored
  /\ Validate.edit_fields plain (ends_before_start (uuids 0)) = None
  /\ edit_recurring_appointment plain (ends_before_start "ghost") uploaded
     = (EditFailed 404, uploaded)
  /\ edit_recurring_appointment plain (ends_before_start (uuids 0)) uploaded
     = (EditFailed 400, uploaded).
Proof.
  assert ("ghost" ∉ id <$> stored) as H1 by decide_by_compute.
  assert (uuids 0 ∈ id <$> stored) as H2 by decide_by_compute.
  assert (Validate.edit_fields plain (ends_before_start (uuids 0)) = None) as H3
    by (vm_compute; reflexivity).
  split; [reflexivity |]. split; [exact H1 |]. split; [exact H2 |]. split; [exact H3 |].
  exact (conj
    (proj1 (failed_edit_changes_nothing plain (ends_before_start "ghost")
              uploaded stored eq_refl) H1)
    (proj2 (failed_edit_changes_nothing plain (ends_before_start (uuids 0))
              uploaded stored eq_refl) H2 H3)).
Defined.

(** An edit of the stored A. *)
Lemma edit_updates_first_match_only_witness :
  recurring_defs uploaded = Parsed stored
  /\ stored !! 0 = Some {| id := uuids 0; fields := rowA (Py.Int 100) |}
  /\ (forall j b, j < 0 -> stored !! j = Some b -> id b <> uuids 0)
  /\ Validate.edit_fields plain (to_second_tuesday (uuids 0)) = Some second_tuesday_row
  /\ let s' := (edit_recurring_appointment plain (to_second_tuesday (uuids 0)) uploaded).2 in
     recurring_defs s'
     = Parsed (<[0 := {| id := uuids 0; fields := second_tuesday_row |}]> stored)
     /\ id <$> <[0 := {| id := uuids 0; fields := second_tuesday_row |}]> stored
        = id <$> stored
     /\ (forall j, j <> 0 ->
           <[0 := {| id := uuids 0; fields := second_tuesday_row |}]> stored !! j
           = stored !! j)
     /\ writes s' = writes uploaded ++ [recurring_definitions]
     /\ recurring_schedule s' = recurring_schedule uploaded
     /\ specific_defs s' = specific_defs uploaded
     /\ specific_schedule s' = specific_schedule uploaded
     /\ (data_store uploaded = None ->
         (edit_recurring_appointment plain (to_second_tuesday (uuids 0)) uploaded).1
         = Updated {| id := uuids 0; fields := second_tuesday_row |}).
Proof.
  assert (forall j b, j < 0 -> stored !! j = Some b -> id b <> uuids 0) as H3
    by (intros j b Hj; lia).
  assert (Validate.edit_fields plain (to_second_tuesday (uuids 0))
          = Some second_tuesday_row) as H4 by (vm_compute; reflexivity).
  split; [reflexivity |]. split; [reflexivity |]. split; [exact H3 |]. split; [exact H4 |].
  exact (edit_updates_first_match_only plain (to_second_tuesday (uuids 0)) uploaded stored 0
           {| id := uuids 0; fields := rowA (Py.Int 100) |} second_tuesday_row
           eq_refl eq_refl eq_refl H3 H4).
Defined.

(** A definition for the third Friday added to the stored A and B. *)
Lemma add_appends_definition_witness :
  Validate.add_recurring plain 2 third_friday = inr third_friday_appt
  /\ Forall Pattern.valid stored
  /\ (add_recurring_appointment plain 2 third_friday uploaded).1 = Added third_friday_appt
  /\ id third_friday_appt = uuid4 plain 2
  /\ recurring_defs (add_recurring_appointment plain 2 third_friday uploaded).2
     = Parsed (stored ++ [third_friday_appt])
  /\ writes (add_recurring_appointment plain 2 third_friday uploaded).2
     = writes uploaded ++ [recurring_definitions]
  /\ recurring_schedule (add_recurring_appointment plain 2 third_friday uploaded).2
     = recurring_schedule uploaded
  /\ specific_defs (add_recurring_appointment plain 2 third_friday uploaded).2
     = specific_defs uploaded
  /\ specific_schedule (add_recurring_appointment plain 2 third_friday uploaded).2
     = specific_schedule uploaded.
Proof.
  assert (Validate.add_recurring plain 2 third_friday = inr third_friday_appt) as H1
    by (vm_compute; reflexivity).
  split; [exact H1 |]. split; [exact stored_valid |].
  exact (add_appends_definition plain 2 third_friday third_friday_appt uploaded
           H1 stored_valid).
Defined.

(** Three days, from the third to the fifth of the calendar. *)
Lemma configure_lists_every_date_witness :
  has_appointments (data_store busy) = true
  /\ "xxx" <> ""
  /\ "xxxxx" <> ""
  /\ Calendar.fromisoformat unary "xxx" = Some 3%Z
  /\ Calendar.fromisoformat unary "xxxxx" = Some 5%Z
  /\ (3 <= 5 < Calendar.date_max)%Z
  /\ exists l,
       Calendar.configure unary "xxx" "xxxxx" busy
       = Calendar.Configured {| Calendar.date_start := Calendar.isoformat unary 3;
                                Calendar.date_end := Calendar.isoformat unary 5;
                                Calendar.dates := l |}
       /\ length l = Z.to_nat (5 - 3 + 1)
       /\ forall i : nat, i < length l ->
            l !! i = Some (Calendar.isoformat unary (3 + Z.of_nat i)).
Proof.
  assert ("xxx" <> "") as H2 by discriminate.
  assert ("xxxxx" <> "") as H3 by discriminate.
  assert (3 <= 5 < Calendar.date_max)%Z as H6 by (unfold Calendar.date_max; lia).
  split; [reflexivity |]. split; [exact H2 |]. split; [exact H3 |].
  split; [reflexivity |]. split; [reflexivity |]. split; [exact H6 |].
  exact (proj1 (configure_lists_every_date unary busy "xxx" "xxxxx" 3 5
                  eq_refl H2 H3 eq_refl eq_refl) H6).
Defined.

(** The download of [busy] after its one specific definition is
    deleted. *)
Lemma download_after_delete_witness :
  specific_defs busy = Parsed [one_specific]
  /\ "s1" ∈ Specific.id <$> [one_specific]
  /\ specific_schedule busy
     = Parsed [ ("2024-01-01", [ ("Trailer 1_A", ["s1"; "ghost"; "s1"]);
                                 ("Trailer 2_B", ["ghost"]) ]);
                ("2024-01-02", [ ("Straight 1_A", []) ]) ]
  /\ Download.download_schedule (Cleaner.delete_specific_appointment "s1" busy).2
     = match omap (Download.resolve_specific (Download.specific_lookup [one_specific]))
                  (filter (fun p => p.2 ≠ "s1")
                     (Download.pairs
                        [ ("2024-01-01", [ ("Trailer 1_A", ["s1"; "ghost"; "s1"]);
                                           ("Trailer 2_B", ["ghost"]) ]);
                          ("2024-01-02", [ ("Straight 1_A", []) ]) ])) with
       | [] => Download.Redirect "No appointments scheduled to download."
       | rows => Download.Csv rows
       end.
Proof.
  assert ("s1" ∈ Specific.id <$> [one_specific]) as H2 by decide_by_compute.
  split; [reflexivity |]. split; [exact H2 |]. split; [reflexivity |].
  exact (download_after_delete busy "s1" [one_specific] _ eq_refl H2 eq_refl).
Defined.

(** The button on a state that has both kinds of definitions. *)
Lemma use_existing_specific_leads_to_recurring_page_witness :
  specific_defs busy = Parsed [one_specific]
  /\ (exists msg, (use_existing_specific busy).1 = Flash "info" msg "recurring_schedule")
  /\ data_store (use_existing_specific busy).2 = specific_only [one_specific]
  /\ (forall l, recurring_defs busy = Parsed l -> Forall Pattern.valid l ->
        exists patterns,
          Pattern.derive l = Some patterns
          /\ data_store (recurring_schedule_page (use_existing_specific busy).2).2
             = recurring_only l patterns
          /\ has_appointments
               (data_store (recurring_schedule_page (use_existing_specific busy).2).2)
             = false)
  /\ (recurring_defs busy = Absent ->
      (recurring_schedule_page (use_existing_specific busy).2).1
      = Bounced "No recurring definitions found. Please upload first." "recurring_upload").
Proof.
  split; [reflexivity |].
  exact (use_existing_specific_leads_to_recurring_page busy [one_specific] eq_refl).
Defined.

(** A new user uploads A and B and then adds a definition. *)
Lemma recurring_cache_stays_coherent_witness :
  coherent fresh
  /\ rtc (step plain) fresh
       (add_recurring_appointment plain 2 third_friday
          (recurring_upload plain 0 [csvA (Py.Int 100); csvB] fresh).2).2
  /\ coherent
       (add_recurring_appointment plain 2 third_friday
          (recurring_upload plain 0 [csvA (Py.Int 100); csvB] fresh).2).2.
Proof.
  assert (coherent fresh) as H1 by (split; exact I).
  assert (rtc (step plain) fresh
            (add_recurring_appointment plain 2 third_friday
               (recurring_upload plain 0 [csvA (Py.Int 100); csvB] fresh).2).2) as H2.
  { eapply rtc_l; [apply step_recurring_upload |].
    apply rtc_once. apply step_add_recurring. }
  split; [exact H1 |]. split; [exact H2 |].
  exact (recurring_cache_stays_coherent plain fresh _ H1 H2).
Defined.

(** The same two requests keep the document reachable. *)
Lemma stored_definitions_stay_reachable_witness :
  document_reachable plain fresh
  /\ rtc (step plain) fresh
       (add_recurring_appointment plain 2 third_friday
          (recurring_upload plain 0 [csvA (Py.Int 100); csvB] fresh).2).2
  /\ document_reachable plain
       (add_recurring_appointment plain 2 third_friday
          (recurring_upload plain 0 [csvA (Py.Int 100); csvB] fresh).2).2.
Proof.
  assert (document_reachable plain fresh) as H1 by exact I.
  assert (rtc (step plain) fresh
            (add_recurring_appointment plain 2 third_friday
               (recurring_upload plain 0 [csvA (Py.Int 100); csvB] fresh).2).2) as H2.
  { eapply rtc_l; [apply step_recurring_upload |].
    apply rtc_once. apply step_add_recurring. }
  split; [exact H1 |]. split; [exact H2 |].
  exact (stored_definitions_stay_reachable plain fresh _ H1 H2).
Defined.


(** The recurring page of the uploaded state. *)
Lemma recurring_page_shows_stored_definitions_witness :
  coherent uploaded
  /\ recurring_defs uploaded = Parsed stored
  /\ stored <> []
  /\ exists patterns,
       Pattern.derive stored = Some patterns /\ patterns <> []
       /\ (recurring_schedule_page uploaded).1
          = Rendered stored patterns
              match recurring_schedule uploaded with
              | Parsed a => Some a
              | Absent | Malformed => None
              end.
Proof.
  assert (stored <> []) as H3 by discriminate.
  split; [exact uploaded_coherent |]. split; [reflexivity |]. split; [exact H3 |].
  exact (recurring_page_shows_stored_definitions uploaded stored
           uploaded_coherent eq_refl H3).
Defined.

(** The times of the row A, read by the add route. *)
Lemma add_route_reads_uploaded_times_witness :
  parsers_read_HM plain
  /\ Validate.check_row 0 (csvA (Py.Int 100)) = inr (rowA (Py.Int 100))
  /\ Validate.hour_of_text plain (start_time_str (rowA (Py.Int 100)))
     = Some (start_hour (rowA (Py.Int 100)))
  /\ Validate.hour_of_text plain (end_time_str (rowA (Py.Int 100)))
     = Some (end_hour (rowA (Py.Int 100))).
Proof.
  assert (Validate.check_row 0 (csvA (Py.Int 100)) = inr (rowA (Py.Int 100))) as H2
    by (vm_compute; reflexivity).
  split; [exact plain_reads_HM |]. split; [exact H2 |].
  exact (add_route_reads_uploaded_times plain 0 _ _ plain_reads_HM H2).
Defined.

(** The merge request and the date range, evaluated. *)
Example merge_request_on_uploaded :
  recurring_schedule
    (upload_recurring_merge plain 2 [csvA (Py.Int 150); csvB] uploaded).2
  = Parsed [ ("First Monday", [ ("Trailer 1_A", [uuids 1]); ("Trailer 2_B", [uuids 1]) ]);
             ("Second Tuesday", [ ("Trailer 1_A", [uuids 1]) ]) ]
  /\ Merge.ids_of match recurring_defs
                          (upload_recurring_merge plain 2 [csvA (Py.Int 150); csvB]
                             uploaded).2 with
                  | Parsed l => l
                  | _ => []
                  end
     = [uuids 2; uuids 1]
  /\ writes (upload_recurring_merge plain 2 [csvA (Py.Int 150); csvB] uploaded).2
     = [recurring_definitions; recurring_schedules].
Proof. split_and!; vm_compute; reflexivity. Qed.

Example configure_three_days :
  Calendar.configure unary "xxx" "xxxxx" busy
  = Calendar.Configured {| Calendar.date_start := "xxx"; Calendar.date_end := "xxxxx";
                           Calendar.dates := ["xxx"; "xxxx"; "xxxxx"] |}.
Proof. vm_compute. reflexivity. Qed.

End RequestInstances.

(* ===================================================================== *)
(** * The recurring download after a delete *)
(* ===================================================================== *)

Section RecurringDownloadFacts.
Import Recurring Requests.

Implicit Types (s : state) (a : assignments) (defs : list appt).

Lemma recurring_lookup_filter appt_id aid defs :
  aid ≠ appt_id ->
  Download.recurring_lookup (filter (fun x => id x ≠ appt_id) defs) !! aid
  = Download.recurring_lookup defs !! aid.
Proof.
  intros Hne. unfold Download.recurring_lookup.
  assert (forall m m' : gmap string appt, m !! aid = m' !! aid ->
    foldl (fun acc x => <[id x := x]> acc) m (filter (fun x => id x ≠ appt_id) defs) !! aid
    = foldl (fun acc x => <[id x := x]> acc) m' defs !! aid) as Hgen.
  { induction defs as [|d defs IH]; intros m m' Hm; [done |].
    rewrite filter_cons. destruct (decide (id d ≠ appt_id)) as [Hd | Hd]; simpl.
    - apply IH. destruct (decide (id d = aid)) as [<- | Hda].
      + by rewrite !lookup_insert_eq.
      + by rewrite !lookup_insert_ne.
    - apply IH. rewrite lookup_insert_ne; [done |].
      intros Heq. apply Hne. rewrite <- Heq.
      destruct (decide (id d = appt_id)); [done | by exfalso; apply Hd]. }
  by apply Hgen.
Qed.

Lemma pattern_map_lookup pats lbl p :
  Download.pattern_map pats !! lbl = Some p -> p ∈ pats /\ Pattern.label p = lbl.
Proof. apply (dict_lookup_Some Pattern.label). Qed.

Lemma pattern_map_is_Some pats lbl :
  is_Some (Download.pattern_map pats !! lbl) <-> lbl ∈ Pattern.label <$> pats.
Proof. apply (dict_lookup_is_Some Pattern.label). Qed.

(** Two patterns built from valid definitions with the same label are the
    same pattern. *)
Lemma built_label_inj p q :
  Pattern.built p -> Pattern.built q -> Pattern.label p = Pattern.label q -> p = q.
Proof.
  intros (Hp & Hpf & Hpd) (Hq & Hqf & Hqd) Hl.
  rewrite Hp, Hq in Hl. apply label_of_inj in Hl as [Hf Hd]; try done.
  destruct p, q. simpl in *. congruence.
Qed.

(** A label that is still a pattern after some definitions are removed
    names the same pattern as before. *)
Lemma pattern_map_sublist defs defs' pats pats' lbl :
  Forall Pattern.valid defs -> (forall d, d ∈ defs' -> d ∈ defs) ->
  Pattern.derive defs = Some pats -> Pattern.derive defs' = Some pats' ->
  lbl ∈ Pattern.label <$> pats' ->
  Download.pattern_map pats' !! lbl = Download.pattern_map pats !! lbl.
Proof.
  intros Hv Hsub Hpat Hpat' Hin.
  assert (Forall Pattern.valid defs') as Hv'.
  { apply Forall_forall. intros d Hd. by apply (proj1 (Forall_forall _ _) Hv), Hsub. }
  destruct (derive_spec defs Hv) as (ps & Hps & Hperm & _ & Hbuilt).
  destruct (derive_spec defs' Hv') as (ps' & Hps' & Hperm' & _ & Hbuilt').
  rewrite Hpat in Hps. injection Hps as <-. rewrite Hpat' in Hps'. injection Hps' as <-.
  apply pattern_map_is_Some in Hin as [p' Hp'].
  destruct (pattern_map_lookup _ _ _ Hp') as [Hp'in Hp'l].
  assert (p' ∈ pats) as Hp'pats.
  { rewrite Hperm. rewrite Hperm' in Hp'in.
    apply collect_elem_of in Hp'in as (d & Hd & ->); [| done].
    apply collect_elem_of; [done |]. exists d. split; [by apply Hsub | done]. }
  assert (is_Some (Download.pattern_map pats !! lbl)) as [p Hp].
  { apply pattern_map_is_Some. rewrite <- Hp'l. by apply (list_elem_of_fmap_2 Pattern.label). }
  destruct (pattern_map_lookup _ _ _ Hp) as [Hpin Hpl].
  rewrite Hp', Hp. f_equal. apply built_label_inj.
  - by apply (proj1 (Forall_forall _ _) Hbuilt').
  - by apply (proj1 (Forall_forall _ _) Hbuilt).
  - congruence.
Qed.

Lemma omap_filter {X Y : Type} (g : X -> option Y) (P : X -> Prop)
    `{!forall x, Decision (P x)} (l : list X) :
  omap (fun x => if decide (P x) then g x else None) l = omap g (filter P l).
Proof.
  induction l as [|x l IH]; [done |].
  rewrite filter_cons. cbn [omap list_omap].
  destruct (decide (P x)); cbn [omap list_omap]; by rewrite <- IH.
Qed.

(** The recurring download after a successful delete keeps the rows of
    the other identifiers under every pattern label that still has a
    definition, unchanged and in order.  The occurrences of the deleted
    identifier give no row, and neither do the occurrences under a label
    whose last definition was the deleted one. *)
Theorem download_recurring_after_delete s appt_id defs a :
  recurring_defs s = Parsed defs ->
  Forall Pattern.valid defs ->
  appt_id ∈ id <$> defs ->
  recurring_schedule s = Parsed a ->
  exists patterns patterns',
    Pattern.derive defs = Some patterns
    /\ Pattern.derive (filter (fun x => id x ≠ appt_id) defs) = Some patterns'
    /\ Download.download_recurring_schedule
         (Cleaner.delete_recurring_appointment appt_id s).2
       = Some match omap (Download.resolve_recurring (Download.recurring_lookup defs)
                            (Download.pattern_map patterns))
                         (filter (fun p => p.2 ≠ appt_id
                                           /\ p.1.1 ∈ Pattern.label <$> patterns')
                                 (Download.pairs a)) with
              | [] => Download.Redirect "No recurring assignments to download."
              | rows => Download.Csv rows
              end.
Proof.
  intros Hdoc Hv Hin Hsched.
  set (defs' := filter (fun x => id x ≠ appt_id) defs).
  assert (forall d, d ∈ defs' -> d ∈ defs) as Hsub
    by (intros d Hd; by apply list_elem_of_filter in Hd as [_ Hd]).
  assert (Forall Pattern.valid defs') as Hv'.
  { apply Forall_forall. intros d Hd. by apply (proj1 (Forall_forall _ _) Hv), Hsub. }
  destruct (derive_spec defs Hv) as (patterns & Hpat & _).
  destruct (derive_spec defs' Hv') as (patterns' & Hpat' & _).
  exists patterns, patterns'. split; [done |]. split; [done |].
  assert (omap (Download.resolve_recurring (Download.recurring_lookup defs')
                  (Download.pattern_map patterns'))
               (Download.pairs (Cleaner.purge appt_id a))
          = omap (Download.resolve_recurring (Download.recurring_lookup defs)
                    (Download.pattern_map patterns))
                 (filter (fun p => p.2 ≠ appt_id /\ p.1.1 ∈ Pattern.label <$> patterns')
                         (Download.pairs a))) as Hrows.
  { rewrite purge_pairs, <- !omap_filter. apply omap_ext_elem. intros p _.
    destruct (decide (p.2 ≠ appt_id)) as [Hne | Heq];
      destruct (decide (p.2 ≠ appt_id /\ p.1.1 ∈ Pattern.label <$> patterns'))
        as [[Hne' Hl] | Hn]; try done.
    - unfold Download.resolve_recurring.
      rewrite (pattern_map_sublist defs defs' patterns patterns' p.1.1) by done.
      unfold defs'. by rewrite recurring_lookup_filter.
    - unfold Download.resolve_recurring.
      destruct (Download.pattern_map patterns' !! p.1.1) as [pat|] eqn:Hpm; [| done].
      exfalso. apply Hn. split; [done |]. apply pattern_map_is_Some. by eexists. }
  assert (forall s1,
    recurring_defs s1 = Parsed defs' -> recurring_schedule s1 = Parsed a ->
    Download.download_recurring_schedule (Cleaner.cleanup_recurring appt_id s1)
    = Some match omap (Download.resolve_recurring (Download.recurring_lookup defs)
                         (Download.pattern_map patterns))
                      (filter (fun p => p.2 ≠ appt_id
                                        /\ p.1.1 ∈ Pattern.label <$> patterns')
                              (Download.pairs a)) with
           | [] => Download.Redirect "No recurring assignments to download."
           | rows => Download.Csv rows
           end) as Hgen.
  { intros s1 Hd1 Hs1. rewrite cleanup_recurring_spec, Hs1.
    destruct (decide (appt_id ∈ Cleaner.ids_of a)) as [Hocc | Hocc].
    - rewrite (bool_decide_eq_true_2 _ Hocc). unfold Download.download_recurring_schedule.
      cbn [recurring_defs recurring_schedule Cleaner.save_recurring_schedule].
      rewrite Hd1, Hpat', recurring_rows_spec, Hrows. clear Hrows. by case_match.
    - rewrite (bool_decide_eq_false_2 _ Hocc). unfold Download.download_recurring_schedule.
      rewrite Hd1, Hpat', Hs1, recurring_rows_spec.
      rewrite <- (purge_absent appt_id a Hocc) at 1. rewrite Hrows. clear Hrows. by case_match. }
  unfold Cleaner.delete_recurring_appointment. rewrite Hdoc.
  destruct (filter_id_length id appt_id defs) as [Hlt _].
  rewrite (proj2 (Nat.eqb_neq _ _)) by (specialize (Hlt Hin); lia).
  fold defs'. cbn [data_store Cleaner.save_recurring_definitions].
  destruct (data_store s) as [[ap [rc|]]|]; rewrite ?Hpat'; cbn [snd]; by apply Hgen.
Qed.

End RecurringDownloadFacts.

Section RecurringDownloadInstances.
Import Recurring Examples Samples Requests.

(** The stored A, the only definition of the first Monday, is deleted. *)
Lemma download_recurring_after_delete_witness :
  recurring_defs uploaded = Parsed stored
  /\ Forall Pattern.valid stored
  /\ uuids 0 ∈ id <$> stored
  /\ recurring_schedule uploaded = Parsed uploaded_schedule
  /\ exists patterns patterns',
       Pattern.derive stored = Some patterns
       /\ Pattern.derive (filter (fun x => id x ≠ uuids 0) stored) = Some patterns'
       /\ Download.download_recurring_schedule
            (Cleaner.delete_recurring_appointment (uuids 0) uploaded).2
          = Some match omap (Download.resolve_recurring (Download.recurring_lookup stored)
                               (Download.pattern_map patterns))
                            (filter (fun p => p.2 ≠ uuids 0
                                              /\ p.1.1 ∈ Pattern.label <$> patterns')
                                    (Download.pairs uploaded_schedule)) with
                 | [] => Download.Redirect "No recurring assignments to download."
                 | rows => Download.Csv rows
                 end.
Proof.
  assert (uuids 0 ∈ id <$> stored) as H3 by decide_by_compute.
  split; [reflexivity |]. split; [exact stored_valid |]. split; [exact H3 |].
  split; [reflexivity |].
  exact (download_recurring_after_delete uploaded (uuids 0) stored uploaded_schedule
           eq_refl stored_valid H3 eq_refl).
Defined.

(** Before the delete the download has five rows; after it, one: the row
    of B under the second Tuesday.  The two assignments of B under the
    first Monday are still saved but give no row any more. *)
Example download_recurring_around_delete :
  (exists rows, Download.download_recurring_schedule uploaded = Some (Download.Csv rows)
                /\ length rows = 5)
  /\ (exists row,
        Download.download_recurring_schedule
          (Cleaner.delete_recurring_appointment (uuids 0) uploaded).2
        = Some (Download.Csv [row])
        /\ Download.r_Pattern row = "Second Tuesday"
        /\ Download.r_Agency_Number row = "B2")
  /\ recurring_schedule (Cleaner.delete_recurring_appointment (uuids 0) uploaded).2
     = Parsed [ ("First Monday", [ ("Trailer 1_A", [uuids 1]); ("Trailer 2_B", [uuids 1]) ]);
                ("Second Tuesday", [ ("Trailer 1_A", [uuids 1]) ]) ].
Proof.
  split_and!.
  - eexists. split; vm_compute; reflexivity.
  - eexists. split_and!; vm_compute; reflexivity.
  - vm_compute. reflexivity.
Qed.

End RecurringDownloadInstances.
